(** * Resilient sports-data aggregation layer: a shallow embedding

    The development follows the JavaScript sources of the sports API:

    - [clients/espn-client.js]   : circuit breaker, bounded retry, payload
                                   normalisation and health check of the
                                   scores/news upstream client;
    - [config/cache.js]          : the Redis-backed cache client and the
                                   read-through helper [CacheHelper.getOrSet];
    - [repositories/*.js]        : [BaseRepository.upsert]/[findBy],
                                   [TeamsRepository.getOrCreate] and
                                   [GamesRepository.upsertFromESPN] /
                                   [syncFromScoreboard];
    - [clients/odds-client.js]   : the retry loop of the odds client;
    - [clients/standings-scraper.js] : how [getStandings] starts;
    - [app.js]                   : [validateLeague], the error handler and
                                   the order in which the layers are
                                   registered;
    - [middleware/cacheMiddleware.js] : the caching middleware;
    - [repositories/*.js]        : [BaseRepository.bulkUpsert] and
                                   [TeamsRepository.syncFromScoreboard].

    A text is a sequence of UTF-16 code units below 256, and a number is
    an integer.  [JSON.stringify], [JSON.parse] and [parseInt] are modelled
    on these; the cache is also given over any values with these built-ins
    as parameters ([Codec]), and the properties of the cache are proved
    there.

    Asynchronous functions are modelled by explicit state passing: every
    function takes the part of the world it reads (clock, breaker, Redis
    store, relational store) and returns its completion together with the
    new world.  The outside world (HTTP upstream, faults of the Redis and
    relational stores) is an oracle indexed by the number of the request. *)

From Stdlib Require Import ZArith String Ascii List Bool Lia.
From stdpp Require Import base option gmap strings list.

Import ListNotations.
Local Open Scope string_scope.
Local Open Scope Z_scope.

(** ** JavaScript values

    The values that travel through the layer are JSON data: upstream
    payloads, cached entries and database rows.  Numbers are the integers
    (scores, identifiers, TTLs); [undefined] is not a JSON value and is
    modelled by [None] of [option jsval] where the code can observe it. *)

#[warnings="-register-all"]
Inductive jsval : Type :=
| JNull
| JBool (b : bool)
| JNum (n : Z)
| JStr (s : string)
| JArr (items : list jsval)
| JObj (fields : list (string * jsval)).

(** How an [async] function completes.  [Unmodelled] marks the runs that
    leave the fragment of JavaScript covered here (see [Json.JSON_parse]). *)
Inductive completion (A : Type) : Type :=
| Resolved (a : A)
| Rejected (e : string)
| Unmodelled.
Arguments Resolved {A} a.
Arguments Rejected {A} e.
Arguments Unmodelled {A}.

(** Induction over values that reaches the items of arrays and the fields
    of objects. *)
Section NestedInduction.
Variable P : jsval -> Prop.
Hypothesis Hnull : P JNull.
Hypothesis Hbool : forall b, P (JBool b).
Hypothesis Hnum : forall n, P (JNum n).
Hypothesis Hstr : forall s, P (JStr s).
Hypothesis Harr : forall items, Forall P items -> P (JArr items).
Hypothesis Hobj : forall fields, Forall (fun kv => P (snd kv)) fields -> P (JObj fields).

Fixpoint jsval_nested_ind (v : jsval) : P v :=
  match v with
  | JNull => Hnull
  | JBool b => Hbool b
  | JNum n => Hnum n
  | JStr s => Hstr s
  | JArr items =>
      Harr items
        ((fix all (l : list jsval) : Forall P l :=
            match l with
            | [] => @List.Forall_nil _ P
            | x :: r => @List.Forall_cons _ P x r (jsval_nested_ind x) (all r)
            end) items)
  | JObj fields =>
      Hobj fields
        ((fix all (l : list (string * jsval)) : Forall (fun kv => P (snd kv)) l :=
            match l with
            | [] => @List.Forall_nil _ (fun kv => P (snd kv))
            | (k, x) :: r =>
                @List.Forall_cons _ (fun kv => P (snd kv)) (k, x) r
                  (jsval_nested_ind x) (all r)
            end) fields)
  end.
End NestedInduction.

Module Js.

(** Truthiness of a value ([!v], [v || d], [if (v)]). *)
Definition truthy (v : jsval) : bool :=
  match v with
  | JNull => false
  | JBool b => b
  | JNum n => negb (n =? 0)
  | JStr s => negb (String.eqb s "")
  | JArr _ => true
  | JObj _ => true
  end.

Fixpoint assoc (k : string) (fs : list (string * jsval)) : option jsval :=
  match fs with
  | [] => None
  | (k', v) :: rest => if String.eqb k k' then Some v else assoc k rest
  end.

(** Property read [v.k] for the keys the sources read ([id], [length],
    column names): an own field of an object, the [length] of an array,
    and [undefined] otherwise. *)
Definition prop (k : string) (v : jsval) : option jsval :=
  match v with
  | JObj fs => assoc k fs
  | JArr items =>
      if String.eqb k "length" then Some (JNum (Z.of_nat (List.length items)))
      else None
  | _ => None
  end.

Definition digit_char (d : Z) : ascii := ascii_of_nat (48 + Z.to_nat d).

(** The decimal digits of a natural number, in front of [acc]; [fuel]
    bounds the number of digits. *)
Fixpoint decimal (fuel : nat) (n : Z) (acc : string) : string :=
  match fuel with
  | O => acc
  | S f =>
      let acc' := String (digit_char (n mod 10)) acc in
      if n <? 10 then acc' else decimal f (n / 10) acc'
  end.

(** An integer in decimal notation, as ToString and [JSON.stringify] print
    it. *)
Definition Z_to_string (n : Z) : string :=
  if n <? 0
  then String "-" (decimal (S (Z.to_nat (Z.log2 (- n)))) (- n) "")
  else decimal (S (Z.to_nat (Z.log2 n))) n "".

Fixpoint join_with (sep : string) (parts : list string) : string :=
  match parts with
  | [] => ""
  | p :: rest =>
      match rest with
      | [] => p
      | _ :: _ => (p ++ sep ++ join_with sep rest)%string
      end
  end.

(** The abstract operation ToString, as used by [String(x)] and by
    [parseInt(x)] on a non-string argument. *)
Fixpoint ToString (v : jsval) : string :=
  match v with
  | JNull => "null"
  | JBool true => "true"
  | JBool false => "false"
  | JNum n => Z_to_string n
  | JStr s => s
  | JArr items =>
      join_with ","
        (List.map (fun x => match x with JNull => "" | _ => ToString x end) items)
  | JObj _ => "[object Object]"
  end.

Definition String_ (v : option jsval) : string :=
  match v with Some x => ToString x | None => "undefined" end.

(** *** Members inherited from [Object.prototype]

    A read [table[k]] on an object literal finds, for these names, the
    inherited member: a function, or for [__proto__] the prototype object
    itself.  All of them are truthy. *)
Definition Object_prototype : list string :=
  [ "constructor"; "__proto__"; "hasOwnProperty"; "isPrototypeOf";
    "propertyIsEnumerable"; "toLocaleString"; "toString"; "valueOf";
    "__defineGetter__"; "__defineSetter__"; "__lookupGetter__";
    "__lookupSetter__" ].

Definition inherited (k : string) : bool :=
  existsb (String.eqb k) Object_prototype.

(** The [name] of the inherited member: a function carries its own name,
    [constructor] is the function [Object], and the prototype object has
    no [name]. *)
Definition inherited_name (k : string) : option string :=
  if String.eqb k "constructor" then Some "Object"
  else if String.eqb k "__proto__" then None
  else if inherited k then Some k
  else None.

(** *** [parseInt] with no radix argument

    A character of a text is a UTF-16 code unit below 256.  Of the white
    space that [parseInt] strips (TAB, LF, VT, FF, CR, SP, NBSP, BOM and the
    space separators from U+1680 on) the first seven are in that range. *)

Definition is_space (c : ascii) : bool :=
  let n := nat_of_ascii c in
  ((n =? 32) || (n =? 9) || (n =? 10) || (n =? 11) || (n =? 12) || (n =? 13)
   || (n =? 160))%nat.

Fixpoint trim_left (s : string) : string :=
  match s with
  | String c rest => if is_space c then trim_left rest else s
  | EmptyString => s
  end.

(** Value of a character as a digit of the given radix. *)
Definition digit_of (radix : Z) (c : ascii) : option Z :=
  let n := Z.of_nat (nat_of_ascii c) in
  let d :=
    if (48 <=? n) && (n <=? 57) then Some (n - 48)
    else if (97 <=? n) && (n <=? 122) then Some (n - 87)
    else if (65 <=? n) && (n <=? 90) then Some (n - 55)
    else None in
  match d with
  | Some x => if x <? radix then Some x else None
  | None => None
  end.

(** Longest prefix of digits; [None] when there is no digit at all. *)
Fixpoint digits (radix : Z) (s : string) (acc : option Z) : option Z :=
  match s with
  | String c rest =>
      match digit_of radix c with
      | Some d => digits radix rest (Some (match acc with Some a => a * radix + d | None => d end))
      | None => acc
      end
  | EmptyString => acc
  end.

(** [parseInt(s)]: [None] is [NaN]. *)
Definition parseInt_string (s : string) : option Z :=
  let t := trim_left s in
  let '(sign, t1) :=
    match t with
    | String "-" r => (-1, r)
    | String "+" r => (1, r)
    | _ => (1, t)
    end in
  let '(radix, t2) :=
    match t1 with
    | String "0" (String "x" r) => (16, r)
    | String "0" (String "X" r) => (16, r)
    | _ => (10, t1)
    end in
  match digits radix t2 None with
  | Some m => Some (sign * m)
  | None => None
  end.

Definition parseInt (v : option jsval) : option Z :=
  parseInt_string (String_ v).

(** [n || null] for a number [n] that may be [NaN] (or 0, which is falsy). *)
Definition number_or_null (n : option Z) : jsval :=
  match n with
  | Some m => if m =? 0 then JNull else JNum m
  | None => JNull
  end.

(** [v || null] for a value [v] that may be [undefined]. *)
Definition or_null (v : option jsval) : jsval :=
  match v with
  | Some x => if truthy x then x else JNull
  | None => JNull
  end.

(** [toUpperCase] on the letters a to z, which are the letters of the
    league codes; the accented letters above 127 are left as they are. *)
Definition upper_char (c : ascii) : ascii :=
  let n := nat_of_ascii c in
  if ((97 <=? n) && (n <=? 122))%nat then ascii_of_nat (n - 32) else c.

Fixpoint toUpperCase (s : string) : string :=
  match s with
  | String c rest => String (upper_char c) (toUpperCase rest)
  | EmptyString => EmptyString
  end.

End Js.

(** ** [JSON.stringify] and [JSON.parse]

    The two built-ins the cache client calls, on the fragment of JSON the
    development covers: [null], booleans, integers up to 2^53 - 1, strings
    of one-byte characters, arrays, and objects whose keys are distinct and
    do not start with a digit (JavaScript enumerates index-like keys first).
    [JSON_parse] answers [OutsideFragment] on a text it does not cover
    (fractions, exponents, [-0], characters above 127, ...), so it never
    reports a syntax error or a value that JavaScript would not. *)

Module Json.

Inductive parsed (A : Type) : Type :=
| Parsed (a : A)
| SyntaxError
| OutsideFragment.
Arguments Parsed {A} a.
Arguments SyntaxError {A}.
Arguments OutsideFragment {A}.

Definition dquote : ascii := ascii_of_nat 34.
Definition backslash : ascii := ascii_of_nat 92.

Definition hex_char (n : nat) : ascii :=
  if (n <? 10)%nat then ascii_of_nat (48 + n) else ascii_of_nat (87 + n).

Definition escape_char (c : ascii) : string :=
  let n := nat_of_ascii c in
  if (n =? 34)%nat then String backslash (String dquote EmptyString)
  else if (n =? 92)%nat then String backslash (String backslash EmptyString)
  else if (n =? 8)%nat then String backslash "b"
  else if (n =? 12)%nat then String backslash "f"
  else if (n =? 10)%nat then String backslash "n"
  else if (n =? 13)%nat then String backslash "r"
  else if (n =? 9)%nat then String backslash "t"
  else if (n <? 32)%nat then
    String backslash
      (String "u" (String "0" (String "0"
         (String (hex_char (n / 16)) (String (hex_char (n mod 16)) EmptyString)))))
  else String c EmptyString.

Fixpoint escape (s : string) : string :=
  match s with
  | String c rest => (escape_char c ++ escape rest)%string
  | EmptyString => EmptyString
  end.

Definition quote (s : string) : string :=
  String dquote (escape s ++ String dquote EmptyString)%string.

Fixpoint JSON_stringify (v : jsval) : string :=
  match v with
  | JNull => "null"
  | JBool true => "true"
  | JBool false => "false"
  | JNum n => Js.Z_to_string n
  | JStr s => quote s
  | JArr items =>
      ("[" ++ Js.join_with "," (List.map JSON_stringify items) ++ "]")%string
  | JObj fields =>
      ("{" ++ Js.join_with ","
                (List.map (fun '(k, x) => (quote k ++ ":" ++ JSON_stringify x)%string)
                   fields)
           ++ "}")%string
  end.

(** *** The parser *)

Definition is_ws (c : ascii) : bool :=
  let n := nat_of_ascii c in
  ((n =? 32) || (n =? 9) || (n =? 10) || (n =? 13))%nat.

Fixpoint skip_ws (s : string) : string :=
  match s with
  | String c rest => if is_ws c then skip_ws rest else s
  | EmptyString => s
  end.

Definition is_digit (c : ascii) : bool :=
  let n := nat_of_ascii c in ((48 <=? n) && (n <=? 57))%nat.

Fixpoint take_digits (s : string) (acc : Z) : Z * string :=
  match s with
  | String c rest =>
      if is_digit c
      then take_digits rest (acc * 10 + (Z.of_nat (nat_of_ascii c) - 48))
      else (acc, s)
  | EmptyString => (acc, s)
  end.

Definition MAX_SAFE_INTEGER : Z := 9007199254740991.

(** What follows the integer part decides: a fraction or an exponent is
    outside the fragment. *)
Definition finish_number (negative : bool) (m : Z) (rest : string)
  : parsed (jsval * string) :=
  match rest with
  | String "." _ | String "e" _ | String "E" _ => OutsideFragment
  | _ =>
      if MAX_SAFE_INTEGER <? m then OutsideFragment
      else if negative then
        (if m =? 0 then OutsideFragment else Parsed (JNum (- m), rest))
      else Parsed (JNum m, rest)
  end.

(** The digits of a number, the sign already read. *)
Definition parse_digits (negative : bool) (s : string) : parsed (jsval * string) :=
  match s with
  | String "0" rest =>
      match rest with
      | String c _ => if is_digit c then SyntaxError else finish_number negative 0 rest
      | EmptyString => finish_number negative 0 rest
      end
  | String c _ =>
      if is_digit c
      then let '(m, rest) := take_digits s 0 in finish_number negative m rest
      else SyntaxError
  | EmptyString => SyntaxError
  end.

Definition hex4 (a b c d : ascii) : option Z :=
  match Js.digit_of 16 a, Js.digit_of 16 b, Js.digit_of 16 c, Js.digit_of 16 d with
  | Some x, Some y, Some z, Some t => Some (((x * 16 + y) * 16 + z) * 16 + t)
  | _, _, _, _ => None
  end.

(** The characters of a string literal after its opening quote; [acc] is
    the text read so far, in reverse. *)
Fixpoint parse_chars (s : string) (acc : list ascii) : parsed (string * string) :=
  match s with
  | EmptyString => SyntaxError
  | String c rest =>
      let n := nat_of_ascii c in
      if (n =? 34)%nat then Parsed (string_of_list_ascii (rev acc), rest)
      else if (n =? 92)%nat then
        match rest with
        | String e rest' =>
            let m := nat_of_ascii e in
            if (m =? 34)%nat then parse_chars rest' (dquote :: acc)
            else if (m =? 92)%nat then parse_chars rest' (backslash :: acc)
            else if (m =? 47)%nat then parse_chars rest' (ascii_of_nat 47 :: acc)
            else if (m =? 98)%nat then parse_chars rest' (ascii_of_nat 8 :: acc)
            else if (m =? 102)%nat then parse_chars rest' (ascii_of_nat 12 :: acc)
            else if (m =? 110)%nat then parse_chars rest' (ascii_of_nat 10 :: acc)
            else if (m =? 114)%nat then parse_chars rest' (ascii_of_nat 13 :: acc)
            else if (m =? 116)%nat then parse_chars rest' (ascii_of_nat 9 :: acc)
            else if (m =? 117)%nat then
              match rest' with
              | String h1 (String h2 (String h3 (String h4 rest''))) =>
                  match hex4 h1 h2 h3 h4 with
                  | Some u =>
                      if u <? 128
                      then parse_chars rest'' (ascii_of_nat (Z.to_nat u) :: acc)
                      else OutsideFragment
                  | None => SyntaxError
                  end
              | _ => SyntaxError
              end
            else SyntaxError
        | EmptyString => SyntaxError
        end
      else if (n <? 32)%nat then SyntaxError
      else if (127 <? n)%nat then OutsideFragment
      else parse_chars rest (c :: acc)
  end.

Definition starts_with_digit (k : string) : bool :=
  match k with
  | String c _ => is_digit c
  | EmptyString => false
  end.

Definition has_key (k : string) (fs : list (string * jsval)) : bool :=
  existsb (fun kv => String.eqb k (fst kv)) fs.

Definition literal (lit : string) (v : jsval) (s : string) : parsed (jsval * string) :=
  if String.prefix lit s
  then Parsed (v, String.substring (String.length lit)
                    (String.length s - String.length lit) s)
  else SyntaxError.

Fixpoint parse_value (fuel : nat) (s : string) : parsed (jsval * string) :=
  match fuel with
  | O => OutsideFragment
  | S f =>
      match skip_ws s with
      | EmptyString => SyntaxError
      | String c rest =>
          let n := nat_of_ascii c in
          if (n =? 110)%nat then literal "null" JNull (String c rest)
          else if (n =? 116)%nat then literal "true" (JBool true) (String c rest)
          else if (n =? 102)%nat then literal "false" (JBool false) (String c rest)
          else if (n =? 34)%nat then
            match parse_chars rest [] with
            | Parsed (str, rest') => Parsed (JStr str, rest')
            | SyntaxError => SyntaxError
            | OutsideFragment => OutsideFragment
            end
          else if (n =? 45)%nat then parse_digits true rest
          else if is_digit c then parse_digits false (String c rest)
          else if (n =? 91)%nat then
            match skip_ws rest with
            | String "]" rest' => Parsed (JArr [], rest')
            | _ => parse_elements f rest []
            end
          else if (n =? 123)%nat then
            match skip_ws rest with
            | String "}" rest' => Parsed (JObj [], rest')
            | _ => parse_members f rest []
            end
          else if (127 <? n)%nat then OutsideFragment
          else SyntaxError
      end
  end

with parse_elements (fuel : nat) (s : string) (acc : list jsval)
  : parsed (jsval * string) :=
  match fuel with
  | O => OutsideFragment
  | S f =>
      match parse_value f s with
      | Parsed (v, rest) =>
          match skip_ws rest with
          | String "," rest' => parse_elements f rest' (v :: acc)
          | String "]" rest' => Parsed (JArr (rev (v :: acc)), rest')
          | _ => SyntaxError
          end
      | SyntaxError => SyntaxError
      | OutsideFragment => OutsideFragment
      end
  end

with parse_members (fuel : nat) (s : string) (acc : list (string * jsval))
  : parsed (jsval * string) :=
  match fuel with
  | O => OutsideFragment
  | S f =>
      match skip_ws s with
      | String c rest =>
          if (nat_of_ascii c =? 34)%nat then
            match parse_chars rest [] with
            | Parsed (k, rest1) =>
                match skip_ws rest1 with
                | String ":" rest2 =>
                    match parse_value f rest2 with
                    | Parsed (v, rest3) =>
                        if starts_with_digit k || has_key k acc then OutsideFragment
                        else
                          match skip_ws rest3 with
                          | String "," rest4 => parse_members f rest4 ((k, v) :: acc)
                          | String "}" rest4 => Parsed (JObj (rev ((k, v) :: acc)), rest4)
                          | _ => SyntaxError
                          end
                    | SyntaxError => SyntaxError
                    | OutsideFragment => OutsideFragment
                    end
                | _ => SyntaxError
                end
            | SyntaxError => SyntaxError
            | OutsideFragment => OutsideFragment
            end
          else SyntaxError
      | EmptyString => SyntaxError
      end
  end.

Definition JSON_parse (text : string) : parsed jsval :=
  match parse_value (2 * String.length text + 2) text with
  | Parsed (v, rest) =>
      match skip_ws rest with
      | EmptyString => Parsed v
      | _ => SyntaxError
      end
  | SyntaxError => SyntaxError
  | OutsideFragment => OutsideFragment
  end.

(** *** The fragment, and what the round-trip proof needs to name it *)

(** A text after a value: the end, or a comma or closing bracket. *)
Definition delimited (rest : string) : bool :=
  match rest with
  | EmptyString => true
  | String c _ =>
      let n := nat_of_ascii c in ((n =? 44) || (n =? 93) || (n =? 125))%nat
  end.

(** Every character is below 128. *)
Fixpoint one_byte (s : string) : bool :=
  match s with
  | EmptyString => true
  | String c r => (nat_of_ascii c <? 128)%nat && one_byte r
  end.

(** No key occurs twice. *)
Fixpoint distinct (ks : list string) : bool :=
  match ks with
  | [] => true
  | k :: rest => negb (existsb (String.eqb k) rest) && distinct rest
  end.

(** The values of the fragment: safe integers, one-byte strings, and
    objects whose keys are distinct, one-byte and not index-like. *)
Fixpoint in_fragment (v : jsval) : bool :=
  match v with
  | JNull => true
  | JBool _ => true
  | JNum n => (- MAX_SAFE_INTEGER <=? n) && (n <=? MAX_SAFE_INTEGER)
  | JStr s => one_byte s
  | JArr items => forallb in_fragment items
  | JObj fields =>
      forallb (fun '(k, x) => one_byte k && negb (starts_with_digit k) && in_fragment x)
        fields
      && distinct (List.map fst fields)
  end.

(** Fuel that suffices to read a printed value back. *)
Fixpoint need (v : jsval) : nat :=
  match v with
  | JArr items => S (list_sum (List.map (fun x => S (need x)) items))
  | JObj fields => S (list_sum (List.map (fun '(_, x) => S (need x)) fields))
  | _ => 1
  end.

(** The first character of a printed value. *)
Definition value_start (c : ascii) : bool :=
  let n := nat_of_ascii c in
  ((n =? 110) || (n =? 116) || (n =? 102) || (n =? 34) || (n =? 45)
   || ((48 <=? n) && (n <=? 57)) || (n =? 91) || (n =? 123))%nat.

(** The printed value, followed by a delimiter, parses to the value and
    leaves the rest. *)
Definition reads_back (v : jsval) : Prop :=
  in_fragment v = true ->
  forall (fuel : nat) (rest : string),
    (need v <= fuel)%nat ->
    delimited rest = true ->
    parse_value fuel (JSON_stringify v ++ rest) = Parsed (v, rest).

(** A member of an object as [JSON_stringify] prints it. *)
Definition member_text (kv : string * jsval) : string :=
  let '(k, x) := kv in (quote k ++ ":" ++ JSON_stringify x)%string.

End Json.

(** ** The scores upstream client ([clients/espn-client.js]) *)

Module Espn.

(** The module-level [circuitBreaker] object. *)
Record CircuitBreaker : Type := mkBreaker {
  isOpen : bool;
  failureCount : Z;
  lastFailureTime : option Z;   (* [null] until the first counted failure *)
  threshold : Z;
  resetTimeout : Z
}.

Definition circuitBreaker : CircuitBreaker :=
  {| isOpen := false; failureCount := 0; lastFailureTime := None;
     threshold := 5; resetTimeout := 30000 |}.

(** The fields of an axios error that the client reads:
    [error.code], [error.response?.status] and whether [error.request]
    is set. *)
Record AxiosError : Type := mkError {
  code : option string;
  response : option Z;
  request : bool;
  message : string
}.

(** What [_fetchWithRetry] throws: the gate's
    [new Error('ESPN API circuit breaker is open')] or the axios error of
    the last attempt. *)
Inductive FetchError : Type :=
| CircuitOpen
| Upstream (e : AxiosError).

Definition error_message (e : FetchError) : string :=
  match e with
  | CircuitOpen => "ESPN API circuit breaker is open"
  | Upstream a => message a
  end.

Record RequestConfig : Type := mkConfig { method : string; url : string }.

(** One network attempt as the upstream answers it: how long it took and
    either the response body (a 2xx status) or the axios error. *)
Record Attempt : Type := mkAttempt {
  latency : Z;
  outcome : AxiosError + jsval
}.

(** The upstream: the answer to the [n]-th request the process issues. *)
Definition Network : Type := nat -> RequestConfig -> Attempt.

(** The state the client reads and writes: the clock behind [Date.now()],
    the number of requests issued so far, and the breaker. *)
Record World : Type := mkWorld {
  now : Z;
  sent : nat;
  breaker : CircuitBreaker
}.

Record ESPNClient : Type := mkClient {
  timeout : Z;
  maxRetries : nat;
  retryDelay : Z
}.

(** [constructor(options = {})] with no option given. *)
Definition espnClient : ESPNClient :=
  {| timeout := 10000; maxRetries := 3; retryDelay := 1000 |}.

Definition with_breaker (w : World) (cb : CircuitBreaker) : World :=
  {| now := now w; sent := sent w; breaker := cb |}.

(** [Date.now() - circuitBreaker.lastFailureTime]; [null] counts as 0. *)
Definition timeSinceLastFailure (w : World) : Z :=
  now w - match lastFailureTime (breaker w) with Some t => t | None => 0 end.

Definition _isCircuitOpen (w : World) : bool * World :=
  let cb := breaker w in
  if isOpen cb then
    if resetTimeout cb <? timeSinceLastFailure w then
      (false,
       with_breaker w
         {| isOpen := false; failureCount := 0;
            lastFailureTime := lastFailureTime cb;
            threshold := threshold cb; resetTimeout := resetTimeout cb |})
    else (true, w)
  else (false, w).

(** The response interceptor's error handler; it re-throws the error, so
    only the state change is returned. *)
Definition _handleError (e : AxiosError) (w : World) : World :=
  match response e with
  | Some _ =>
      let cb := breaker w in
      let count := failureCount cb + 1 in
      with_breaker w
        {| isOpen := if threshold cb <=? count then true else isOpen cb;
           failureCount := count;
           lastFailureTime := Some (now w);
           threshold := threshold cb; resetTimeout := resetTimeout cb |}
  | None => w
  end.

(** [this.client.request(config)]: the request goes out, the answer comes
    back after its latency, and a failure passes through the response
    interceptor before it reaches the caller. *)
(** The world when the answer to the next request has arrived. *)
Definition answered (net : Network) (config : RequestConfig) (w : World) : World :=
  {| now := now w + latency (net (sent w) config);
     sent := S (sent w); breaker := breaker w |}.

Definition client_request (net : Network) (config : RequestConfig) (w : World)
  : (AxiosError + jsval) * World :=
  match outcome (net (sent w) config) with
  | inr data => (inr data, answered net config w)
  | inl e => (inl e, _handleError e (answered net config w))
  end.

Definition _isRetryable (e : AxiosError) : bool :=
  match code e with
  | Some c => String.eqb c "ECONNABORTED" || String.eqb c "ETIMEDOUT"
  | None => false
  end
  || match response e with Some status => 500 <=? status | None => false end
  || match response e with Some status => status =? 429 | None => false end.

Definition _delay (ms : Z) (w : World) : World :=
  {| now := now w + ms; sent := sent w; breaker := breaker w |}.

Definition reset_failureCount (w : World) : World :=
  let cb := breaker w in
  with_breaker w
    {| isOpen := isOpen cb; failureCount := 0;
       lastFailureTime := lastFailureTime cb;
       threshold := threshold cb; resetTimeout := resetTimeout cb |}.

Fixpoint _fetchWithRetry (c : ESPNClient) (net : Network) (config : RequestConfig)
    (retries : nat) (w : World) : (FetchError + jsval) * World :=
  let '(open, w0) := _isCircuitOpen w in
  if open then (inl CircuitOpen, w0)
  else
    match client_request net config w0 with
    | (inr data, w1) => (inr data, reset_failureCount w1)
    | (inl e, w1) =>
        match retries with
        | S r =>
            if _isRetryable e
            then _fetchWithRetry c net config r (_delay (retryDelay c) w1)
            else (inl (Upstream e), w1)
        | O => (inl (Upstream e), w1)
        end
    end.

(** The object [healthCheck] resolves to; a field the returned object does
    not have is [None]. *)
Record Health : Type := mkHealth {
  status : string;
  health_message : option string;
  health_latency : option Z;
  health_lastFailureTime : option (option Z);
  circuitBreakerOpen : option bool
}.

Definition health_request : RequestConfig :=
  {| method := "GET"; url := "/football/nfl/scoreboard?limit=1" |}.

Definition healthCheck (c : ESPNClient) (net : Network) (w : World) : Health * World :=
  let '(open, w0) := _isCircuitOpen w in
  if open then
    ({| status := "unhealthy";
        health_message := Some "Circuit breaker is open";
        health_latency := None;
        health_lastFailureTime := Some (lastFailureTime (breaker w0));
        circuitBreakerOpen := None |}, w0)
  else
    let startTime := now w0 in
    match _fetchWithRetry c net health_request (maxRetries c) w0 with
    | (inr _, w1) =>
        ({| status := "healthy";
            health_message := None;
            health_latency := Some (now w1 - startTime);
            health_lastFailureTime := None;
            circuitBreakerOpen := Some false |}, w1)
    | (inl err, w1) =>
        ({| status := "unhealthy";
            health_message := Some (error_message err);
            health_latency := None;
            health_lastFailureTime := None;
            circuitBreakerOpen := Some (isOpen (breaker w1)) |}, w1)
    end.

(** *** Normalisation of a scoreboard payload *)

Definition LEAGUE_CONFIG : list (string * (string * string)) :=
  [ ("nfl", ("football/nfl", "NFL"));
    ("nba", ("basketball/nba", "NBA"));
    ("mlb", ("baseball/mlb", "MLB"));
    ("nhl", ("hockey/nhl", "NHL"));
    ("ncaaf", ("football/college-football", "NCAAF"));
    ("ncaab", ("basketball/mens-college-basketball", "NCAAB")) ].

Fixpoint league_entry (league : string) (cfg : list (string * (string * string)))
  : option (string * string) :=
  match cfg with
  | [] => None
  | (k, e) :: rest => if String.eqb league k then Some e else league_entry league rest
  end.

(** [LEAGUE_CONFIG[league]?.name || league.toUpperCase()] *)
Definition league_name (league : string) : string :=
  match league_entry league LEAGUE_CONFIG with
  | Some (_, name) => name
  | None =>
      match Js.inherited_name league with
      | Some name => name
      | None => Js.toUpperCase league
      end
  end.

(** The part of an ESPN event that [_normalizeGameData] reads.  A field
    the payload may omit is an [option]. *)
Record EspnTeam : Type := mkEspnTeam {
  team_id : option jsval;
  displayName : option jsval;
  abbreviation : option jsval;
  logo : option jsval
}.

Record Competitor : Type := mkCompetitor {
  homeAway : option jsval;
  team : option EspnTeam;
  score : option jsval;
  records : option (list (option jsval))   (* the [summary] of each record *)
}.

Record Competition : Type := mkCompetition {
  competitors : option (list Competitor);
  venue_fullName : option jsval;
  broadcast_names : option (list (option (list jsval)))
}.

Record StatusType : Type := mkStatusType {
  type_id : option jsval;
  type_name : option jsval;
  type_state : option jsval;
  type_detail : option jsval;
  type_shortDetail : option jsval
}.

Record EventStatus : Type := mkEventStatus {
  status_type : option StatusType;
  status_period : option jsval
}.

Record Event : Type := mkEvent {
  event_id : option jsval;
  event_date : option jsval;
  competitions : option (list Competition);
  event_status : option EventStatus
}.

(** The normalised shapes. *)
Record TeamSide : Type := mkTeamSide {
  side_id : option jsval;
  side_espnId : string;
  side_name : option jsval;
  side_abbreviation : option jsval;
  side_logo : option jsval;
  side_score : jsval;
  side_records : jsval
}.

Record GameStatus : Type := mkGameStatus {
  st_type_id : option jsval;
  st_type_name : option jsval;
  st_type_state : option jsval;
  st_type_detail : option jsval;
  st_period : option jsval;
  st_clock : option jsval;
  st_completed : bool
}.

Record Game : Type := mkGame {
  espnId : string;
  sport : string;
  league : string;
  homeTeam : TeamSide;
  awayTeam : TeamSide;
  game_status : GameStatus;
  startTime : option jsval;
  venue : option jsval;
  broadcast : jsval
}.

(** [x?.[0]] on an array that may be missing. *)
Definition first {A : Type} (l : option (list A)) : option A :=
  match l with
  | Some (x :: _) => Some x
  | _ => None
  end.

(** [c.homeAway === side] *)
Definition plays (side : string) (c : Competitor) : bool :=
  match homeAway c with
  | Some (JStr s) => String.eqb s side
  | _ => false
  end.

(** [event.competitions?.[0]?.competitors?.find(c => c.homeAway === side)] *)
Definition competitor_of (side : string) (event : Event) : option Competitor :=
  match first (competitions event) with
  | Some c0 =>
      match competitors c0 with
      | Some cs => List.find (plays side) cs
      | None => None
      end
  | None => None
  end.

Definition normalizeSide (c : option Competitor) : TeamSide :=
  let t := c ≫= team in
  {| side_id := t ≫= team_id;
     side_espnId := Js.String_ (t ≫= team_id);
     side_name := t ≫= displayName;
     side_abbreviation := t ≫= abbreviation;
     side_logo := t ≫= logo;
     side_score := Js.number_or_null (Js.parseInt (c ≫= score));
     side_records := Js.or_null (mjoin (first (c ≫= records))) |}.

Definition _normalizeGameData (event : Event) (league : string) : Game :=
  let home := competitor_of "home" event in
  let away := competitor_of "away" event in
  let ty := event_status event ≫= status_type in
  {| espnId := Js.String_ (event_id event);
     sport := league;
     league := league_name league;
     homeTeam := normalizeSide home;
     awayTeam := normalizeSide away;
     game_status :=
       {| st_type_id := ty ≫= type_id;
          st_type_name := ty ≫= type_name;
          st_type_state := ty ≫= type_state;
          st_type_detail := ty ≫= type_detail;
          st_period := event_status event ≫= status_period;
          st_clock := ty ≫= type_shortDetail;
          st_completed :=
            match ty ≫= type_state with
            | Some (JStr s) => String.eqb s "post"
            | _ => false
            end |};
     startTime := event_date event;
     venue := first (competitions event) ≫= venue_fullName;
     broadcast :=
       Js.or_null (first (mjoin (first (first (competitions event) ≫= broadcast_names)))) |}.

(** [_normalizeScoreboard]: [data?.events || []] mapped through
    [_normalizeGameData] (the [lastUpdated] stamp is the clock). *)
Record Scoreboard : Type := mkScoreboard {
  sb_sport : string;
  sb_league : string;
  sb_lastUpdated : Z;
  games : list Game
}.

Definition _normalizeScoreboard (events : option (list Event)) (league : string)
    (clock : Z) : Scoreboard :=
  {| sb_sport := league;
     sb_league := league_name league;
     sb_lastUpdated := clock;
     games := List.map (fun event => _normalizeGameData event league)
                (match events with Some es => es | None => [] end) |}.

End Espn.

(** ** The odds upstream client ([clients/odds-client.js])

    Its breaker repeats that of the scores client, with a threshold of 3
    and a cooldown of 60 s; its classifier of failures is written
    differently, and its retry loop is in [OddsClient] below. *)

Module Odds.

Definition circuitBreaker : Espn.CircuitBreaker :=
  {| Espn.isOpen := false; Espn.failureCount := 0; Espn.lastFailureTime := None;
     Espn.threshold := 3; Espn.resetTimeout := 60000 |}.

Definition retryableStatuses : list Z := [408; 429; 500; 502; 503; 504].

Definition _shouldRetry (e : Espn.AxiosError) : bool :=
  match Espn.code e with
  | Some c => String.eqb c "ECONNABORTED" || String.eqb c "ETIMEDOUT"
  | None => false
  end
  || match Espn.response e with
     | Some status => existsb (Z.eqb status) retryableStatuses
     | None => false
     end.

End Odds.

(** ** The cache ([config/cache.js]) *)

Module Cache.
Import Json.

(** *** The Redis server behind the ioredis client

    A key holds a text and, when it was written by SETEX, the instant (in
    milliseconds) at which it expires.  [commands] counts the commands
    received; the fault oracle says which of them the client rejects
    (connection lost, retries exhausted). *)
Record Entry : Type := mkEntry {
  text : string;
  expiry : option Z
}.

Record Redis : Type := mkRedis {
  store : gmap string Entry;
  commands : nat
}.

Definition Faults : Type := nat -> bool.

Inductive reply (A : Type) : Type :=
| Reply (a : A)
| CommandError.
Arguments Reply {A} a.
Arguments CommandError {A}.

Definition live (now : Z) (e : Entry) : bool :=
  match expiry e with
  | Some t => now <? t
  | None => true
  end.

Definition lookup_live (m : gmap string Entry) (now : Z) (key : string)
  : option string :=
  match m !! key with
  | Some e => if live now e then Some (text e) else None
  | None => None
  end.

(** One command: it is counted, and either rejected or executed. *)
Definition command {A : Type} (faults : Faults) (r : Redis)
    (run : gmap string Entry -> A * gmap string Entry) : reply A * Redis :=
  if faults (commands r)
  then (CommandError, {| store := store r; commands := S (commands r) |})
  else let '(a, m) := run (store r) in
       (Reply a, {| store := m; commands := S (commands r) |}).

Definition redis_get (faults : Faults) (r : Redis) (now : Z) (key : string)
  : reply (option string) * Redis :=
  command faults r (fun m => (lookup_live m now key, m)).

(** SETEX refuses a time to live that is not positive. *)
Definition redis_setex (faults : Faults) (r : Redis) (now : Z) (key : string)
    (seconds : Z) (value : string) : reply unit * Redis :=
  if seconds <=? 0
  then (CommandError, {| store := store r; commands := S (commands r) |})
  else command faults r
         (fun m => (tt, <[key := {| text := value; expiry := Some (now + seconds * 1000) |}]> m)).

Definition redis_set (faults : Faults) (r : Redis) (key : string) (value : string)
  : reply unit * Redis :=
  command faults r (fun m => (tt, <[key := {| text := value; expiry := None |}]> m)).

Definition redis_del (faults : Faults) (r : Redis) (keys : list string)
  : reply unit * Redis :=
  command faults r (fun m => (tt, foldr delete m keys)).

(** *** [CacheClient] *)

Inductive IORedis : Type := ioredis.

Record CacheClient : Type := mkCacheClient {
  client : option IORedis;
  isConnected : bool;
  isHealthy : bool
}.

(** [!this.isConnected || !this.client] *)
Definition unavailable (c : CacheClient) : bool :=
  negb (isConnected c) || match client c with Some _ => false | None => true end.

Definition get (faults : Faults) (c : CacheClient) (r : Redis) (now : Z)
    (key : string) : completion jsval * Redis :=
  if unavailable c then (Resolved JNull, r)
  else
    match redis_get faults r now key with
    | (Reply (Some value), r1) =>
        if String.eqb value "" then (Resolved JNull, r1)
        else
          match JSON_parse value with
          | Parsed v => (Resolved v, r1)
          | SyntaxError => (Resolved (JStr value), r1)
          | OutsideFragment => (Unmodelled, r1)
          end
    | (Reply None, r1) => (Resolved JNull, r1)
    | (CommandError, r1) => (Resolved JNull, r1)
    end.

(** [typeof value === 'string' ? value : JSON.stringify(value)] *)
Definition serialize (value : jsval) : string :=
  match value with
  | JStr s => s
  | _ => JSON_stringify value
  end.

(** [ttl] is [None] for the default [null]. *)
Definition set (faults : Faults) (c : CacheClient) (r : Redis) (now : Z)
    (key : string) (value : jsval) (ttl : option Z) : completion bool * Redis :=
  if unavailable c then (Resolved false, r)
  else
    let serialized := serialize value in
    let sent :=
      match ttl with
      | Some seconds =>
          if seconds =? 0 then redis_set faults r key serialized
          else redis_setex faults r now key seconds serialized
      | None => redis_set faults r key serialized
      end in
    match sent with
    | (Reply _, r1) => (Resolved true, r1)
    | (CommandError, r1) => (Resolved false, r1)
    end.

Definition del (faults : Faults) (c : CacheClient) (r : Redis) (key : string)
  : completion bool * Redis :=
  if unavailable c then (Resolved false, r)
  else
    match redis_del faults r [key] with
    | (Reply _, r1) => (Resolved true, r1)
    | (CommandError, r1) => (Resolved false, r1)
    end.

Section Patterns.

(** The glob matching of the Redis KEYS command, a property of the
    server: [glob_match pattern key]. *)
Variable glob_match : string -> string -> bool.

Definition redis_keys (faults : Faults) (r : Redis) (now : Z) (pattern : string)
  : reply (list string) * Redis :=
  command faults r
    (fun m =>
       (List.filter
          (fun k => glob_match pattern k
                    && match lookup_live m now k with Some _ => true | None => false end)
          (List.map fst (map_to_list m)), m)).

Definition delPattern (faults : Faults) (c : CacheClient) (r : Redis) (now : Z)
    (pattern : string) : completion Z * Redis :=
  if unavailable c then (Resolved 0, r)
  else
    match redis_keys faults r now pattern with
    | (Reply keys, r1) =>
        match keys with
        | [] => (Resolved 0, r1)
        | _ :: _ =>
            match redis_del faults r1 keys with
            | (Reply _, r2) => (Resolved (Z.of_nat (List.length keys)), r2)
            | (CommandError, r2) => (Resolved 0, r2)
            end
        end
    | (CommandError, r1) => (Resolved 0, r1)
    end.

End Patterns.

(** *** [CACHE_TTL], seconds per data category

    What [CACHE_TTL[dataType] || 300] can be: a number of seconds; a member
    inherited from [Object.prototype], when [dataType] is the name of one;
    or a number beyond the safe integers, which [parseInt] rounds and the
    model does not follow. *)
Inductive Ttl : Type :=
| Seconds (n : Z)
| Member
| Imprecise.

(** [parseInt(process.env.X) || d]: the environment is a partial map. *)
Definition env_ttl (env : string -> option string) (name : string) (d : Z) : Ttl :=
  match env name with
  | Some s =>
      match Js.parseInt_string s with
      | Some n =>
          if n =? 0 then Seconds d
          else if (- MAX_SAFE_INTEGER <=? n) && (n <=? MAX_SAFE_INTEGER)
               then Seconds n
               else Imprecise
      | None => Seconds d
      end
  | None => Seconds d
  end.

Definition CACHE_TTL (env : string -> option string) : list (string * Ttl) :=
  [ ("scores", env_ttl env "CACHE_TTL_SCORES" 30);
    ("odds", env_ttl env "CACHE_TTL_ODDS" 300);
    ("standings", env_ttl env "CACHE_TTL_STANDINGS" 21600);
    ("schedules", env_ttl env "CACHE_TTL_SCHEDULES" 86400);
    ("players", env_ttl env "CACHE_TTL_PLAYERS" 604800);
    ("news", env_ttl env "CACHE_TTL_NEWS" 3600) ].

Fixpoint ttl_entry (dataType : string) (table : list (string * Ttl)) : option Ttl :=
  match table with
  | [] => None
  | (k, t) :: rest => if String.eqb dataType k then Some t else ttl_entry dataType rest
  end.

(** [CACHE_TTL[dataType] || 300] *)
Definition ttl_for (env : string -> option string) (dataType : string) : Ttl :=
  match ttl_entry dataType (CACHE_TTL env) with
  | Some (Seconds t) => if t =? 0 then Seconds 300 else Seconds t
  | Some t => t
  | None => if Js.inherited dataType then Member else Seconds 300
  end.

(** [cacheClient.set(key, value, ttl)] with such a [ttl].  An inherited
    member is truthy, so it goes to SETEX as its text, and the server
    refuses a time to live that is not an integer. *)
Definition set_at (faults : Faults) (c : CacheClient) (r : Redis) (now : Z)
    (key : string) (value : jsval) (t : Ttl) : completion bool * Redis :=
  match t with
  | Seconds n => set faults c r now key value (Some n)
  | Member =>
      if unavailable c then (Resolved false, r)
      else (Resolved false, {| store := store r; commands := S (commands r) |})
  | Imprecise =>
      if unavailable c then (Resolved false, r) else (Unmodelled, r)
  end.

(** [generateCacheKey(namespace, ...parts)] on string parts. *)
Definition keep_char (c : ascii) : bool :=
  let n := nat_of_ascii c in
  (((97 <=? n) && (n <=? 122)) || ((65 <=? n) && (n <=? 90))
   || ((48 <=? n) && (n <=? 57)) || (n =? 95) || (n =? 45))%nat.

Fixpoint sanitize (s : string) : string :=
  match s with
  | String c rest => String (if keep_char c then c else "_"%char) (sanitize rest)
  | EmptyString => EmptyString
  end.

Definition generateCacheKey (namespace : string) (parts : list string) : string :=
  (namespace ++ ":" ++ Js.join_with ":" (List.map sanitize parts))%string.

(** *** [CacheHelper.getOrSet]

    The fetch function is any asynchronous computation over a world [S] of
    its own; it tells how long it took. *)
Record Fetched (S : Type) : Type := mkFetched {
  fetched : completion jsval;
  fetch_world : S;
  fetch_took : Z
}.
Arguments mkFetched {S} _ _ _.
Arguments fetched {S} _.
Arguments fetch_world {S} _.
Arguments fetch_took {S} _.

Record Result : Type := mkResult {
  data : jsval;
  cached : bool
}.

(** [v !== null] *)
Definition not_null (v : jsval) : bool :=
  match v with JNull => false | _ => true end.

Definition getOrSet {S : Type} (env : string -> option string) (faults : Faults)
    (c : CacheClient) (r : Redis) (now : Z)
    (key : string) (fetchFn : S -> Fetched S) (dataType : string) (s : S)
  : completion Result * Redis * S :=
  match get faults c r now key with
  | (Resolved hit, r1) =>
      if not_null hit then (Resolved {| data := hit; cached := true |}, r1, s)
      else
        let f := fetchFn s in
        match fetched f with
        | Resolved d =>
            match set_at faults c r1 (now + fetch_took f) key d (ttl_for env dataType) with
            | (Resolved _, r2) =>
                (Resolved {| data := d; cached := false |}, r2, fetch_world f)
            | (Rejected e, r2) => (Rejected e, r2, fetch_world f)
            | (Unmodelled, r2) => (Unmodelled, r2, fetch_world f)
            end
        | Rejected e => (Rejected e, r1, fetch_world f)
        | Unmodelled => (Unmodelled, r1, fetch_world f)
        end
  | (Rejected e, r1) => (Rejected e, r1, s)
  | (Unmodelled, r1) => (Unmodelled, r1, s)
  end.

(** A fetch function with a call counter, to count its invocations. *)
Definition counted {S : Type} (fetchFn : S -> Fetched S) (ns : nat * S)
  : Fetched (nat * S) :=
  let f := fetchFn (snd ns) in
  {| fetched := fetched f;
     fetch_world := (Datatypes.S (fst ns), fetch_world f);
     fetch_took := fetch_took f |}.

End Cache.

(** ** The repositories ([repositories/*.js]) *)

Module Repo.
Import Cache.

(** *** The relational store behind the Supabase client

    The two tables of the migration that a scoreboard sync writes.  A row
    is an object with one field per column; [id] is a BIGSERIAL. *)
Record Table : Type := mkTable {
  rows : list jsval;
  next_id : Z
}.

Inductive Query : Type :=
| Select (table field value : string)
| Upsert (table : string) (record : jsval) (onConflict : string).

Record Supabase : Type := mkSupabase {
  teams : Table;
  games : Table;
  history : list Query     (* the queries issued, oldest first *)
}.

(** Which queries come back with [{ error }]. *)
Definition DbFaults : Type := nat -> bool.

Definition teams_columns : list string :=
  [ "espn_id"; "sport"; "league"; "name"; "abbreviation"; "location";
    "logo_url"; "color"; "alternate_color" ].
Definition teams_required : list string := [ "espn_id"; "sport"; "league"; "name" ].

Definition games_columns : list string :=
  [ "espn_id"; "sport"; "league"; "home_team_id"; "away_team_id";
    "home_score"; "away_score"; "status"; "period"; "clock"; "start_time";
    "venue"; "broadcast" ].
Definition games_required : list string := [ "espn_id"; "sport"; "league" ].

Definition table_of (db : Supabase) (name : string) : Table :=
  if String.eqb name "teams" then teams db else games db.

Definition columns_of (name : string) : list string :=
  if String.eqb name "teams" then teams_columns else games_columns.

Definition required_of (name : string) : list string :=
  if String.eqb name "teams" then teams_required else games_required.

Definition with_table (db : Supabase) (name : string) (t : Table) (q : Query)
  : Supabase :=
  if String.eqb name "teams"
  then {| teams := t; games := games db; history := history db ++ [q] |}
  else {| teams := teams db; games := t; history := history db ++ [q] |}.

(** [row.field = value] as the [.eq] filter sees it on a text column. *)
Definition field_is (field value : string) (row : jsval) : bool :=
  match Js.prop field row with
  | Some (JStr s) => String.eqb s value
  | _ => false
  end.

Definition has_id (n : Z) (row : jsval) : bool :=
  match Js.prop "id" row with
  | Some (JNum m) => m =? n
  | _ => false
  end.

(** A column the record does not give, or gives as [null]. *)
Definition is_null (record : jsval) (column : string) : bool :=
  match Js.prop column record with
  | Some JNull | None => true
  | Some _ => false
  end.

(** A foreign key is NULL or the [id] of a team. *)
Definition references_team (db : Supabase) (record : jsval) (column : string) : bool :=
  match Js.prop column record with
  | Some JNull | None => true
  | Some (JNum n) => existsb (has_id n) (rows (teams db))
  | Some _ => false
  end.

Definition constraints_hold (db : Supabase) (table : string) (record : jsval) : bool :=
  forallb (fun c => negb (is_null record c)) (required_of table)
  && (String.eqb table "teams"
      || (references_team db record "home_team_id"
          && references_team db record "away_team_id")).

(** The row an insert stores: the columns the record gives, NULL for the
    others. *)
Definition inserted_row (table : string) (id : Z) (record : jsval) : jsval :=
  JObj (("id", JNum id)
        :: List.map (fun c => (c, match Js.prop c record with Some v => v | None => JNull end))
             (columns_of table)).

(** The row an update leaves: the columns the record gives overwrite the
    old ones. *)
Definition updated_row (table : string) (old record : jsval) : jsval :=
  JObj (("id", match Js.prop "id" old with Some v => v | None => JNull end)
        :: List.map
             (fun c => (c, match Js.prop c record with
                           | Some v => v
                           | None => match Js.prop c old with Some v => v | None => JNull end
                           end))
             (columns_of table)).

(** The table a query addresses. *)
Definition table_name (q : Query) : string :=
  match q with
  | Select table _ _ => table
  | Upsert table _ _ => table
  end.

Definition conflict_value (record : jsval) (onConflict : string) : string :=
  match Js.prop onConflict record with
  | Some (JStr s) => s
  | _ => ""
  end.

(** [supabase.from(table).select('*').eq(field, value)]: [None] is
    [{ error }]. *)
Definition db_select (dbf : DbFaults) (db : Supabase) (table field value : string)
  : option (list jsval) * Supabase :=
  let t := table_of db table in
  let db1 := with_table db table t (Select table field value) in
  if dbf (List.length (history db)) then (None, db1)
  else (Some (List.filter (field_is field value) (rows t)), db1).

(** [supabase.from(table).upsert([record], { onConflict }).select()] *)
Definition db_upsert (dbf : DbFaults) (db : Supabase) (table : string)
    (record : jsval) (onConflict : string) : option (list jsval) * Supabase :=
  let t := table_of db table in
  let q := Upsert table record onConflict in
  if dbf (List.length (history db)) || negb (constraints_hold db table record)
  then (None, with_table db table t q)
  else
    let key := conflict_value record onConflict in
    match List.find (field_is onConflict key) (rows t) with
    | Some old =>
        let row := updated_row table old record in
        (Some [row],
         with_table db table
           {| rows := List.map (fun x => if field_is onConflict key x then row else x) (rows t);
              next_id := next_id t |} q)
    | None =>
        let row := inserted_row table (next_id t) record in
        (Some [row],
         with_table db table {| rows := rows t ++ [row]; next_id := next_id t + 1 |} q)
    end.

(** *** [BaseRepository] *)

Definition findBy (dbf : DbFaults) (db : Supabase) (tableName field value : string)
  : list jsval * Supabase :=
  match db_select dbf db tableName field value with
  | (Some data, db1) => (data, db1)
  | (None, db1) => ([], db1)
  end.

(** [upsert(records, onConflict)] called with one record object; it
    resolves to an array in every case. *)
Definition upsert (dbf : DbFaults) (db : Supabase) (tableName : string)
    (records : jsval) (onConflict : string) : jsval * Supabase :=
  match Js.prop "length" records with
  | Some (JNum 0) => (JArr [], db)
  | _ =>
      match db_upsert dbf db tableName records onConflict with
      | (Some data, db1) => (JArr data, db1)
      | (None, db1) => (JArr [], db1)
      end
  end.

(** An object literal: a property whose value is [undefined] is dropped
    when the record is sent. *)
Definition field (k : string) (v : option jsval) : list (string * jsval) :=
  match v with
  | Some x => [(k, x)]
  | None => []
  end.

(** *** [TeamsRepository] *)

Record World : Type := mkWorld {
  redis : Redis;
  db : Supabase
}.

Record Services : Type := mkServices {
  cacheClient : CacheClient;
  redis_faults : Faults;
  db_faults : DbFaults;
  clock : Z
}.

(** [teams[0] || null] *)
Definition first_or_null (l : list jsval) : jsval :=
  match l with
  | x :: _ => if Js.truthy x then x else JNull
  | [] => JNull
  end.

Definition findByEspnId (sv : Services) (w : World) (tableName : string)
    (espnId : string) : jsval * World :=
  let '(found, db1) := findBy (db_faults sv) (db w) tableName "espn_id" espnId in
  (first_or_null found, {| redis := redis w; db := db1 |}).

(** [leagueNames[sport] || sport.toUpperCase()].  For a name inherited
    from [Object.prototype] the read finds the inherited member: the
    prototype object for [__proto__], and otherwise a function, which is
    [None] here, as a record drops a property that holds a function when
    it is sent. *)
Definition _getLeagueName (sport : string) : option jsval :=
  if String.eqb sport "nfl" then Some (JStr "NFL")
  else if String.eqb sport "nba" then Some (JStr "NBA")
  else if String.eqb sport "mlb" then Some (JStr "MLB")
  else if String.eqb sport "nhl" then Some (JStr "NHL")
  else if String.eqb sport "ncaaf" then Some (JStr "NCAAF")
  else if String.eqb sport "ncaab" then Some (JStr "NCAAB")
  else if String.eqb sport "__proto__" then Some (JObj [])
  else if Js.inherited sport then None
  else Some (JStr (Js.toUpperCase sport)).

(** [TeamsRepository.upsertFromESPN]; the normalised team of a game has
    no [location], [color] or [alternateColor]. *)
Definition team_record (espnTeamData : Espn.TeamSide) (league : string) : jsval :=
  JObj
    ([ ("espn_id",
        JStr (if String.eqb (Espn.side_espnId espnTeamData) ""
              then Js.String_ (Espn.side_id espnTeamData)
              else Espn.side_espnId espnTeamData));
       ("sport", JStr league) ]
     ++ field "league" (_getLeagueName league)
     ++ field "name" (Espn.side_name espnTeamData)
     ++ [ ("abbreviation", Js.or_null (Espn.side_abbreviation espnTeamData));
          ("location", JNull);
          ("logo_url", Js.or_null (Espn.side_logo espnTeamData));
          ("color", JNull);
          ("alternate_color", JNull) ]).

Definition teams_upsertFromESPN (sv : Services) (w : World)
    (espnTeamData : Espn.TeamSide) (league : string) : jsval * World :=
  let '(res, db1) :=
    upsert (db_faults sv) (db w) "teams" (team_record espnTeamData league) "espn_id" in
  (res, {| redis := redis w; db := db1 |}).

Definition getOrCreate (sv : Services) (w : World)
    (espnTeamData : Espn.TeamSide) (league : string) : completion jsval * World :=
  let cacheKey := generateCacheKey "team" [Espn.side_espnId espnTeamData] in
  match get (redis_faults sv) (cacheClient sv) (redis w) (clock sv) cacheKey with
  | (Resolved hit, r1) =>
      let w1 := {| redis := r1; db := db w |} in
      if Js.truthy hit then (Resolved hit, w1)
      else
        let '(found, w2) := findByEspnId sv w1 "teams" (Espn.side_espnId espnTeamData) in
        let '(team, w3) :=
          if Js.truthy found then (found, w2)
          else teams_upsertFromESPN sv w2 espnTeamData league in
        if Js.truthy team then
          let '(_, r4) :=
            set (redis_faults sv) (cacheClient sv) (redis w3) (clock sv)
              cacheKey team (Some 604800) in
          (Resolved team, {| redis := r4; db := db w3 |})
        else (Resolved team, w3)
  | (Rejected e, r1) => (Rejected e, {| redis := r1; db := db w |})
  | (Unmodelled, r1) => (Unmodelled, {| redis := r1; db := db w |})
  end.

(** *** [GamesRepository] *)

Definition game_record (espnGameData : Espn.Game) (homeTeam awayTeam : jsval) : jsval :=
  let st := Espn.game_status espnGameData in
  JObj
    ([ ("espn_id", JStr (Espn.espnId espnGameData));
       ("sport", JStr (Espn.sport espnGameData));
       ("league", JStr (Espn.league espnGameData)) ]
     ++ field "home_team_id" (Js.prop "id" homeTeam)
     ++ field "away_team_id" (Js.prop "id" awayTeam)
     ++ [ ("home_score", Espn.side_score (Espn.homeTeam espnGameData));
          ("away_score", Espn.side_score (Espn.awayTeam espnGameData)) ]
     ++ field "status" (Espn.st_type_state st)
     ++ [ ("period", Js.or_null (Espn.st_period st));
          ("clock", Js.or_null (Espn.st_clock st));
          ("start_time", Js.or_null (Espn.startTime espnGameData));
          ("venue", Js.or_null (Espn.venue espnGameData));
          ("broadcast", Js.or_null (Some (Espn.broadcast espnGameData))) ]).

(** [GamesRepository.upsertFromESPN]; [JNull] is the early [return null]. *)
Definition upsertFromESPN (sv : Services) (w : World) (espnGameData : Espn.Game)
  : completion jsval * World :=
  match getOrCreate sv w (Espn.homeTeam espnGameData) (Espn.sport espnGameData) with
  | (Resolved homeTeam, w1) =>
      match getOrCreate sv w1 (Espn.awayTeam espnGameData) (Espn.sport espnGameData) with
      | (Resolved awayTeam, w2) =>
          if negb (Js.truthy homeTeam) || negb (Js.truthy awayTeam)
          then (Resolved JNull, w2)
          else
            let game := game_record espnGameData homeTeam awayTeam in
            let '(res, db3) := upsert (db_faults sv) (db w2) "games" game "espn_id" in
            (Resolved res, {| redis := redis w2; db := db3 |})
      | (Rejected e, w2) => (Rejected e, w2)
      | (Unmodelled, w2) => (Unmodelled, w2)
      end
  | (Rejected e, w1) => (Rejected e, w1)
  | (Unmodelled, w1) => (Unmodelled, w1)
  end.

Record SyncCounts : Type := mkCounts {
  successful : nat;
  failed : nat;
  total : nat
}.

Section Sync.

Variable glob_match : string -> string -> bool.

Definition _clearSportCache (sv : Services) (w : World) (sport : string) : World :=
  let '(_, r1) :=
    delPattern glob_match (redis_faults sv) (cacheClient sv) (redis w) (clock sv)
      ("scores:" ++ sport ++ ":*")%string in
  let '(_, r2) :=
    delPattern glob_match (redis_faults sv) (cacheClient sv) r1 (clock sv)
      ("games:" ++ sport ++ ":*")%string in
  {| redis := r2; db := db w |}.

(** The [for] loop of [syncFromScoreboard]: the lengths of [results] and
    [failed] after the games have been upserted one after the other. *)
Fixpoint sync_games (sv : Services) (w : World) (gs : list Espn.Game)
    (results failed : nat) : option (nat * nat * World) :=
  match gs with
  | [] => Some (results, failed, w)
  | game :: rest =>
      match upsertFromESPN sv w game with
      | (Resolved result, w1) =>
          if Js.truthy result
          then sync_games sv w1 rest (Datatypes.S results) failed
          else sync_games sv w1 rest results (Datatypes.S failed)
      | (Rejected _, w1) => sync_games sv w1 rest results (Datatypes.S failed)
      | (Unmodelled, _) => None
      end
  end.

(** [None]: the run leaves the modelled fragment. *)
Definition syncFromScoreboard (sv : Services) (w : World)
    (scoreboardData : Espn.Scoreboard) : option (SyncCounts * World) :=
  match sync_games sv w (Espn.games scoreboardData) 0%nat 0%nat with
  | Some (results, failed, w1) =>
      Some ({| successful := results; failed := failed;
               total := List.length (Espn.games scoreboardData) |},
            _clearSportCache sv w1 (Espn.sb_sport scoreboardData))
  | None => None
  end.

End Sync.

End Repo.

(** ** Classes of failures named by the retry policy *)

Module Failure.
Import Espn.

(** The request timed out: [ECONNABORTED] or [ETIMEDOUT]. *)
Definition timed_out (e : AxiosError) : bool :=
  match code e with
  | Some c => String.eqb c "ECONNABORTED" || String.eqb c "ETIMEDOUT"
  | None => false
  end.

(** The upstream answered 429, 500, 502, 503 or 504. *)
Definition overload_status (e : AxiosError) : bool :=
  match response e with
  | Some status => existsb (Z.eqb status) [429; 500; 502; 503; 504]
  | None => false
  end.

(** No timeout, and either no response at all (the connection could not
    be made) or a status below 500 other than 408 and 429. *)
Definition refusal (e : AxiosError) : bool :=
  negb (timed_out e)
  && match response e with
     | Some status => (status <? 500) && negb (status =? 429) && negb (status =? 408)
     | None => true
     end.

End Failure.

(** ** Scores that carry no points *)

Module Score.
Import Espn.

(** The score the payload gives for a side, [undefined] when the
    competitor or its [score] is missing. *)
Definition score_of (side : string) (event : Event) : option jsval :=
  competitor_of side event ≫= score.

(** What [parseInt] looks for digits in: the text after the leading white
    space, an optional sign and an optional [0x], with the radix. *)
Definition digits_part (s : string) : Z * string :=
  let t := Js.trim_left s in
  let t1 :=
    match t with
    | String "-" r => r
    | String "+" r => r
    | _ => t
    end in
  match t1 with
  | String "0" (String "x" r) => (16, r)
  | String "0" (String "X" r) => (16, r)
  | _ => (10, t1)
  end.

(** A text in which [parseInt] finds no number: there is no digit where
    the digits should start.  Such are the empty text, ["-"], ["0x"],
    ["abc"], and the texts of [true], [null], [undefined] and of an
    object. *)
Definition non_numeric (s : string) : bool :=
  let '(radix, t) := digits_part s in
  match t with
  | String c _ =>
      match Js.digit_of radix c with Some _ => false | None => true end
  | EmptyString => true
  end.

(** The digits at the head of a text are all 0. *)
Fixpoint only_zeros (radix : Z) (t : string) : bool :=
  match t with
  | String c r =>
      match Js.digit_of radix c with
      | Some d => (d =? 0) && only_zeros radix r
      | None => true
      end
  | EmptyString => true
  end.

(** A text that is numeric and whose digits are all 0: ["0"], ["00"],
    ["-0"], ["0.5"], ["0 points"]. *)
Definition zero_text (s : string) : bool :=
  negb (non_numeric s)
  && (let '(radix, t) := digits_part s in only_zeros radix t).

(** A score that carries no points: its text, as [parseInt] takes it
    ([String(score)], ["undefined"] for a missing score), is non-numeric
    or a zero. *)
Definition scoreless (v : option jsval) : bool :=
  non_numeric (Js.String_ v) || zero_text (Js.String_ v).

(** The same payload with other scores. *)
Definition rescore_competitor (f : Competitor -> option jsval) (c : Competitor)
  : Competitor :=
  {| homeAway := homeAway c; team := team c; score := f c; records := records c |}.

Definition rescore_competition (f : Competitor -> option jsval) (k : Competition)
  : Competition :=
  {| competitors := option_map (List.map (rescore_competitor f)) (competitors k);
     venue_fullName := venue_fullName k;
     broadcast_names := broadcast_names k |}.

Definition rescore (f : Competitor -> option jsval) (event : Event) : Event :=
  {| event_id := event_id event;
     event_date := event_date event;
     competitions := option_map (List.map (rescore_competition f)) (competitions event);
     event_status := event_status event |}.

End Score.

(** ** Sample inputs used by the examples below *)

Module Sample.
Import Espn.

Definition scoreboard_request : RequestConfig :=
  {| method := "GET"; url := "/basketball/nba/scoreboard" |}.

(** An axios error for an HTTP error status. *)
Definition http_error (status : Z) : AxiosError :=
  {| code := Some (if status <? 500 then "ERR_BAD_REQUEST" else "ERR_BAD_RESPONSE");
     response := Some status; request := true;
     message := "Request failed with status code" |}.

(** The upstream refuses the connection: no response. *)
Definition refused : AxiosError :=
  {| code := Some "ECONNREFUSED"; response := None; request := true;
     message := "connect ECONNREFUSED" |}.

(** The request timed out. *)
Definition timeout_error : AxiosError :=
  {| code := Some "ECONNABORTED"; response := None; request := true;
     message := "timeout of 10000ms exceeded" |}.

(** An upstream that answers every request with the same failure. *)
Definition failing (e : AxiosError) : Network :=
  fun _ _ => {| latency := 20; outcome := inl e |}.

Definition answering (body : jsval) : Network :=
  fun _ _ => {| latency := 20; outcome := inr body |}.

Definition tripped_breaker : CircuitBreaker :=
  {| isOpen := true; failureCount := 5; lastFailureTime := Some 5000;
     threshold := 5; resetTimeout := 30000 |}.

(** 15 s after the last failure: inside the cooldown. *)
Definition gated : World :=
  {| now := 20000; sent := 7; breaker := tripped_breaker |}.

(** 35 s after the last failure: the cooldown is over. *)
Definition cooled_down : World :=
  {| now := 40000; sent := 7; breaker := tripped_breaker |}.

Definition fresh : World :=
  {| now := 1000; sent := 0; breaker := circuitBreaker |}.

(** Closed, one failure short of the threshold. *)
Definition strained : World :=
  {| now := 9000; sent := 4;
     breaker := {| isOpen := false; failureCount := 4; lastFailureTime := Some 8000;
                   threshold := 5; resetTimeout := 30000 |} |}.

(** The cache client once the [ready] event has fired. *)
Definition connected : Cache.CacheClient :=
  {| Cache.client := Some Cache.ioredis; Cache.isConnected := true;
     Cache.isHealthy := true |}.

(** The cache client before [connect()]. *)
Definition disconnected : Cache.CacheClient :=
  {| Cache.client := None; Cache.isConnected := false; Cache.isHealthy := true |}.

Definition no_fault : nat -> bool := fun _ => false.
Definition every_command_fails : nat -> bool := fun _ => true.

Definition empty_redis : Cache.Redis :=
  {| Cache.store := ∅; Cache.commands := 0 |}.

(** A store in which the scores of the NBA are cached as [null] until
    t = 31 s. *)
Definition null_cached : Cache.Redis :=
  {| Cache.store :=
       {[ "scores:nba" := {| Cache.text := "null"; Cache.expiry := Some 31000 |} ]};
     Cache.commands := 0 |}.

Definition no_env : string -> option string := fun _ => None.

(** A fetch function that resolves to a fixed body after 120 ms. *)
Definition fetch_body (body : jsval) : unit -> Cache.Fetched unit :=
  fun _ => Cache.mkFetched (Resolved body) tt 120.

(** A glob matcher for patterns that every stored key matches. *)
Definition star_glob : string -> string -> bool := fun _ _ => true.

(** A scheduled game: the home side shows ["0"], the away side has no
    score yet. *)
Definition tipoff : Event :=
  {| event_id := Some (JStr "401673744");
     event_date := Some (JStr "2024-01-17T00:30Z");
     competitions :=
       Some [ {| competitors :=
                   Some [ {| homeAway := Some (JStr "home");
                             team := Some {| team_id := Some (JStr "2");
                                             displayName := Some (JStr "Boston Celtics");
                                             abbreviation := Some (JStr "BOS");
                                             logo := None |};
                             score := Some (JStr "0");
                             records := None |};
                          {| homeAway := Some (JStr "away");
                             team := Some {| team_id := Some (JStr "17");
                                             displayName := Some (JStr "Brooklyn Nets");
                                             abbreviation := Some (JStr "BKN");
                                             logo := None |};
                             score := None;
                             records := None |} ];
                 venue_fullName := Some (JStr "TD Garden");
                 broadcast_names := None |} ];
     event_status :=
       Some {| status_type :=
                 Some {| type_id := Some (JStr "1"); type_name := None;
                         type_state := Some (JStr "pre"); type_detail := None;
                         type_shortDetail := None |};
               status_period := Some (JNum 0) |} |}.

Definition tipoff_game : Game := _normalizeGameData tipoff "nba".

(** Cache and store healthy; nothing cached, no team and no game stored
    yet: the first sighting of both teams. *)
Definition services : Repo.Services :=
  {| Repo.cacheClient := connected; Repo.redis_faults := no_fault;
     Repo.db_faults := no_fault; Repo.clock := 1000 |}.

Definition first_sighting : Repo.World :=
  {| Repo.redis := empty_redis;
     Repo.db := {| Repo.teams := {| Repo.rows := []; Repo.next_id := 1 |};
                   Repo.games := {| Repo.rows := []; Repo.next_id := 1 |};
                   Repo.history := [] |} |}.

End Sample.

(** ** League codes ([clients/espn-client.js], [app.js]) *)

Module League.

(** [toLowerCase] on the letters A to Z; no other character becomes a
    letter of a league code or of an inherited name. *)
Definition lower_char (c : ascii) : ascii :=
  let n := nat_of_ascii c in
  if ((65 <=? n) && (n <=? 90))%nat then ascii_of_nat (n + 32) else c.

Fixpoint toLowerCase (s : string) : string :=
  match s with
  | String c rest => String (lower_char c) (toLowerCase rest)
  | EmptyString => EmptyString
  end.

(** The names every object literal inherits from [Object.prototype]: a
    read [table[k]] with such a [k] finds the inherited member, which is
    truthy and has no [path]. *)
Definition Object_prototype : list string := Js.Object_prototype.

Definition inherited (k : string) : bool := Js.inherited k.

(** What [_getLeaguePath] gives: the path, [undefined] (the [path] of an
    inherited member), or the thrown [Error]. *)
Inductive LeaguePath : Type :=
| Path (p : string)
| NoPath
| InvalidLeague (message : string).

Definition _getLeaguePath (league : string) : LeaguePath :=
  let key := toLowerCase league in
  match Espn.league_entry key Espn.LEAGUE_CONFIG with
  | Some (path, _) => Path path
  | None =>
      if inherited key then NoPath
      else InvalidLeague
             ("Invalid league: " ++ league
              ++ ". Supported: "
              ++ Js.join_with ", " (List.map fst Espn.LEAGUE_CONFIG))%string
  end.

(** [validateLeague] of [app.js]: [validLeagues.includes(league)]. *)
Definition validLeagues : list string :=
  [ "nfl"; "nba"; "mlb"; "nhl"; "ncaaf"; "ncaab" ].

Definition validateLeague (league : string) : bool :=
  if negb (existsb (String.eqb league) validLeagues) then false else true.

End League.

(** ** The retry loop of the odds client ([clients/odds-client.js])

    The gate and the response interceptor are those of the scores client,
    on the breaker of [Odds.circuitBreaker]; the loop differs: a success
    leaves the counter as it is. *)

Module OddsClient.
Import Espn.

Record OddsClient : Type := mkOddsClient {
  apiKey : string;
  timeout : Z;
  maxRetries : nat;
  retryDelay : Z
}.

(** [constructor(options)] with only the key given. *)
Definition oddsClient (key : string) : OddsClient :=
  {| apiKey := key; timeout := 10000; maxRetries := 2; retryDelay := 1000 |}.

Inductive FetchError : Type :=
| CircuitOpen
| Upstream (e : AxiosError).

Definition error_message (e : FetchError) : string :=
  match e with
  | CircuitOpen => "Odds API circuit breaker is open"
  | Upstream a => message a
  end.

Fixpoint _fetchWithRetry (c : OddsClient) (net : Network) (config : RequestConfig)
    (retries : nat) (w : World) : (FetchError + jsval) * World :=
  let '(open, w0) := _isCircuitOpen w in
  if open then (inl CircuitOpen, w0)
  else
    match client_request net config w0 with
    | (inr data, w1) => (inr data, w1)
    | (inl e, w1) =>
        match retries with
        | S r =>
            if Odds._shouldRetry e
            then _fetchWithRetry c net config r (_delay (retryDelay c) w1)
            else (inl (Upstream e), w1)
        | O => (inl (Upstream e), w1)
        end
    end.

End OddsClient.

(** ** The error handler of the application ([app.js]) *)

Module App.

(** [hay.includes(needle)] *)
Fixpoint includes (needle hay : string) : bool :=
  String.prefix needle hay
  || match hay with
     | String _ rest => includes needle rest
     | EmptyString => false
     end.

Record ErrorBody : Type := mkErrorBody {
  http_status : Z;
  error : string;
  error_detail : string     (* the [message] field of the body *)
}.

(** [app.use((err, req, res, next) => ...)]; [node_env] is
    [process.env.NODE_ENV]. *)
Definition errorHandler (node_env : option string) (err_message : string) : ErrorBody :=
  if negb (String.eqb err_message "")
     && includes "circuit breaker is open" err_message
  then {| http_status := 503;
          error := "Service temporarily unavailable";
          error_detail := err_message |}
  else {| http_status := 500;
          error := "Internal server error";
          error_detail :=
            match node_env with
            | Some env => if String.eqb env "production" then "An error occurred"
                          else err_message
            | None => err_message
            end |}.

End App.

(** ** The caching middleware ([middleware/cacheMiddleware.js]) *)

Module Middleware.
Import Cache.

(** The part of an Express request the middleware reads.  [query_string]
    is [new URLSearchParams(req.query).toString()]. *)
Record Request : Type := mkRequest {
  req_method : string;
  cache_control : option string;     (* [req.headers['cache-control']] *)
  req_path : string;
  param_league : option string;      (* [req.params.league] *)
  query_league : option string;      (* [req.query.league] *)
  query_string : string
}.

Record Options : Type := mkOptions {
  keyGenerator : option (Request -> string);
  ttl : option Z;
  enabled : bool
}.

(** What reaches the client: the status, the [X-Cache] header and the
    JSON body. *)
Record Response : Type := mkResponse {
  statusCode : Z;
  x_cache : option string;
  body : jsval
}.

(** The rest of the chain behind [next()]: a handler over a world of its
    own that answers once with [res.status(code).json(data)], as the
    routes and the error handler of [app.js] do. *)
Record Handled (St : Type) : Type := mkHandled {
  sent_status : Z;
  sent_body : jsval;
  handler_world : St;
  handler_took : Z
}.
Arguments mkHandled {St} _ _ _ _.
Arguments sent_status {St} _.
Arguments sent_body {St} _.
Arguments handler_world {St} _.
Arguments handler_took {St} _.

(** [a || b] on strings that may be [undefined]. *)
Definition or_string (a b : option string) : option string :=
  match a with
  | Some s => if String.eqb s "" then b else a
  | None => b
  end.

Definition String_of (s : option string) : string :=
  match s with Some x => x | None => "undefined" end.

Definition leagueCacheKey (req : Request) : string :=
  let league := or_string (param_league req) (query_league req) in
  generateCacheKey "api" [String_of league; req_path req; query_string req].

(** [ttl || CACHE_TTL[dataType] || 300] *)
Definition cacheTtl (env : string -> option string) (dataType : string)
    (o : Options) : Ttl :=
  match ttl o with
  | Some t => if t =? 0 then ttl_for env dataType else Seconds t
  | None => ttl_for env dataType
  end.

(** The key of the request; [String(req.query)] is ["[object Object]"]. *)
Definition cacheKey_of (dataType : string) (o : Options) (req : Request) : string :=
  match keyGenerator o with
  | Some generate => generate req
  | None => generateCacheKey dataType [req_path req; "[object Object]"]
  end.

(** The request goes to the handler untouched. *)
Definition pass {St : Type} (next : St -> Handled St) (r : Redis) (s : St)
  : completion Response * Redis * St :=
  let h := next s in
  (Resolved {| statusCode := sent_status h; x_cache := None; body := sent_body h |},
   r, handler_world h).

Definition cacheMiddleware {St : Type} (env : string -> option string)
    (faults : Faults) (c : CacheClient) (dataType : string) (o : Options)
    (req : Request) (next : St -> Handled St) (r : Redis) (now : Z) (s : St)
  : completion Response * Redis * St :=
  if negb (enabled o) then pass next r s
  else if negb (String.eqb (req_method req) "GET") then pass next r s
  else if match cache_control req with
          | Some h => String.eqb h "no-cache"
          | None => false
          end
  then pass next r s
  else
    let cacheKey := cacheKey_of dataType o req in
    match get faults c r now cacheKey with
    | (Resolved hit, r1) =>
        if not_null hit
        then (Resolved {| statusCode := 200; x_cache := Some "HIT"; body := hit |},
              r1, s)
        else
          let h := next s in
          match set_at faults c r1 (now + handler_took h) cacheKey (sent_body h)
                  (cacheTtl env dataType o) with
          | (Unmodelled, r2) => (Unmodelled, r2, handler_world h)
          | (_, r2) =>
              (Resolved {| statusCode := sent_status h; x_cache := Some "MISS";
                           body := sent_body h |},
               r2, handler_world h)
          end
    | (Rejected _, r1) => pass next r1 s
    | (Unmodelled, r1) => (Unmodelled, r1, s)
    end.

(** [cacheScores()] *)
Definition cacheScores : Options :=
  {| keyGenerator := Some leagueCacheKey; ttl := None; enabled := true |}.

(** A handler with a call counter. *)
Definition counting {St : Type} (next : St -> Handled St) (ns : nat * St)
  : Handled (nat * St) :=
  let h := next (snd ns) in
  {| sent_status := sent_status h; sent_body := sent_body h;
     handler_world := (Datatypes.S (fst ns), handler_world h);
     handler_took := handler_took h |}.

End Middleware.

(** ** [BaseRepository.bulkUpsert] and the teams of a scoreboard
    ([repositories/BaseRepository.js], [repositories/TeamsRepository.js]) *)

Module Bulk.
Import Cache Repo.

(** *** One statement that upserts several records

    [supabase.from(table).upsert(records, { onConflict }).select()]: the
    statement fails as a whole when a record violates a constraint or when
    two records of the batch meet on the conflict column. *)
Fixpoint upsert_each (table onConflict : string) (records : list jsval) (t : Table)
  : list jsval * Table :=
  match records with
  | [] => ([], t)
  | record :: rest =>
      let key := conflict_value record onConflict in
      let '(row, t1) :=
        match List.find (field_is onConflict key) (rows t) with
        | Some old =>
            let row := updated_row table old record in
            (row,
             {| rows := List.map (fun x => if field_is onConflict key x then row else x)
                          (rows t);
                next_id := next_id t |})
        | None =>
            let row := inserted_row table (next_id t) record in
            (row, {| rows := rows t ++ [row]; next_id := next_id t + 1 |})
        end in
      let '(out, t2) := upsert_each table onConflict rest t1 in
      (row :: out, t2)
  end.

Definition db_upsert_all (dbf : DbFaults) (db : Supabase) (table : string)
    (records : list jsval) (onConflict : string) : option (list jsval) * Supabase :=
  let t := table_of db table in
  let q := Upsert table (JArr records) onConflict in
  if dbf (List.length (history db))
     || negb (forallb (constraints_hold db table) records)
     || negb (Json.distinct (List.map (fun r => conflict_value r onConflict) records))
  then (None, with_table db table t q)
  else
    let '(out, t1) := upsert_each table onConflict records t in
    (Some out, with_table db table t1 q).

(** [BaseRepository.upsert(records, onConflict)] called with an array. *)
Definition upsert_array (dbf : DbFaults) (tableName : string)
    (records : list jsval) (onConflict : string) (db : Supabase)
  : list jsval * Supabase :=
  match records with
  | [] => ([], db)
  | _ :: _ =>
      match db_upsert_all dbf db tableName records onConflict with
      | (Some data, db1) => (data, db1)
      | (None, db1) => ([], db1)
      end
  end.

(** *** [bulkUpsert(records, onConflict, chunkSize)]

    The repository's [upsert] and the timer are parameters; [St] is the
    state they act on. *)
Section BulkUpsert.

Variable St : Type.
Variable upsert : list jsval -> string -> St -> list jsval * St.
Variable sleep : Z -> St -> St.

(** [records.slice(i, j)] *)
Definition slice (i j : nat) (records : list jsval) : list jsval :=
  firstn (j - i) (skipn i records).

(** The [for] loop; [results] is the length of the array of that name.
    The fuel is the number of rounds allowed: the loop of the source does
    not end when [chunkSize] is 0. *)
Fixpoint bulk_loop (fuel : nat) (records : list jsval) (onConflict : string)
    (chunkSize i results failed : nat) (s : St) : option (nat * nat * St) :=
  if (i <? List.length records)%nat then
    match fuel with
    | O => None
    | S f =>
        let chunk := slice i (i + chunkSize) records in
        let '(chunkResult, s1) := upsert chunk onConflict s in
        let '(results1, failed1) :=
          if (0 <? List.length chunkResult)%nat
          then ((results + List.length chunkResult)%nat, failed)
          else (results, (failed + List.length chunk)%nat) in
        let s2 :=
          if (i + chunkSize <? List.length records)%nat then sleep 100 s1 else s1 in
        bulk_loop f records onConflict chunkSize (i + chunkSize) results1 failed1 s2
    end
  else Some (results, failed, s).

Definition bulkUpsert (records : list jsval) (onConflict : string) (chunkSize : nat)
    (s : St) : option (SyncCounts * St) :=
  match records with
  | [] => Some ({| successful := 0; failed := 0; total := 0 |}, s)
  | _ :: _ =>
      match bulk_loop (List.length records) records onConflict chunkSize 0 0 0 s with
      | Some (results, failed, s1) =>
          Some ({| successful := results; failed := failed;
                   total := List.length records |}, s1)
      | None => None
      end
  end.

(** The same [upsert] and timer, keeping the chunks they were given. *)
Definition logged_upsert (chunk : list jsval) (onConflict : string)
    (ls : list (list jsval) * St) : list jsval * (list (list jsval) * St) :=
  let '(out, s1) := upsert chunk onConflict (snd ls) in
  (out, ((fst ls ++ [chunk])%list, s1)).

Definition logged_sleep (ms : Z) (ls : list (list jsval) * St)
  : list (list jsval) * St :=
  (fst ls, sleep ms (snd ls)).

End BulkUpsert.

(** *** [TeamsRepository.syncFromScoreboard] *)

Definition team_key (t : Espn.TeamSide) (g : Espn.Game) : string :=
  (Espn.side_espnId t ++ "_" ++ Espn.league g)%string.

(** The object stored in [teamsMap] for a side of a game. *)
Definition team_of_game (t : Espn.TeamSide) (g : Espn.Game) : jsval :=
  JObj
    ([ ("espnId", JStr (Espn.side_espnId t)) ]
     ++ field "name" (Espn.side_name t)
     ++ field "abbreviation" (Espn.side_abbreviation t)
     ++ [ ("location", JNull) ]
     ++ field "logo" (Espn.side_logo t)
     ++ [ ("sport", JStr (Espn.sport g)); ("league", JStr (Espn.league g)) ]).

(** [if (!teamsMap.has(key)) teamsMap.set(key, ...)]: the map keeps the
    order of insertion. *)
Definition remember (m : list (string * jsval)) (t : Espn.TeamSide) (g : Espn.Game)
  : list (string * jsval) :=
  let key := team_key t g in
  match Js.assoc key m with
  | Some _ => m
  | None => (m ++ [(key, team_of_game t g)])%list
  end.

Definition teamsMap (games : list Espn.Game) : list (string * jsval) :=
  fold_left
    (fun m g => remember (remember m (Espn.homeTeam g) g) (Espn.awayTeam g) g)
    games [].

Section TeamsSync.

Variable glob_match : string -> string -> bool.

Definition _clearLeagueCache (sv : Services) (w : World) (sport : string) : World :=
  let '(_, r1) :=
    delPattern glob_match (redis_faults sv) (cacheClient sv) (redis w) (clock sv)
      ("teams:" ++ sport ++ ":*")%string in
  let '(_, r2) :=
    delPattern glob_match (redis_faults sv) (cacheClient sv) r1 (clock sv) "team:*" in
  {| redis := r2; db := db w |}.

(** [None]: the loop of [bulkUpsert] does not end. *)
Definition syncFromScoreboard (sv : Services) (w : World)
    (scoreboardData : Espn.Scoreboard) : option (SyncCounts * World) :=
  let teamsArray := List.map snd (teamsMap (Espn.games scoreboardData)) in
  match bulkUpsert Supabase (upsert_array (db_faults sv) "teams") (fun _ d => d)
          teamsArray "espn_id" 100 (db w) with
  | Some (results, db1) =>
      Some (results,
            fold_left (fun w1 g => _clearLeagueCache sv w1 (Espn.sport g))
              (Espn.games scoreboardData) {| redis := redis w; db := db1 |})
  | None => None
  end.

End TeamsSync.

(** *** The cached scoreboard of [GamesRepository] *)

Definition getCachedScoreboard (sv : Services) (w : World) (sport : string)
  : completion jsval * World :=
  let '(res, r1) :=
    get (redis_faults sv) (cacheClient sv) (redis w) (clock sv)
      (generateCacheKey "scores" [sport]) in
  (res, {| redis := r1; db := db w |}).

Definition setCachedScoreboard (sv : Services) (w : World) (sport : string)
    (data : jsval) : World :=
  let '(_, r1) :=
    set (redis_faults sv) (cacheClient sv) (redis w) (clock sv)
      (generateCacheKey "scores" [sport]) data (Some 30) in
  {| redis := r1; db := db w |}.

End Bulk.

(** ** The cache over the values of the runtime

    [CacheClient.get], [CacheClient.set] and [CacheHelper.getOrSet] once
    more, for any type of values with the built-ins the three functions
    call: [JSON.stringify], [JSON.parse], [typeof v === 'string'] and
    [v !== null].  The values are those [JSON.stringify] makes a text of.
    [Cache] is the instance of the JSON data of this development. *)

Module Codec.
Import Cache.

Record Runtime (V : Type) : Type := mkRuntime {
  null : V;
  not_null : V -> bool;              (* [v !== null] *)
  of_string : string -> V;           (* a string, as a value *)
  as_string : V -> option string;    (* the string, when [typeof v === 'string'] *)
  stringify : V -> string;           (* [JSON.stringify] *)
  parse : string -> Json.parsed V    (* [JSON.parse] *)
}.
Arguments null {V} _.
Arguments not_null {V} _ _.
Arguments of_string {V} _ _.
Arguments as_string {V} _ _.
Arguments stringify {V} _ _.
Arguments parse {V} _ _.

(** What the language guarantees of these built-ins. *)
Definition lawful {V : Type} (js : Runtime V) : Prop :=
  (forall v, not_null js v = false <-> v = null js)
  /\ (forall s, as_string js (of_string js s) = Some s)
  /\ (forall v s, as_string js v = Some s -> v = of_string js s)
  /\ (forall s, of_string js s <> null js).

(** The JSON data of this development. *)
Definition json : Runtime jsval :=
  {| null := JNull;
     not_null := Cache.not_null;
     of_string := JStr;
     as_string := fun v => match v with JStr s => Some s | _ => None end;
     stringify := Json.JSON_stringify;
     parse := Json.JSON_parse |}.

Section AnyRuntime.

Context {V : Type} (js : Runtime V).

Definition get (faults : Faults) (c : CacheClient) (r : Redis) (now : Z)
    (key : string) : completion V * Redis :=
  if unavailable c then (Resolved (null js), r)
  else
    match redis_get faults r now key with
    | (Reply (Some value), r1) =>
        if String.eqb value "" then (Resolved (null js), r1)
        else
          match parse js value with
          | Json.Parsed v => (Resolved v, r1)
          | Json.SyntaxError => (Resolved (of_string js value), r1)
          | Json.OutsideFragment => (Unmodelled, r1)
          end
    | (Reply None, r1) => (Resolved (null js), r1)
    | (CommandError, r1) => (Resolved (null js), r1)
    end.

(** [typeof value === 'string' ? value : JSON.stringify(value)] *)
Definition serialize (value : V) : string :=
  match as_string js value with
  | Some s => s
  | None => stringify js value
  end.

Definition set (faults : Faults) (c : CacheClient) (r : Redis) (now : Z)
    (key : string) (value : V) (ttl : option Z) : completion bool * Redis :=
  if unavailable c then (Resolved false, r)
  else
    let serialized := serialize value in
    let sent :=
      match ttl with
      | Some seconds =>
          if seconds =? 0 then redis_set faults r key serialized
          else redis_setex faults r now key seconds serialized
      | None => redis_set faults r key serialized
      end in
    match sent with
    | (Reply _, r1) => (Resolved true, r1)
    | (CommandError, r1) => (Resolved false, r1)
    end.

Definition set_at (faults : Faults) (c : CacheClient) (r : Redis) (now : Z)
    (key : string) (value : V) (t : Ttl) : completion bool * Redis :=
  match t with
  | Seconds n => set faults c r now key value (Some n)
  | Member =>
      if unavailable c then (Resolved false, r)
      else (Resolved false, {| store := store r; commands := S (commands r) |})
  | Imprecise =>
      if unavailable c then (Resolved false, r) else (Unmodelled, r)
  end.

Record Fetched (S : Type) : Type := mkFetched {
  fetched : completion V;
  fetch_world : S;
  fetch_took : Z
}.
Arguments mkFetched {S} _ _ _.
Arguments fetched {S} _.
Arguments fetch_world {S} _.
Arguments fetch_took {S} _.

Record Result : Type := mkResult {
  data : V;
  cached : bool
}.

Definition getOrSet {S : Type} (env : string -> option string) (faults : Faults)
    (c : CacheClient) (r : Redis) (now : Z)
    (key : string) (fetchFn : S -> Fetched S) (dataType : string) (s : S)
  : completion Result * Redis * S :=
  match get faults c r now key with
  | (Resolved hit, r1) =>
      if not_null js hit then (Resolved {| data := hit; cached := true |}, r1, s)
      else
        let f := fetchFn s in
        match fetched f with
        | Resolved d =>
            match set_at faults c r1 (now + fetch_took f) key d (ttl_for env dataType) with
            | (Resolved _, r2) =>
                (Resolved {| data := d; cached := false |}, r2, fetch_world f)
            | (Rejected e, r2) => (Rejected e, r2, fetch_world f)
            | (Unmodelled, r2) => (Unmodelled, r2, fetch_world f)
            end
        | Rejected e => (Rejected e, r1, fetch_world f)
        | Unmodelled => (Unmodelled, r1, fetch_world f)
        end
  | (Rejected e, r1) => (Rejected e, r1, s)
  | (Unmodelled, r1) => (Unmodelled, r1, s)
  end.

(** A fetch function with a call counter, to count its invocations. *)
Definition counted {S : Type} (fetchFn : S -> Fetched S) (ns : nat * S)
  : Fetched (nat * S) :=
  let f := fetchFn (snd ns) in
  {| fetched := fetched f;
     fetch_world := (Datatypes.S (fst ns), fetch_world f);
     fetch_took := fetch_took f |}.

(** *** [cacheMiddleware] ([middleware/cacheMiddleware.js]) *)

Record Response : Type := mkResponse {
  statusCode : Z;
  x_cache : option string;
  body : V
}.

(** A handler that answers once with [res.status(code).json(data)]. *)
Record Handled (St : Type) : Type := mkHandled {
  sent_status : Z;
  sent_body : V;
  handler_world : St;
  handler_took : Z
}.
Arguments mkHandled {St} _ _ _ _.
Arguments sent_status {St} _.
Arguments sent_body {St} _.
Arguments handler_world {St} _.
Arguments handler_took {St} _.

Definition pass {St : Type} (next : St -> Handled St) (r : Redis) (s : St)
  : completion Response * Redis * St :=
  let h := next s in
  (Resolved {| statusCode := sent_status h; x_cache := None; body := sent_body h |},
   r, handler_world h).

Definition cacheMiddleware {St : Type} (env : string -> option string)
    (faults : Faults) (c : CacheClient) (dataType : string) (o : Middleware.Options)
    (req : Middleware.Request) (next : St -> Handled St) (r : Redis) (now : Z) (s : St)
  : completion Response * Redis * St :=
  if negb (Middleware.enabled o) then pass next r s
  else if negb (String.eqb (Middleware.req_method req) "GET") then pass next r s
  else if match Middleware.cache_control req with
          | Some h => String.eqb h "no-cache"
          | None => false
          end
  then pass next r s
  else
    let cacheKey := Middleware.cacheKey_of dataType o req in
    match get faults c r now cacheKey with
    | (Resolved hit, r1) =>
        if not_null js hit
        then (Resolved {| statusCode := 200; x_cache := Some "HIT"; body := hit |},
              r1, s)
        else
          let h := next s in
          match set_at faults c r1 (now + handler_took h) cacheKey (sent_body h)
                  (Middleware.cacheTtl env dataType o) with
          | (Unmodelled, r2) => (Unmodelled, r2, handler_world h)
          | (_, r2) =>
              (Resolved {| statusCode := sent_status h; x_cache := Some "MISS";
                           body := sent_body h |},
               r2, handler_world h)
          end
    | (Rejected _, r1) => pass next r1 s
    | (Unmodelled, r1) => (Unmodelled, r1, s)
    end.

(** A handler with a call counter. *)
Definition counting {St : Type} (next : St -> Handled St) (ns : nat * St)
  : Handled (nat * St) :=
  let h := next (snd ns) in
  {| sent_status := sent_status h; sent_body := sent_body h;
     handler_world := (Datatypes.S (fst ns), handler_world h);
     handler_took := handler_took h |}.

End AnyRuntime.

Arguments mkResponse {V} _ _ _.
Arguments statusCode {V} _.
Arguments x_cache {V} _.
Arguments body {V} _.
Arguments mkHandled {V St} _ _ _ _.
Arguments sent_status {V St} _.
Arguments sent_body {V St} _.
Arguments handler_world {V St} _.
Arguments handler_took {V St} _.
Arguments mkFetched {V S} _ _ _.
Arguments fetched {V S} _.
Arguments fetch_world {V S} _.
Arguments fetch_took {V S} _.
Arguments mkResult {V} _ _.
Arguments data {V} _.
Arguments cached {V} _.

(** A fetch function and a result of [Cache], for the JSON data. *)
Definition of_fetched {S : Type} (f : Cache.Fetched S) : Fetched (V := jsval) S :=
  {| fetched := Cache.fetched f;
     fetch_world := Cache.fetch_world f;
     fetch_took := Cache.fetch_took f |}.

Definition of_result (x : Cache.Result) : Result (V := jsval) :=
  {| data := Cache.data x; cached := Cache.cached x |}.

Definition of_handled {St : Type} (h : Middleware.Handled St) : Handled (V := jsval) St :=
  {| sent_status := Middleware.sent_status h;
     sent_body := Middleware.sent_body h;
     handler_world := Middleware.handler_world h;
     handler_took := Middleware.handler_took h |}.

Definition of_response (x : Middleware.Response) : Response (V := jsval) :=
  {| statusCode := Middleware.statusCode x;
     x_cache := Middleware.x_cache x;
     body := Middleware.body x |}.

End Codec.

(** ** A call among other calls ([clients/espn-client.js])

    The breaker is one object of the module, shared by every request in
    flight, and [_fetchWithRetry] is suspended at each [await]: while the
    answer is on its way, between the response interceptor and the
    continuation of the call, and during the pause before a retry.
    [others k] is what the other requests do to the breaker during the
    [k]-th suspension of the call. *)

Module Overlap.
Import Espn.

(** What the other requests do during one suspension: they write the
    breaker and issue requests of their own. *)
Record Interference : Type := mkInterference {
  on_breaker : CircuitBreaker -> CircuitBreaker;
  requests : nat
}.

Definition Others : Type := nat -> Interference.

Definition alone : Others := fun _ => {| on_breaker := fun cb => cb; requests := 0 |}.

Definition disturbed (others : Others) (k : nat) (w : World) : World :=
  {| now := now w;
     sent := (sent w + requests (others k))%nat;
     breaker := on_breaker (others k) (breaker w) |}.

Fixpoint _fetchWithRetry (others : Others) (c : ESPNClient) (net : Network)
    (config : RequestConfig) (retries k : nat) (w : World)
  : (FetchError + jsval) * World :=
  let '(open, w0) := _isCircuitOpen w in
  if open then (inl CircuitOpen, w0)
  else
    let w1 := disturbed others k (answered net config w0) in
    match outcome (net (sent w0) config) with
    | inr data => (inr data, reset_failureCount (disturbed others (k + 1) w1))
    | inl e =>
        let w2 := disturbed others (k + 1) (_handleError e w1) in
        match retries with
        | S r =>
            if _isRetryable e
            then _fetchWithRetry others c net config r (k + 3)
                   (disturbed others (k + 2) (_delay (retryDelay c) w2))
            else (inl (Upstream e), w2)
        | O => (inl (Upstream e), w2)
        end
    end.

(** [healthCheck] among other requests: it is suspended once more, while
    it awaits the call. *)
Definition healthCheck (others : Others) (c : ESPNClient) (net : Network)
    (w : World) : Health * World :=
  let '(open, w0) := _isCircuitOpen w in
  if open then
    ({| status := "unhealthy";
        health_message := Some "Circuit breaker is open";
        health_latency := None;
        health_lastFailureTime := Some (lastFailureTime (breaker w0));
        circuitBreakerOpen := None |}, w0)
  else
    let startTime := now w0 in
    match _fetchWithRetry others c net health_request (maxRetries c) 1 w0 with
    | (inr _, w1) =>
        let w2 := disturbed others 0 w1 in
        ({| status := "healthy";
            health_message := None;
            health_latency := Some (now w2 - startTime);
            health_lastFailureTime := None;
            circuitBreakerOpen := Some false |}, w2)
    | (inl err, w1) =>
        let w2 := disturbed others 0 w1 in
        ({| status := "unhealthy";
            health_message := Some (error_message err);
            health_latency := None;
            health_lastFailureTime := None;
            circuitBreakerOpen := Some (isOpen (breaker w2)) |}, w2)
    end.

(** What every write to the breaker keeps true: the counter is not
    negative, a closed breaker has not reached its threshold, and an open
    one remembers its last failure. *)
Definition sound (cb : CircuitBreaker) : bool :=
  (0 <=? failureCount cb)
  && (isOpen cb || (failureCount cb <? threshold cb))
  && (negb (isOpen cb)
      || match lastFailureTime cb with Some _ => true | None => false end).

(** [cb'] is sound and has the threshold and the cooldown of [cb]. *)
Definition kept (cb cb' : CircuitBreaker) : Prop :=
  sound cb' = true
  /\ threshold cb' = threshold cb
  /\ resetTimeout cb' = resetTimeout cb.

(** The other requests write the breaker only as the client does: each of
    its writes keeps a breaker with a positive threshold sound. *)
Definition careful (others : Others) : Prop :=
  forall k cb,
    0 < threshold cb -> sound cb = true -> kept cb (on_breaker (others k) cb).

(** The writes of the client: the gate looking at the breaker, the
    interceptor counting a failure, and the reset after a success, each at
    the time of the clock. *)
Inductive Write : Type :=
| Gate (clock : Z)
| Failure (e : AxiosError) (clock : Z)
| Success.

Definition write (x : Write) (cb : CircuitBreaker) : CircuitBreaker :=
  match x with
  | Gate t => breaker (snd (_isCircuitOpen {| now := t; sent := 0; breaker := cb |}))
  | Failure e t => breaker (_handleError e {| now := t; sent := 0; breaker := cb |})
  | Success => breaker (reset_failureCount {| now := 0; sent := 0; breaker := cb |})
  end.

(** Other requests that do [ws k] to the breaker and issue [issued k]
    requests during the [k]-th suspension of the call. *)
Definition of_writes (ws : nat -> list Write) (issued : nat -> nat) : Others :=
  fun k =>
    {| on_breaker := fun cb => fold_left (fun b x => write x b) (ws k) cb;
       requests := issued k |}.

End Overlap.

(** ** The data calls of the scores client ([clients/espn-client.js])

    [getScoreboard], [getTeam], [getPlayer], [getGame] and [getNews] up to
    the data they hand to their normaliser. *)

Module Client.
Import Espn.

Inductive Call : Type :=
| GetScoreboard (league : string) (limit dates : option string)
| GetTeam (league teamId : string)
| GetPlayer (league playerId : string)
| GetGame (league gameId : string)
| GetNews (league limit : string).

Definition league_of (call : Call) : string :=
  match call with
  | GetScoreboard league _ _ => league
  | GetTeam league _ => league
  | GetPlayer league _ => league
  | GetGame league _ => league
  | GetNews league _ => league
  end.

(** [if (options.x) params.push(`x=${options.x}`)] *)
Definition param (name : string) (v : option string) : list string :=
  match v with
  | Some x => if String.eqb x "" then [] else [(name ++ "=" ++ x)%string]
  | None => []
  end.

(** The URL after [`/${leaguePath}`]. *)
Definition endpoint (call : Call) : string :=
  match call with
  | GetScoreboard _ limit dates =>
      match (param "limit" limit ++ param "dates" dates)%list with
      | [] => "/scoreboard"
      | params => ("/scoreboard?" ++ Js.join_with "&" params)%string
      end
  | GetTeam _ teamId => ("/teams/" ++ teamId)%string
  | GetPlayer _ playerId => ("/athletes/" ++ playerId)%string
  | GetGame _ gameId => ("/scoreboard/gameId/" ++ gameId)%string
  | GetNews _ limit => ("/news?limit=" ++ limit)%string
  end.

Inductive CallError : Type :=
| InvalidLeague (message : string)
| Fetch (e : FetchError).

Definition request_to (leaguePath : string) (call : Call) : RequestConfig :=
  {| method := "GET"; url := ("/" ++ leaguePath ++ endpoint call)%string |}.

Definition through_gate (c : ESPNClient) (net : Network) (config : RequestConfig)
    (w : World) : (CallError + jsval) * World :=
  match _fetchWithRetry c net config (maxRetries c) w with
  | (inl e, w1) => (inl (Fetch e), w1)
  | (inr data, w1) => (inr data, w1)
  end.

Definition fetch_for (c : ESPNClient) (net : Network) (call : Call) (w : World)
  : (CallError + jsval) * World :=
  match League._getLeaguePath (league_of call) with
  | League.InvalidLeague message => (inl (InvalidLeague message), w)
  | League.Path leaguePath => through_gate c net (request_to leaguePath call) w
  | League.NoPath => through_gate c net (request_to "undefined" call) w
  end.

(** *** [getStandings], which goes to the standings scraper
    ([clients/standings-scraper.js]) *)

Definition STANDINGS_URLS : list (string * string) :=
  [ ("nfl", "https://www.espn.com/nfl/standings");
    ("nba", "https://www.espn.com/nba/standings");
    ("mlb", "https://www.espn.com/mlb/standings");
    ("nhl", "https://www.espn.com/nhl/standings");
    ("ncaaf", "https://www.espn.com/college-football/standings");
    ("ncaab", "https://www.espn.com/mens-college-basketball/standings") ].

Fixpoint url_entry (league : string) (urls : list (string * string)) : option string :=
  match urls with
  | [] => None
  | (k, u) :: rest => if String.eqb league k then Some u else url_entry league rest
  end.

(** How [getStandings] starts: [_getStandingsUrl] throws for a league it
    has no URL for; [fetch] refuses an inherited member, which is no URL;
    or the page at the URL is requested. *)
Inductive Started : Type :=
| NoUrl (message : string)
| NotAUrl
| Requested (url : string).

Definition page_request (url : string) : RequestConfig :=
  {| method := "GET"; url := url |}.

(** [getStandings(league)], that is [scrapeStandings(league)] with the
    default scraper, up to the arrival of the answer to its [fetch(url)].
    Neither function reads or writes the breaker. *)
Definition getStandings (net : Network) (league : string) (w : World)
  : Started * World :=
  match url_entry league STANDINGS_URLS with
  | Some url => (Requested url, answered net (page_request url) w)
  | None =>
      if Js.inherited league then (NotAUrl, w)
      else (NoUrl ("Invalid league: " ++ league ++ ". Must be one of: "
                   ++ Js.join_with ", " (List.map fst STANDINGS_URLS))%string, w)
  end.

End Client.

(** ** The order in which [app.js] registers its layers

    An error passed to [next] goes to the first error-handling middleware
    registered after the layer it comes from; when there is none, Express
    answers itself, with an HTML page. *)

Module Stack.

Inductive Layer : Type :=
| Use (what : string)
| Route (method path : string)
| OnError.

Definition app : list Layer :=
  [ Use "express.json";
    Use "express.urlencoded";
    Use "request logging";
    Route "GET" "/health";
    OnError;
    Route "GET" "/api/scores/:league";
    Route "GET" "/api/odds/:league";
    Route "GET" "/api/standings/:league";
    Route "GET" "/api/news/:league";
    Route "GET" "/api/teams/:league";
    Route "GET" "/api/team/:league/:teamId";
    Route "GET" "/api/player/:league/:playerId";
    Route "GET" "/api/odds/game/:gameId";
    Route "GET" "/api/odds/best/:league";
    Route "GET" "/api/sportsbooks";
    Route "GET" "/api/cache/stats";
    Route "DELETE" "/api/cache/clear/:pattern";
    Use "404" ].

Definition is_OnError (l : Layer) : bool :=
  match l with OnError => true | _ => false end.

Inductive Answer : Type :=
| FromHandler (b : App.ErrorBody)
| FromExpress.

(** [next(err)] called in the layer at position [i] of [layers]. *)
Definition on_error (layers : list Layer) (node_env : option string) (i : nat)
    (err_message : string) : Answer :=
  if existsb is_OnError (skipn (S i) layers)
  then FromHandler (App.errorHandler node_env err_message)
  else FromExpress.

End Stack.

(** ** Plain texts *)

Module Keys.

(** Every character is one that [sanitize] keeps. *)
Definition plain (s : string) : bool :=
  forallb Cache.keep_char (list_ascii_of_string s).

End Keys.

(** ** More sample inputs *)

Module Scenario.
Import Espn.

(** An upstream that answers 503 to the first two requests and then
    recovers. *)
Definition recovering : Network :=
  fun n _ =>
    if (n <? 2)%nat
    then {| latency := 20; outcome := inl (Sample.http_error 503) |}
    else {| latency := 20; outcome := inr (JObj [("events", JArr [])]) |}.

(** During every suspension of the call another request is answered
    503: the interceptor counts one more failure. *)
Definition failing_alongside : Overlap.Others :=
  Overlap.of_writes (fun _ => [Overlap.Failure (Sample.http_error 503) 9010])
    (fun _ => 1%nat).

(** A matcher that reads its pattern as a prefix. *)
Definition prefix_glob : string -> string -> bool :=
  fun pattern key => String.prefix pattern key.

(** A fetch function that rejects after 20 ms, as the gate of the scores
    client does. *)
Definition fetch_fails : unit -> Cache.Fetched unit :=
  fun _ => Cache.mkFetched (Rejected (Espn.error_message Espn.CircuitOpen)) tt 20.

(** The cache is not connected and every query of the store fails. *)
Definition store_down : Repo.Services :=
  {| Repo.cacheClient := Sample.disconnected; Repo.redis_faults := Sample.no_fault;
     Repo.db_faults := Sample.every_command_fails; Repo.clock := 1000 |}.

(** The row of a team as the store keeps it. *)
Definition celtics_fields : list (string * jsval) :=
  [ ("id", JNum 1); ("espn_id", JStr "2"); ("sport", JStr "nba");
    ("league", JStr "NBA"); ("name", JStr "Boston Celtics");
    ("abbreviation", JStr "BOS"); ("location", JNull); ("logo_url", JNull);
    ("color", JNull); ("alternate_color", JNull) ].

Definition celtics : jsval := JObj celtics_fields.

(** Nothing cached; the home team of the sample game is in the store. *)
Definition celtics_stored : Repo.World :=
  {| Repo.redis := Sample.empty_redis;
     Repo.db := {| Repo.teams := {| Repo.rows := [celtics]; Repo.next_id := 2 |};
                   Repo.games := {| Repo.rows := []; Repo.next_id := 1 |};
                   Repo.history := [] |} |}.

(** An [upsert] that answers with one row per record: the records
    themselves. *)
Definition echo : list jsval -> string -> unit -> list jsval * unit :=
  fun chunk _ s => (chunk, s).

(** GET /api/scores/xfl: a league the route does not know. *)
Definition scores_request : Middleware.Request :=
  {| Middleware.req_method := "GET"; Middleware.cache_control := None;
     Middleware.req_path := "/api/scores/xfl";
     Middleware.param_league := Some "xfl"; Middleware.query_league := None;
     Middleware.query_string := "" |}.

(** What the scores route answers then: 400 with the list of leagues. *)
Definition invalid_league_body : jsval :=
  JObj [ ("error", JStr "Invalid league");
         ("validLeagues", JArr (List.map JStr League.validLeagues)) ].

Definition invalid_league_answer : unit -> Middleware.Handled unit :=
  fun _ => Middleware.mkHandled 400 invalid_league_body tt 1.

Definition nets_fields : list (string * jsval) :=
  [ ("id", JNum 2); ("espn_id", JStr "17"); ("sport", JStr "nba");
    ("league", JStr "NBA"); ("name", JStr "Brooklyn Nets");
    ("abbreviation", JStr "BKN"); ("location", JNull); ("logo_url", JNull);
    ("color", JNull); ("alternate_color", JNull) ].

(** Nothing cached; both teams of the sample game are in the store. *)
Definition both_stored : Repo.World :=
  {| Repo.redis := Sample.empty_redis;
     Repo.db := {| Repo.teams := {| Repo.rows := [celtics; JObj nets_fields];
                                    Repo.next_id := 3 |};
                   Repo.games := {| Repo.rows := []; Repo.next_id := 1 |};
                   Repo.history := [] |} |}.


End Scenario.

(** * Properties of the upstream client *)

Section BreakerGate.
Import Espn.

Variables (c : ESPNClient) (net : Network) (config : RequestConfig).

Lemma isCircuitOpen_closed (w : World) :
  isOpen (breaker w) = false -> _isCircuitOpen w = (false, w).
Proof. intros H. unfold _isCircuitOpen. now rewrite H. Qed.

Lemma isCircuitOpen_within_cooldown (w : World) :
  isOpen (breaker w) = true ->
  timeSinceLastFailure w <= resetTimeout (breaker w) ->
  _isCircuitOpen w = (true, w).
Proof.
  intros Hopen Hcool. unfold _isCircuitOpen. rewrite Hopen.
  destruct (Z.ltb_spec (resetTimeout (breaker w)) (timeSinceLastFailure w)); [lia | reflexivity].
Qed.

Lemma isCircuitOpen_after_cooldown (w : World) :
  isOpen (breaker w) = true ->
  resetTimeout (breaker w) < timeSinceLastFailure w ->
  _isCircuitOpen w =
    (false,
     with_breaker w
       {| isOpen := false; failureCount := 0;
          lastFailureTime := lastFailureTime (breaker w);
          threshold := threshold (breaker w);
          resetTimeout := resetTimeout (breaker w) |}).
Proof.
  intros Hopen Hcool. unfold _isCircuitOpen. rewrite Hopen.
  destruct (Z.ltb_spec (resetTimeout (breaker w)) (timeSinceLastFailure w)); [reflexivity | lia].
Qed.

(** The gate never touches the clock or the request counter, and a
    second look at the same instant changes nothing more. *)
Lemma isCircuitOpen_frame (w : World) :
  now (snd (_isCircuitOpen w)) = now w /\ sent (snd (_isCircuitOpen w)) = sent w.
Proof.
  unfold _isCircuitOpen.
  destruct (isOpen (breaker w)); [|auto].
  destruct (resetTimeout (breaker w) <? timeSinceLastFailure w); auto.
Qed.

Lemma isCircuitOpen_idempotent (w : World) :
  fst (_isCircuitOpen w) = false ->
  _isCircuitOpen (snd (_isCircuitOpen w)) = (false, snd (_isCircuitOpen w)).
Proof.
  unfold _isCircuitOpen.
  destruct (isOpen (breaker w)) eqn:Hopen.
  - destruct (resetTimeout (breaker w) <? timeSinceLastFailure w); [reflexivity | discriminate].
  - intros _. cbn. now rewrite Hopen.
Qed.

(** Unfolding of one round of [_fetchWithRetry] once the gate let the call
    through. *)
Lemma fetchWithRetry_through (retries : nat) (w w0 : World) :
  _isCircuitOpen w = (false, w0) ->
  _fetchWithRetry c net config retries w =
    match client_request net config w0 with
    | (inr data, w1) => (inr data, reset_failureCount w1)
    | (inl e, w1) =>
        match retries with
        | S r =>
            if _isRetryable e
            then _fetchWithRetry c net config r (_delay (retryDelay c) w1)
            else (inl (Upstream e), w1)
        | O => (inl (Upstream e), w1)
        end
    end.
Proof. intros H. destruct retries; cbn [_fetchWithRetry]; now rewrite H. Qed.

Lemma client_request_sent (w : World) :
  sent (snd (client_request net config w)) = S (sent w).
Proof.
  unfold client_request.
  destruct (outcome (net (sent w) config)) as [e|d]; [|reflexivity].
  unfold _handleError. now destruct (response e).
Qed.

Lemma fetchWithRetry_success (retries : nat) (w w0 : World) (body : jsval) :
  _isCircuitOpen w = (false, w0) ->
  outcome (net (sent w0) config) = inr body ->
  _fetchWithRetry c net config retries w
  = (inr body, reset_failureCount (answered net config w0)).
Proof.
  intros Hgate Hbody. rewrite (fetchWithRetry_through retries w w0 Hgate).
  unfold client_request. now rewrite Hbody.
Qed.

Lemma fetchWithRetry_gives_up (retries : nat) (w w0 : World) (e : AxiosError) :
  _isCircuitOpen w = (false, w0) ->
  outcome (net (sent w0) config) = inl e ->
  retries = O \/ _isRetryable e = false ->
  _fetchWithRetry c net config retries w
  = (inl (Upstream e), _handleError e (answered net config w0)).
Proof.
  intros Hgate He Hstop. rewrite (fetchWithRetry_through retries w w0 Hgate).
  unfold client_request. rewrite He.
  destruct Hstop as [-> | Hno]; [reflexivity|].
  destruct retries; [reflexivity|]. now rewrite Hno.
Qed.

Lemma fetchWithRetry_retries (r : nat) (w w0 : World) (e : AxiosError) :
  _isCircuitOpen w = (false, w0) ->
  outcome (net (sent w0) config) = inl e ->
  _isRetryable e = true ->
  _fetchWithRetry c net config (S r) w
  = _fetchWithRetry c net config r
      (_delay (retryDelay c) (_handleError e (answered net config w0))).
Proof.
  intros Hgate He Hyes. rewrite (fetchWithRetry_through (S r) w w0 Hgate).
  unfold client_request. rewrite He. now rewrite Hyes.
Qed.

(** A call issues at most one request per attempt it is allowed. *)
Lemma fetchWithRetry_requests_bound (retries : nat) :
  forall w,
    (sent w <= sent (snd (_fetchWithRetry c net config retries w))
              <= sent w + retries + 1)%nat.
Proof.
  induction retries as [|r IH]; intros w.
  - cbn [_fetchWithRetry].
    pose proof (isCircuitOpen_frame w) as [_ Hs].
    destruct (_isCircuitOpen w) as [[|] w0]; cbn in Hs |- *; [lia|].
    pose proof (client_request_sent w0) as Hr.
    destruct (client_request net config w0) as [[e|d] w1]; cbn in Hr |- *; lia.
  - cbn [_fetchWithRetry].
    pose proof (isCircuitOpen_frame w) as [_ Hs].
    destruct (_isCircuitOpen w) as [[|] w0]; cbn in Hs |- *; [lia|].
    pose proof (client_request_sent w0) as Hr.
    destruct (client_request net config w0) as [[e|d] w1]; cbn in Hr |- *; [|lia].
    destruct (_isRetryable e); cbn; [|lia].
    specialize (IH (_delay (retryDelay c) w1)). cbn in IH. lia.
Qed.

End BreakerGate.

Section Breaker.
Import Espn.

(** C1, as stated, fails: [getStandings] is a call through the client
    that does not pass the gate.  On a breaker that is open, 15 s after the
    last failure, it requests the standings page: the number of requests
    issued goes from 7 to 8, and the breaker is as it was. *)
Lemma getStandings_ignores_the_breaker :
  isOpen (breaker Sample.gated) = true
  /\ timeSinceLastFailure Sample.gated <= resetTimeout (breaker Sample.gated)
  /\ (let '(started, w1) :=
        Client.getStandings (Sample.answering (JStr "<html>")) "nba" Sample.gated in
      started = Client.Requested "https://www.espn.com/nba/standings"
      /\ sent Sample.gated = 7%nat
      /\ sent w1 = 8%nat
      /\ breaker w1 = breaker Sample.gated).
Proof. vm_compute. repeat split; try reflexivity. discriminate. Qed.

(** C1, amended.  While the breaker is open and the time since the last
    recorded failure has not exceeded the reset cooldown, every call
    through [_fetchWithRetry] fails at once with the circuit-open error:
    the world is returned as it was, so no request has been issued.  This
    is so of each data call that goes through it, [getScoreboard],
    [getTeam], [getPlayer], [getGame] and [getNews], which fails with the
    circuit-open error, or, for a league code that [_getLeaguePath]
    rejects, with the invalid-league error thrown before the gate; and of
    [healthCheck], which reports the open breaker.  None of them issues a
    request.  [getStandings] is left out: it does not pass the gate. *)
Theorem open_breaker_fails_fast :
  forall (c : ESPNClient) (net : Network) (w : World),
    isOpen (breaker w) = true ->
    timeSinceLastFailure w <= resetTimeout (breaker w) ->
    (forall (config : RequestConfig) (retries : nat),
       _fetchWithRetry c net config retries w = (inl CircuitOpen, w)
       /\ sent (snd (_fetchWithRetry c net config retries w)) = sent w)
    /\ (forall call : Client.Call,
          snd (Client.fetch_for c net call w) = w
          /\ match League._getLeaguePath (Client.league_of call) with
             | League.InvalidLeague message =>
                 fst (Client.fetch_for c net call w)
                 = inl (Client.InvalidLeague message)
             | _ => fst (Client.fetch_for c net call w) = inl (Client.Fetch CircuitOpen)
             end)
    /\ (snd (healthCheck c net w) = w
        /\ status (fst (healthCheck c net w)) = "unhealthy"
        /\ health_message (fst (healthCheck c net w)) = Some "Circuit breaker is open").
Proof.
  intros c net w Hopen Hcool.
  assert (E : forall config retries,
             _fetchWithRetry c net config retries w = (inl CircuitOpen, w)).
  { intros config retries. destruct retries; cbn [_fetchWithRetry];
      now rewrite (isCircuitOpen_within_cooldown w Hopen Hcool). }
  split; [|split].
  - intros config retries. now rewrite E.
  - intros call. unfold Client.fetch_for, Client.through_gate.
    destruct (League._getLeaguePath (Client.league_of call)) as [p| |message];
      rewrite ?E; split; reflexivity.
  - unfold healthCheck. rewrite (isCircuitOpen_within_cooldown w Hopen Hcool).
    repeat split; reflexivity.
Qed.

Lemma open_breaker_fails_fast_witness :
  _fetchWithRetry espnClient (Sample.answering JNull) Sample.scoreboard_request 3
    Sample.gated = (inl CircuitOpen, Sample.gated)
  /\ Client.fetch_for espnClient (Sample.answering JNull)
       (Client.GetScoreboard "nba" None (Some "20240117")) Sample.gated
     = (inl (Client.Fetch CircuitOpen), Sample.gated)
  /\ Client.fetch_for espnClient (Sample.answering JNull)
       (Client.GetNews "xfl" "25") Sample.gated
     = (inl (Client.InvalidLeague
               "Invalid league: xfl. Supported: nfl, nba, mlb, nhl, ncaaf, ncaab"),
        Sample.gated).
Proof.
  assert (Hcool : timeSinceLastFailure Sample.gated <= resetTimeout (breaker Sample.gated))
    by (vm_compute; discriminate).
  destruct (open_breaker_fails_fast espnClient (Sample.answering JNull) Sample.gated
              eq_refl Hcool) as (Hfetch & Hcalls & _).
  split; [exact (proj1 (Hfetch Sample.scoreboard_request 3%nat))|]. split.
  - destruct (Hcalls (Client.GetScoreboard "nba" None (Some "20240117"))) as (Hw & Hres).
    cbn in Hres.
    destruct (Client.fetch_for espnClient (Sample.answering JNull)
                (Client.GetScoreboard "nba" None (Some "20240117")) Sample.gated)
      as [res w1].
    cbn [fst snd] in Hw, Hres. now rewrite Hw, Hres.
  - destruct (Hcalls (Client.GetNews "xfl" "25")) as (Hw & Hres).
    cbn in Hres.
    destruct (Client.fetch_for espnClient (Sample.answering JNull)
                (Client.GetNews "xfl" "25") Sample.gated) as [res w1].
    cbn [fst snd] in Hw, Hres. now rewrite Hw, Hres.
Defined.

(** C2, as stated, fails: after the cooldown a failed call does not
    re-open the breaker.  The breaker below was open with 5 failures; the
    call made 35 s later gets HTTP 404, and leaves the breaker closed
    with a counter of 1; the next call goes out to the network too. *)
Lemma failed_probe_leaves_breaker_closed :
  isOpen (breaker Sample.cooled_down) = true
  /\ resetTimeout (breaker Sample.cooled_down) < timeSinceLastFailure Sample.cooled_down
  /\ (let '(res, w1) :=
        _fetchWithRetry espnClient (Sample.failing (Sample.http_error 404))
          Sample.scoreboard_request (maxRetries espnClient) Sample.cooled_down in
      res = inl (Upstream (Sample.http_error 404))
      /\ isOpen (breaker w1) = false
      /\ failureCount (breaker w1) = 1
      /\ sent (snd (_fetchWithRetry espnClient (Sample.failing (Sample.http_error 404))
                      Sample.scoreboard_request (maxRetries espnClient) w1))
         = S (sent w1)).
Proof. vm_compute. repeat split; reflexivity. Qed.

(** C2, amended.  When a call arrives on an open breaker after the
    cooldown has elapsed, the gate closes the breaker fully (flag cleared,
    counter 0) before the call, and the call is let through: there is no
    half-open state.  If the first attempt succeeds the breaker stays
    closed with counter 0.  If it fails with an HTTP error response and is
    not retried, the counter is 1, the last-failure time is the time of
    that failure, and the breaker is open again only if the threshold is
    at most 1.  If it fails without a response and is not retried, the
    breaker stays closed with counter 0. *)
Theorem cooldown_elapsed_closes_breaker :
  forall (c : ESPNClient) (net : Network) (config : RequestConfig)
         (retries : nat) (w : World),
    isOpen (breaker w) = true ->
    resetTimeout (breaker w) < timeSinceLastFailure w ->
    let w0 := snd (_isCircuitOpen w) in
    let a := net (sent w) config in
    let w' := snd (_fetchWithRetry c net config retries w) in
    fst (_isCircuitOpen w) = false
    /\ isOpen (breaker w0) = false
    /\ failureCount (breaker w0) = 0
    /\ (sent w < sent w')%nat
    /\ (forall body, outcome a = inr body ->
          fst (_fetchWithRetry c net config retries w) = inr body
          /\ isOpen (breaker w') = false
          /\ failureCount (breaker w') = 0
          /\ sent w' = S (sent w))
    /\ (forall e, outcome a = inl e ->
          retries = O \/ _isRetryable e = false ->
          fst (_fetchWithRetry c net config retries w) = inl (Upstream e)
          /\ sent w' = S (sent w)
          /\ match response e with
             | Some _ =>
                 failureCount (breaker w') = 1
                 /\ lastFailureTime (breaker w') = Some (now w + latency a)
                 /\ isOpen (breaker w') = (threshold (breaker w) <=? 1)
             | None =>
                 failureCount (breaker w') = 0
                 /\ lastFailureTime (breaker w') = lastFailureTime (breaker w)
                 /\ isOpen (breaker w') = false
             end).
Proof.
  intros c net config retries w Hopen Hcool.
  pose proof (isCircuitOpen_after_cooldown w Hopen Hcool) as Hgate.
  cbn zeta. rewrite Hgate. cbn [fst snd].
  set (w0 := with_breaker w _) in *.
  split; [reflexivity|]. split; [reflexivity|]. split; [reflexivity|].
  split.
  { rewrite (fetchWithRetry_through c net config retries w _ Hgate).
    pose proof (client_request_sent net config w0) as Hr.
    destruct (client_request net config w0) as [[e|d] w1]; cbn in Hr |- *.
    - destruct retries as [|r]; [cbn; lia|].
      destruct (_isRetryable e); [|cbn; lia].
      pose proof (fetchWithRetry_requests_bound c net config r (_delay (retryDelay c) w1)) as Hb.
      cbn in Hb. lia.
    - lia. }
  split.
  - intros body Hbody.
    rewrite (fetchWithRetry_success c net config retries w w0 body Hgate Hbody).
    cbn. repeat split; reflexivity.
  - intros e He Hstop.
    rewrite (fetchWithRetry_gives_up c net config retries w w0 e Hgate He Hstop).
    cbn [fst snd]. unfold _handleError.
    destruct (response e); cbn; [|repeat split; reflexivity].
    change (0 + 1) with 1.
    destruct (threshold (breaker w) <=? 1); repeat split; reflexivity.
Qed.

Lemma cooldown_elapsed_closes_breaker_witness :
  let w := Sample.cooled_down in
  let net := Sample.failing (Sample.http_error 404) in
  let w' := snd (_fetchWithRetry espnClient net Sample.scoreboard_request 3 w) in
  fst (_isCircuitOpen w) = false /\ failureCount (breaker w') = 1.
Proof.
  pose proof (cooldown_elapsed_closes_breaker espnClient
                (Sample.failing (Sample.http_error 404))
                Sample.scoreboard_request 3 Sample.cooled_down
                eq_refl eq_refl) as H.
  cbn zeta in H. destruct H as (Hgate & _ & _ & _ & _ & Hfail).
  split; [exact Hgate|].
  destruct (Hfail (Sample.http_error 404) eq_refl (or_intror eq_refl))
    as (_ & _ & Hcount & _).
  exact Hcount.
Defined.

End Breaker.

Section Retry.
Import Espn Failure.

(** C3, as stated, fails on both counts.  With the default 3 retries a
    call answered by HTTP 503 every time adds 4 to the counter, one per
    attempt; a call that times out every time adds nothing and sets no
    timestamp. *)
Lemma counter_follows_attempts_not_calls :
  (let '(res, w1) :=
     _fetchWithRetry espnClient (Sample.failing (Sample.http_error 503))
       Sample.scoreboard_request (maxRetries espnClient) Sample.fresh in
   res = inl (Upstream (Sample.http_error 503))
   /\ sent w1 = 4%nat
   /\ failureCount (breaker Sample.fresh) = 0
   /\ failureCount (breaker w1) = 4)
  /\ (let '(res, w1) :=
        _fetchWithRetry espnClient (Sample.failing Sample.timeout_error)
          Sample.scoreboard_request (maxRetries espnClient) Sample.fresh in
      res = inl (Upstream Sample.timeout_error)
      /\ sent w1 = 4%nat
      /\ failureCount (breaker w1) = 0
      /\ lastFailureTime (breaker w1) = None).
Proof. vm_compute. repeat split; reflexivity. Qed.

(** A call that exhausts its retries on HTTP errors adds one to the
    counter for each of its [retries + 1] attempts (as long as the breaker
    stays below its threshold). *)
Lemma exhausted_call_counts_each_attempt
    (c : ESPNClient) (net : Network) (config : RequestConfig) (e : AxiosError) :
  (forall n, outcome (net n config) = inl e) ->
  response e <> None ->
  _isRetryable e = true ->
  forall (retries : nat) (w : World),
    isOpen (breaker w) = false ->
    failureCount (breaker w) + Z.of_nat retries + 1 < threshold (breaker w) ->
    fst (_fetchWithRetry c net config retries w) = inl (Upstream e)
    /\ failureCount (breaker (snd (_fetchWithRetry c net config retries w)))
       = failureCount (breaker w) + Z.of_nat retries + 1
    /\ sent (snd (_fetchWithRetry c net config retries w))
       = (sent w + retries + 1)%nat.
Proof.
  intros Hnet Hresp Hretry retries.
  induction retries as [|r IH]; intros w Hclosed Hbelow.
  - rewrite (fetchWithRetry_gives_up c net config 0 w w e
               (isCircuitOpen_closed w Hclosed) (Hnet _) (or_introl eq_refl)).
    cbn [fst snd]. unfold _handleError.
    destruct (response e); [|contradiction]. cbn. repeat split; lia.
  - rewrite (fetchWithRetry_retries c net config r w w e
               (isCircuitOpen_closed w Hclosed) (Hnet _) Hretry).
    set (w1 := _delay (retryDelay c) (_handleError e (answered net config w))).
    assert (H1 : isOpen (breaker w1) = false
                 /\ failureCount (breaker w1) = failureCount (breaker w) + 1
                 /\ threshold (breaker w1) = threshold (breaker w)
                 /\ sent w1 = S (sent w)).
    { unfold w1, _handleError. destruct (response e); [|contradiction]. cbn.
      destruct (Z.leb_spec (threshold (breaker w)) (failureCount (breaker w) + 1));
        [lia|]. auto. }
    destruct H1 as (Hopen1 & Hcount1 & Hthr1 & Hsent1).
    destruct (IH w1 Hopen1 ltac:(lia)) as (Hres & Hcount & Hsent).
    rewrite Hres, Hcount, Hsent. repeat split; lia.
Qed.

(** C3, amended.  The counter is incremented once for every attempt that
    fails with an HTTP error response (each retry counts), and the
    last-failure time is set at that attempt; when the counter reaches the
    threshold the breaker is open, below it the flag is unchanged.  An
    attempt that fails without a response leaves the breaker as it was. *)
Theorem failed_attempt_updates_breaker :
  forall (net : Network) (config : RequestConfig) (w : World) (e : AxiosError),
    outcome (net (sent w) config) = inl e ->
    let w' := snd (client_request net config w) in
    fst (client_request net config w) = inl e
    /\ match response e with
       | Some _ =>
           failureCount (breaker w') = failureCount (breaker w) + 1
           /\ lastFailureTime (breaker w')
              = Some (now w + latency (net (sent w) config))
           /\ isOpen (breaker w')
              = (threshold (breaker w) <=? failureCount (breaker w) + 1)
                || isOpen (breaker w)
       | None => breaker w' = breaker w
       end.
Proof.
  intros net config w e He. unfold client_request. rewrite He. cbn.
  split; [reflexivity|].
  unfold _handleError. destruct (response e); cbn; [|reflexivity].
  destruct (threshold (breaker w) <=? failureCount (breaker w) + 1);
    repeat split; reflexivity.
Qed.

Lemma failed_attempt_updates_breaker_witness :
  failureCount
    (breaker (snd (client_request (Sample.failing (Sample.http_error 503))
                     Sample.scoreboard_request Sample.strained))) = 5
  /\ isOpen
       (breaker (snd (client_request (Sample.failing (Sample.http_error 503))
                        Sample.scoreboard_request Sample.strained))) = true.
Proof.
  destruct (failed_attempt_updates_breaker (Sample.failing (Sample.http_error 503))
              Sample.scoreboard_request Sample.strained (Sample.http_error 503)
              eq_refl) as (_ & Hcount & _ & Hopen).
  split; [exact Hcount | exact Hopen].
Defined.

Lemma overload_is_retryable (e : AxiosError) :
  timed_out e || overload_status e = true ->
  _isRetryable e = true /\ Odds._shouldRetry e = true.
Proof.
  unfold timed_out, overload_status, _isRetryable, Odds._shouldRetry,
    Odds.retryableStatuses.
  destruct (code e) as [k|]; destruct (response e) as [st|]; cbn;
    intros H; split;
    repeat match goal with
           | |- context [?a || true] => rewrite (orb_true_r a)
           | H : context [?x =? ?y] |- _ => destruct (Z.eqb_spec x y); subst; cbn in *
           | |- context [String.eqb ?x ?y] => destruct (String.eqb x y); cbn in *
           end;
    try reflexivity; try discriminate.
Qed.

Lemma refusal_is_terminal (e : AxiosError) :
  refusal e = true ->
  _isRetryable e = false /\ Odds._shouldRetry e = false.
Proof.
  unfold refusal, timed_out, _isRetryable, Odds._shouldRetry,
    Odds.retryableStatuses.
  destruct (code e) as [k|]; destruct (response e) as [st|]; cbn;
    try destruct (String.eqb k "ECONNABORTED");
    try destruct (String.eqb k "ETIMEDOUT"); cbn;
    try discriminate; try (intros _; split; reflexivity);
    intros H;
    destruct (Z.ltb_spec st 500); try discriminate;
    destruct (Z.eqb_spec st 429); try discriminate;
    destruct (Z.eqb_spec st 408); try discriminate;
    (split;
     [ destruct (Z.leb_spec 500 st); [lia | reflexivity]
     | repeat match goal with
              | |- context [?x =? ?y] => destruct (Z.eqb_spec x y); [lia|]
              end; reflexivity ]).
Qed.

(** C4, as stated, fails: a connect failure is not classified as
    retryable.  A refused connection ends the call after one request,
    although three retries were allowed. *)
Lemma connect_failure_is_not_retried :
  _isRetryable Sample.refused = false
  /\ (let '(res, w1) :=
        _fetchWithRetry espnClient (Sample.failing Sample.refused)
          Sample.scoreboard_request (maxRetries espnClient) Sample.fresh in
      res = inl (Upstream Sample.refused)
      /\ sent w1 = 1%nat).
Proof. vm_compute. repeat split; reflexivity. Qed.

(** C4, amended.  A failed attempt is retryable when it is a timeout
    ([ECONNABORTED], [ETIMEDOUT]) or an HTTP 429/500/502/503/504 response:
    while retries remain, the call waits [retryDelay] and tries again with
    one retry less, so that a call issues at most [retries + 1] requests.
    A failure that is not a timeout and has no response (a refused
    connection) or a status below 500 other than 408 and 429 is terminal:
    it reaches the caller after that one request, whatever retries remain.
    Both clients classify these failures alike. *)
Theorem retry_policy :
  forall (c : ESPNClient) (net : Network) (config : RequestConfig)
         (w w0 : World) (e : AxiosError),
    _isCircuitOpen w = (false, w0) ->
    outcome (net (sent w0) config) = inl e ->
    (timed_out e || overload_status e = true ->
       _isRetryable e = true /\ Odds._shouldRetry e = true
       /\ forall r,
            _fetchWithRetry c net config (S r) w
            = _fetchWithRetry c net config r
                (_delay (retryDelay c) (snd (client_request net config w0))))
    /\ (refusal e = true ->
          _isRetryable e = false /\ Odds._shouldRetry e = false
          /\ forall retries,
               _fetchWithRetry c net config retries w
               = (inl (Upstream e), snd (client_request net config w0))
               /\ sent (snd (_fetchWithRetry c net config retries w)) = S (sent w))
    /\ (forall retries,
          (sent (snd (_fetchWithRetry c net config retries w))
           <= sent w + retries + 1)%nat).
Proof.
  intros c net config w w0 e Hgate He.
  assert (Hreq : snd (client_request net config w0)
                 = _handleError e (answered net config w0)).
  { unfold client_request. now rewrite He. }
  assert (Hsent : sent w0 = sent w).
  { pose proof (isCircuitOpen_frame w) as [_ H]. now rewrite Hgate in H. }
  split; [|split].
  - intros Hclass. destruct (overload_is_retryable e Hclass) as [Hespn Hodds].
    split; [exact Hespn|]. split; [exact Hodds|].
    intros r. rewrite Hreq.
    exact (fetchWithRetry_retries c net config r w w0 e Hgate He Hespn).
  - intros Hclass. destruct (refusal_is_terminal e Hclass) as [Hespn Hodds].
    split; [exact Hespn|]. split; [exact Hodds|].
    intros retries.
    rewrite (fetchWithRetry_gives_up c net config retries w w0 e Hgate He
               (or_intror Hespn)).
    rewrite <- Hreq. split; [reflexivity|].
    cbn [snd]. rewrite client_request_sent. now rewrite Hsent.
  - intros retries. apply fetchWithRetry_requests_bound.
Qed.

Lemma retry_policy_witness :
  (_isRetryable (Sample.http_error 503) = true
   /\ _fetchWithRetry espnClient (Sample.failing (Sample.http_error 503))
        Sample.scoreboard_request 1 Sample.fresh
      = _fetchWithRetry espnClient (Sample.failing (Sample.http_error 503))
          Sample.scoreboard_request 0
          (_delay (retryDelay espnClient)
             (snd (client_request (Sample.failing (Sample.http_error 503))
                     Sample.scoreboard_request Sample.fresh))))
  /\ (_isRetryable Sample.refused = false
      /\ sent (snd (_fetchWithRetry espnClient (Sample.failing Sample.refused)
                      Sample.scoreboard_request 3 Sample.fresh)) = 1%nat).
Proof.
  split.
  - destruct (retry_policy espnClient (Sample.failing (Sample.http_error 503))
                Sample.scoreboard_request Sample.fresh Sample.fresh
                (Sample.http_error 503) eq_refl eq_refl) as (Hretry & _ & _).
    destruct (Hretry eq_refl) as (Hyes & _ & Hagain).
    split; [exact Hyes | exact (Hagain 0%nat)].
  - destruct (retry_policy espnClient (Sample.failing Sample.refused)
                Sample.scoreboard_request Sample.fresh Sample.fresh
                Sample.refused eq_refl eq_refl) as (_ & Hstop & _).
    destruct (Hstop eq_refl) as (Hno & _ & Honce).
    split; [exact Hno | exact (proj2 (Honce 3%nat))].
Defined.

End Retry.

Section HealthCheck.
Import Espn.

Lemma isCircuitOpen_true_frame (w w0 : World) :
  _isCircuitOpen w = (true, w0) -> w0 = w.
Proof.
  unfold _isCircuitOpen. destruct (isOpen (breaker w)); [|discriminate].
  destruct (resetTimeout (breaker w) <? timeSinceLastFailure w);
    [discriminate | now intros [= <-]].
Qed.

(** C9, as stated, fails: a health check moves the breaker.  On a closed
    breaker one failure short of the threshold, a probe answered by
    HTTP 500 opens the breaker, and the report has no latency; a probe
    that succeeds clears the counter. *)
Lemma healthCheck_moves_breaker :
  isOpen (breaker Sample.strained) = false
  /\ fst (_isCircuitOpen Sample.strained) = false
  /\ (let '(h, w1) :=
        healthCheck espnClient (Sample.failing (Sample.http_error 500)) Sample.strained in
      status h = "unhealthy"
      /\ health_latency h = None
      /\ isOpen (breaker w1) = true
      /\ failureCount (breaker w1) = 5
      /\ fst (_isCircuitOpen w1) = true)
  /\ (let '(h, w1) := healthCheck espnClient (Sample.answering JNull) Sample.strained in
      status h = "healthy"
      /\ failureCount (breaker Sample.strained) = 4
      /\ failureCount (breaker w1) = 0).
Proof. vm_compute. repeat split; reflexivity. Qed.

(** C9, amended.  [healthCheck] goes through the same gate and the same
    retry loop as a data call, so it leaves the breaker, the clock and the
    request counter exactly as [_fetchWithRetry] on the probe request
    does.  While the gate is shut it issues no request and reports
    [unhealthy] with the last failure time; when the probe succeeds it
    reports [healthy], the latency and [circuitBreakerOpen: false]; when
    the probe fails it reports [unhealthy], the error message and the
    breaker flag, and no latency. *)
Theorem healthCheck_goes_through_breaker :
  forall (c : ESPNClient) (net : Network) (w : World),
    let call := _fetchWithRetry c net health_request (maxRetries c) w in
    snd (healthCheck c net w) = snd call
    /\ fst (healthCheck c net w)
       = if fst (_isCircuitOpen w) then
           {| status := "unhealthy";
              health_message := Some "Circuit breaker is open";
              health_latency := None;
              health_lastFailureTime := Some (lastFailureTime (breaker w));
              circuitBreakerOpen := None |}
         else
           match fst call with
           | inr _ =>
               {| status := "healthy";
                  health_message := None;
                  health_latency := Some (now (snd call) - now w);
                  health_lastFailureTime := None;
                  circuitBreakerOpen := Some false |}
           | inl err =>
               {| status := "unhealthy";
                  health_message := Some (error_message err);
                  health_latency := None;
                  health_lastFailureTime := None;
                  circuitBreakerOpen := Some (isOpen (breaker (snd call))) |}
           end.
Proof.
  intros c net w. cbn zeta. unfold healthCheck.
  destruct (_isCircuitOpen w) as [[|] w0] eqn:Hgate; cbn [fst snd].
  - apply isCircuitOpen_true_frame in Hgate as Hw. subst w0.
    assert (E : _fetchWithRetry c net health_request (maxRetries c) w
                = (inl CircuitOpen, w)).
    { destruct (maxRetries c); cbn [_fetchWithRetry]; now rewrite Hgate. }
    rewrite E. split; reflexivity.
  - pose proof (isCircuitOpen_idempotent w) as Hidem.
    pose proof (isCircuitOpen_frame w) as [Hnow _].
    rewrite Hgate in Hidem, Hnow. cbn [fst snd] in Hidem, Hnow.
    specialize (Hidem eq_refl).
    rewrite (fetchWithRetry_through c net health_request (maxRetries c) w0 w0 Hidem).
    rewrite (fetchWithRetry_through c net health_request (maxRetries c) w w0 Hgate).
    rewrite Hnow.
    match goal with
    | |- context [match ?x with (_, _) => _ end] => destruct x as [[err|body] w1]
    end; cbn [fst snd]; split; reflexivity.
Qed.

End HealthCheck.

(** * Properties of the normalisation *)

Section Normalisation.
Import Espn Score.














(** A score that carries points is kept, also behind a no-break space;
    a dash, a hexadecimal zero and a missing score give [null]. *)
Example score_14_is_kept :
  Js.number_or_null (Js.parseInt (Some (JStr "14"))) = JNum 14
  /\ Js.number_or_null
       (Js.parseInt (Some (JStr (String (ascii_of_nat 160) "5")))) = JNum 5
  /\ scoreless (Some (JStr (String (ascii_of_nat 160) "5"))) = false
  /\ scoreless (Some (JStr "-")) = true
  /\ scoreless (Some (JStr "0x0")) = true
  /\ scoreless (Some (JBool true)) = true
  /\ scoreless (Some (JObj [])) = true
  /\ scoreless None = true.
Proof. repeat split; reflexivity. Qed.

End Normalisation.

(** * [JSON.parse] undoes [JSON.stringify] *)

Section JsonRoundTrip.
Import Js Json.

(** *** Integers *)

Lemma digit_char_spec (d : Z) :
  0 <= d < 10 ->
  is_digit (digit_char d) = true
  /\ Z.of_nat (nat_of_ascii (digit_char d)) - 48 = d.
Proof.
  intros H.
  assert (C : d = 0 \/ d = 1 \/ d = 2 \/ d = 3 \/ d = 4 \/ d = 5 \/ d = 6
              \/ d = 7 \/ d = 8 \/ d = 9) by lia.
  repeat (destruct C as [-> | C]; [split; reflexivity|]).
  subst d. split; reflexivity.
Qed.

Lemma append_cons (c : ascii) (s r : string) :
  (String c s ++ r)%string = String c (s ++ r)%string.
Proof. reflexivity. Qed.

Lemma take_digits_decimal (fuel : nat) :
  forall (n : Z) (acc rest : string),
    0 <= n < 2 ^ Z.of_nat fuel ->
    exists p, forall a,
      take_digits (decimal fuel n acc ++ rest) a
      = take_digits (acc ++ rest) (a * p + n).
Proof.
  induction fuel as [|f IH]; intros n acc rest Hn.
  - exists 1. intros a. cbn [decimal]. f_equal. cbn in Hn. lia.
  - cbn [decimal].
    assert (Hmod : 0 <= n mod 10 < 10) by (apply Z.mod_pos_bound; lia).
    destruct (digit_char_spec (n mod 10) Hmod) as [Hdig Hval].
    destruct (Z.ltb_spec n 10) as [Hsmall|Hbig].
    + exists 10. intros a. rewrite append_cons. cbn [take_digits]. rewrite Hdig, Hval.
      rewrite Z.mod_small by lia. reflexivity.
    + assert (Hdiv : 0 <= n / 10 < 2 ^ Z.of_nat f).
      { split; [apply Z.div_pos; lia|].
        apply Z.div_lt_upper_bound; [lia|].
        rewrite Nat2Z.inj_succ, Z.pow_succ_r in Hn by lia. lia. }
      destruct (IH (n / 10) (String (digit_char (n mod 10)) acc) rest Hdiv) as [p Hp].
      exists (p * 10). intros a. rewrite Hp.
      rewrite append_cons. cbn [take_digits]. rewrite Hdig, Hval. f_equal.
      pose proof (Z.div_mod n 10). lia.
Qed.

Lemma decimal_head (fuel : nat) :
  forall (n : Z) (acc : string),
    0 < n < 2 ^ Z.of_nat fuel ->
    exists d t, 1 <= d <= 9 /\ decimal fuel n acc = String (digit_char d) t.
Proof.
  induction fuel as [|f IH]; intros n acc Hn.
  - cbn in Hn. lia.
  - cbn [decimal]. destruct (Z.ltb_spec n 10) as [Hsmall|Hbig].
    + exists (n mod 10), acc. rewrite Z.mod_small by lia. split; [lia | reflexivity].
    + apply IH. split; [apply Z.div_str_pos; lia|].
      apply Z.div_lt_upper_bound; [lia|].
      rewrite Nat2Z.inj_succ, Z.pow_succ_r in Hn by lia. lia.
Qed.

Lemma log2_fuel (n : Z) :
  0 <= n -> 0 <= n < 2 ^ Z.of_nat (S (Z.to_nat (Z.log2 n))).
Proof.
  intros Hn. split; [exact Hn|].
  rewrite Nat2Z.inj_succ, Z2Nat.id by apply Z.log2_nonneg.
  destruct (Z.eq_dec n 0) as [->|Hpos]; [reflexivity|].
  apply Z.log2_spec. lia.
Qed.

Lemma take_digits_delimited (rest : string) (a : Z) :
  delimited rest = true -> take_digits rest a = (a, rest).
Proof.
  destruct rest as [|c r]; [reflexivity|].
  destruct c as [[] [] [] [] [] [] [] []]; cbn; intros H;
    try discriminate H; reflexivity.
Qed.

Lemma finish_number_delimited (negative : bool) (m : Z) (rest : string) :
  delimited rest = true ->
  finish_number negative m rest
  = if MAX_SAFE_INTEGER <? m then OutsideFragment
    else if negative then
      (if m =? 0 then OutsideFragment else Parsed (JNum (- m), rest))
    else Parsed (JNum m, rest).
Proof.
  destruct rest as [|c r]; [reflexivity|].
  destruct c as [[] [] [] [] [] [] [] []]; cbn; intros H;
    try discriminate H; reflexivity.
Qed.

Lemma parse_digits_positive (negative : bool) (d : Z) (t : string) :
  1 <= d <= 9 ->
  parse_digits negative (String (digit_char d) t)
  = let '(m, rest) := take_digits (String (digit_char d) t) 0 in
    finish_number negative m rest.
Proof.
  intros H.
  assert (C : d = 1 \/ d = 2 \/ d = 3 \/ d = 4 \/ d = 5 \/ d = 6
              \/ d = 7 \/ d = 8 \/ d = 9) by lia.
  repeat (destruct C as [-> | C]; [reflexivity|]).
  subst d. reflexivity.
Qed.

Lemma parse_digits_decimal (negative : bool) (n : Z) (rest : string) :
  0 <= n ->
  delimited rest = true ->
  parse_digits negative (decimal (S (Z.to_nat (Z.log2 n))) n "" ++ rest)
  = finish_number negative n rest.
Proof.
  intros Hn Hrest.
  destruct (Z.eq_dec n 0) as [->|Hpos].
  - cbn. destruct rest as [|c r]; [reflexivity|].
    destruct c as [[] [] [] [] [] [] [] []]; cbn in Hrest |- *;
      try discriminate Hrest; reflexivity.
  - pose proof (log2_fuel n Hn) as Hfuel.
    destruct (decimal_head (S (Z.to_nat (Z.log2 n))) n "") as (d & t & Hd & Hhead);
      [lia|].
    destruct (take_digits_decimal _ n "" rest Hfuel) as (p & Hp).
    specialize (Hp 0). rewrite Hhead in Hp |- *.
    rewrite append_cons in Hp |- *.
    rewrite (parse_digits_positive negative d _ Hd), Hp.
    change ("" ++ rest)%string with rest.
    rewrite take_digits_delimited by exact Hrest.
    f_equal.
Qed.

Lemma parse_value_digit (f : nat) (c : ascii) (r : string) :
  is_digit c = true ->
  parse_value (S f) (String c r) = parse_digits false (String c r).
Proof.
  destruct c as [[] [] [] [] [] [] [] []]; cbn; intros H;
    try discriminate H; reflexivity.
Qed.

Lemma decimal_starts_with_digit (n : Z) :
  0 <= n ->
  exists c t, decimal (S (Z.to_nat (Z.log2 n))) n "" = String c t
              /\ is_digit c = true.
Proof.
  intros Hn. destruct (Z.eq_dec n 0) as [->|Hpos].
  - exists "0"%char, "". split; reflexivity.
  - destruct (decimal_head (S (Z.to_nat (Z.log2 n))) n "") as (d & t & Hd & Hhead);
      [pose proof (log2_fuel n Hn); lia|].
    exists (digit_char d), t. split; [exact Hhead|].
    apply digit_char_spec. lia.
Qed.

(** A safe integer printed in decimal is read back. *)
Lemma parse_value_number (f : nat) (n : Z) (rest : string) :
  - MAX_SAFE_INTEGER <= n <= MAX_SAFE_INTEGER ->
  delimited rest = true ->
  parse_value (S f) (Z_to_string n ++ rest) = Parsed (JNum n, rest).
Proof.
  intros Hn Hrest. unfold Z_to_string.
  destruct (Z.ltb_spec n 0) as [Hneg|Hpos].
  - rewrite append_cons.
    change (parse_value (S f) (String "-" ?r)) with (parse_digits true r).
    rewrite parse_digits_decimal by (lia || exact Hrest).
    rewrite finish_number_delimited by exact Hrest.
    destruct (Z.ltb_spec MAX_SAFE_INTEGER (- n)); [lia|].
    destruct (Z.eqb_spec (- n) 0); [lia|].
    now rewrite Z.opp_involutive.
  - destruct (decimal_starts_with_digit n Hpos) as (c & t & Hhead & Hc).
    pose proof (parse_digits_decimal false n rest Hpos Hrest) as Hparse.
    rewrite Hhead in Hparse |- *. rewrite append_cons in Hparse |- *.
    rewrite (parse_value_digit f c _ Hc), Hparse.
    rewrite finish_number_delimited by exact Hrest.
    destruct (Z.ltb_spec MAX_SAFE_INTEGER n); [lia | reflexivity].
Qed.

(** *** Strings *)

Lemma append_assoc (a b c : string) :
  ((a ++ b) ++ c)%string = (a ++ (b ++ c))%string.
Proof. induction a as [|x a IH]; [reflexivity|]. rewrite !append_cons. now rewrite IH. Qed.

Lemma append_nil_r (a : string) : (a ++ "")%string = a.
Proof. induction a as [|x a IH]; [reflexivity|]. rewrite append_cons. now rewrite IH. Qed.

Lemma parse_chars_escape_char (c : ascii) (r : string) (acc : list ascii) :
  (nat_of_ascii c <? 128)%nat = true ->
  parse_chars (escape_char c ++ r) acc = parse_chars r (c :: acc).
Proof.
  destruct c as [[] [] [] [] [] [] [] []]; intros H;
    try discriminate H; reflexivity.
Qed.

Lemma parse_chars_escape (s : string) :
  forall (acc : list ascii) (rest : string),
    one_byte s = true ->
    parse_chars (escape s ++ String dquote rest) acc
    = Parsed (string_of_list_ascii (rev acc ++ list_ascii_of_string s)%list, rest).
Proof.
  induction s as [|c s IH]; intros acc rest Hs.
  - cbn [escape list_ascii_of_string]. rewrite app_nil_r. reflexivity.
  - cbn [one_byte] in Hs. apply andb_true_iff in Hs as [Hc Hs].
    cbn [escape list_ascii_of_string]. rewrite append_assoc.
    rewrite (parse_chars_escape_char c _ acc Hc), (IH _ _ Hs).
    cbn [rev]. now rewrite <- app_assoc.
Qed.

Lemma parse_value_quote (f : nat) (r : string) :
  parse_value (S f) (String dquote r)
  = match parse_chars r [] with
    | Parsed (str, rest') => Parsed (JStr str, rest')
    | SyntaxError => SyntaxError
    | OutsideFragment => OutsideFragment
    end.
Proof. reflexivity. Qed.

Lemma parse_value_string (f : nat) (s rest : string) :
  one_byte s = true ->
  parse_value (S f) (quote s ++ rest) = Parsed (JStr s, rest).
Proof.
  intros Hs. unfold quote. rewrite append_cons, append_assoc, append_cons.
  change ("" ++ rest)%string with rest.
  rewrite parse_value_quote, (parse_chars_escape s [] rest Hs).
  cbn [rev app]. now rewrite string_of_list_ascii_of_string.
Qed.

(** *** Literals, arrays and objects *)

Lemma substring_all (r : string) : String.substring 0 (String.length r) r = r.
Proof. induction r as [|c r IH]; [reflexivity|]. cbn. now rewrite IH. Qed.

Lemma literal_read (lit : string) (v : jsval) (rest : string) :
  literal lit v (lit ++ rest) = Parsed (v, rest).
Proof.
  unfold literal.
  assert (Hp : String.prefix lit (lit ++ rest) = true).
  { induction lit as [|c l IH]; [now destruct rest|].
    rewrite append_cons. cbn. destruct (Ascii.ascii_dec c c); [exact IH | contradiction]. }
  rewrite Hp. do 2 f_equal.
  induction lit as [|c l IH].
  - cbn. rewrite Nat.sub_0_r. apply substring_all.
  - rewrite append_cons. cbn [String.length String.substring Nat.sub].
    apply IH. clear IH Hp. induction l as [|c' l IH']; [now destruct rest|].
    rewrite append_cons. cbn. destruct (Ascii.ascii_dec c' c'); [exact IH' | contradiction].
Qed.

Lemma parse_value_null (f : nat) (rest : string) :
  parse_value (S f) ("null" ++ rest) = Parsed (JNull, rest).
Proof. exact (literal_read "null" JNull rest). Qed.

Lemma parse_value_true (f : nat) (rest : string) :
  parse_value (S f) ("true" ++ rest) = Parsed (JBool true, rest).
Proof. exact (literal_read "true" (JBool true) rest). Qed.

Lemma parse_value_false (f : nat) (rest : string) :
  parse_value (S f) ("false" ++ rest) = Parsed (JBool false, rest).
Proof. exact (literal_read "false" (JBool false) rest). Qed.

Lemma stringify_head (v : jsval) :
  in_fragment v = true ->
  exists c t, JSON_stringify v = String c t /\ value_start c = true.
Proof.
  destruct v as [|[]|n|s|items|fields]; intros Hv;
    try (eexists _, _; split; reflexivity).
  cbn [JSON_stringify]. unfold Z_to_string.
  destruct (Z.ltb_spec n 0) as [Hneg|Hpos].
  - eexists _, _; split; reflexivity.
  - destruct (decimal_starts_with_digit n Hpos) as (c & t & Hhead & Hc).
    exists c, t. split; [exact Hhead|].
    unfold value_start. unfold is_digit in Hc. rewrite Hc.
    now rewrite !orb_true_r.
Qed.

Lemma array_open (f : nat) (c : ascii) (r : string) :
  value_start c = true ->
  parse_value (S f) (String "[" (String c r)) = parse_elements f (String c r) [].
Proof.
  destruct c as [[] [] [] [] [] [] [] []]; intros H;
    try discriminate H; reflexivity.
Qed.

Lemma object_open (f : nat) (r : string) :
  parse_value (S f) (String "{" (String dquote r))
  = parse_members f (String dquote r) [].
Proof. reflexivity. Qed.

Lemma parse_elements_next (f : nat) (s : string) (acc : list jsval)
    (v : jsval) (rest : string) :
  parse_value f s = Parsed (v, String "," rest) ->
  parse_elements (S f) s acc = parse_elements f rest (v :: acc).
Proof. intros H. cbn [parse_elements]. now rewrite H. Qed.

Lemma parse_elements_last (f : nat) (s : string) (acc : list jsval)
    (v : jsval) (rest : string) :
  parse_value f s = Parsed (v, String "]" rest) ->
  parse_elements (S f) s acc = Parsed (JArr (rev (v :: acc)), rest).
Proof. intros H. cbn [parse_elements]. now rewrite H. Qed.

Lemma parse_elements_stringify (items : list jsval) :
  Forall reads_back items ->
  forallb in_fragment items = true ->
  items <> [] ->
  forall (fuel : nat) (acc : list jsval) (rest : string),
    (list_sum (List.map (fun x => S (need x)) items) <= fuel)%nat ->
    parse_elements fuel
      (join_with "," (List.map JSON_stringify items) ++ String "]" rest) acc
    = Parsed (JArr (rev acc ++ items)%list, rest).
Proof.
  induction items as [|v vs IH]; intros Hall Hfrag Hne fuel acc rest Hfuel;
    [contradiction|].
  apply Forall_cons in Hall as [Hv Hvs].
  cbn [forallb] in Hfrag. apply andb_true_iff in Hfrag as [Hfv Hfvs].
  cbn [List.map] in Hfuel.
  change (list_sum (?x :: ?l)) with (x + list_sum l)%nat in Hfuel.
  destruct fuel as [|f]; [lia|].
  destruct vs as [|v' vs'].
  - cbn [List.map join_with].
    rewrite (parse_elements_last f _ acc v rest).
    + cbn [rev]. reflexivity.
    + apply Hv; [exact Hfv | lia | reflexivity].
  - change (join_with "," (List.map JSON_stringify (v :: v' :: vs')))
      with (JSON_stringify v ++ "," ++ join_with "," (List.map JSON_stringify (v' :: vs')))%string.
    rewrite !append_assoc, append_cons.
    change ("" ++ ?x)%string with x.
    rewrite (parse_elements_next f _ acc v
               (join_with "," (List.map JSON_stringify (v' :: vs')) ++ String "]" rest)).
    + rewrite IH; [| exact Hvs | exact Hfvs | discriminate | lia].
      cbn [rev]. now rewrite <- app_assoc.
    + apply Hv; [exact Hfv | lia | reflexivity].
Qed.

Lemma reads_back_array (items : list jsval) :
  Forall reads_back items -> reads_back (JArr items).
Proof.
  intros Hall Hfrag fuel rest Hfuel Hrest.
  cbn [in_fragment] in Hfrag. cbn [need] in Hfuel.
  destruct fuel as [|f]; [lia|].
  cbn [JSON_stringify].
  destruct items as [|v vs].
  - reflexivity.
  - cbn [forallb] in Hfrag. apply andb_true_iff in Hfrag as [Hfv Hfvs].
    destruct (stringify_head v Hfv) as (c & t & Hhead & Hc).
    rewrite append_cons. change ("" ++ ?x)%string with x.
    rewrite append_cons, append_assoc.
    pose proof (parse_elements_stringify (v :: vs) Hall
                  ltac:(cbn [forallb]; now rewrite Hfv, Hfvs) ltac:(discriminate)
                  f [] rest ltac:(lia)) as Hparse.
    cbn [rev app] in Hparse.
    assert (Htext : exists t',
               (join_with "," (List.map JSON_stringify (v :: vs)) ++ String "]" rest)%string
               = String c t').
    { cbn [List.map join_with]. destruct (List.map JSON_stringify vs);
        rewrite Hhead; rewrite ?append_cons; eauto. }
    destruct Htext as [t' Htext].
    change ("]" ++ rest)%string with (String "]" rest).
    rewrite Htext in Hparse |- *.
    now rewrite (array_open f c t' Hc).
Qed.

Lemma parse_members_quote (f : nat) (q : string) (acc : list (string * jsval)) :
  parse_members (S f) (String dquote q) acc
  = match parse_chars q [] with
    | Parsed (k, rest1) =>
        match skip_ws rest1 with
        | String ":" rest2 =>
            match parse_value f rest2 with
            | Parsed (v, rest3) =>
                if starts_with_digit k || has_key k acc then OutsideFragment
                else
                  match skip_ws rest3 with
                  | String "," rest4 => parse_members f rest4 ((k, v) :: acc)
                  | String "}" rest4 => Parsed (JObj (rev ((k, v) :: acc)), rest4)
                  | _ => SyntaxError
                  end
            | SyntaxError => SyntaxError
            | OutsideFragment => OutsideFragment
            end
        | _ => SyntaxError
        end
    | SyntaxError => SyntaxError
    | OutsideFragment => OutsideFragment
    end.
Proof. reflexivity. Qed.

Lemma parse_members_member (f : nat) (k r : string) (acc : list (string * jsval)) :
  one_byte k = true ->
  parse_members (S f) (quote k ++ String ":" r) acc
  = match parse_value f r with
    | Parsed (v, rest3) =>
        if starts_with_digit k || has_key k acc then OutsideFragment
        else
          match skip_ws rest3 with
          | String "," rest4 => parse_members f rest4 ((k, v) :: acc)
          | String "}" rest4 => Parsed (JObj (rev ((k, v) :: acc)), rest4)
          | _ => SyntaxError
          end
    | SyntaxError => SyntaxError
    | OutsideFragment => OutsideFragment
    end.
Proof.
  intros Hk. unfold quote. rewrite append_cons, append_assoc, append_cons.
  change ("" ++ ?x)%string with x.
  rewrite parse_members_quote, (parse_chars_escape k [] _ Hk).
  cbn [rev app]. rewrite string_of_list_ascii_of_string. reflexivity.
Qed.

Lemma has_key_later (k k' : string) (x : jsval) (acc : list (string * jsval)) :
  String.eqb k k' = false ->
  has_key k' acc = false ->
  has_key k' ((k, x) :: acc) = false.
Proof.
  intros Hne Hacc. unfold has_key in *. cbn [existsb fst].
  rewrite String.eqb_sym, Hne. exact Hacc.
Qed.

Lemma parse_members_stringify (fields : list (string * jsval)) :
  Forall (fun kv => reads_back (snd kv)) fields ->
  forallb (fun '(k, x) => one_byte k && negb (starts_with_digit k) && in_fragment x)
    fields = true ->
  distinct (List.map fst fields) = true ->
  fields <> [] ->
  forall (fuel : nat) (acc : list (string * jsval)) (rest : string),
    (forall k, In k (List.map fst fields) -> has_key k acc = false) ->
    (list_sum (List.map (fun '(_, x) => S (need x)) fields) <= fuel)%nat ->
    parse_members fuel
      (join_with "," (List.map member_text fields) ++ String "}" rest) acc
    = Parsed (JObj (rev acc ++ fields)%list, rest).
Proof.
  induction fields as [|[k x] fs IH];
    intros Hall Hfrag Hdist Hne fuel acc rest Hacc Hfuel; [contradiction|].
  apply Forall_cons in Hall as [Hx Hfs]. cbn [snd] in Hx.
  cbn [forallb] in Hfrag. apply andb_true_iff in Hfrag as [Hkx Hfrag].
  apply andb_true_iff in Hkx as [Hk Hfx]. apply andb_true_iff in Hk as [Hk Hnd].
  cbn [List.map fst distinct] in Hdist.
  apply andb_true_iff in Hdist as [Hfresh Hdist].
  apply negb_true_iff in Hfresh, Hnd.
  cbn [List.map] in Hfuel.
  change (list_sum (?a :: ?l)) with (a + list_sum l)%nat in Hfuel.
  destruct fuel as [|f]; [lia|].
  assert (Hkey : starts_with_digit k || has_key k acc = false).
  { rewrite Hnd. apply Hacc. now left. }
  destruct fs as [|kv' fs'].
  - cbn [List.map join_with member_text].
    rewrite !append_assoc. change (":" ++ ?r)%string with (String ":" r).
    rewrite (parse_members_member f k _ acc Hk).
    rewrite (Hx Hfx f (String "}" rest)); [| lia | reflexivity].
    rewrite Hkey. cbn [rev]. reflexivity.
  - change (join_with "," (List.map member_text ((k, x) :: kv' :: fs')))
      with (member_text (k, x) ++ "," ++ join_with "," (List.map member_text (kv' :: fs')))%string.
    cbn [member_text].
    rewrite !append_assoc. change (":" ++ ?r)%string with (String ":" r).
    change ("," ++ ?r)%string with (String "," r).
    rewrite (parse_members_member f k _ acc Hk).
    rewrite (Hx Hfx f (String "," _)); [| lia | reflexivity].
    rewrite Hkey.
    change (skip_ws (String "," ?r)) with (String "," r). cbv iota.
    rewrite IH; [| exact Hfs | exact Hfrag | exact Hdist | discriminate | | lia].
    + cbn [rev]. now rewrite <- app_assoc.
    + intros k' Hin. apply has_key_later; [|apply Hacc; now right].
      destruct (String.eqb k k') eqn:E; [|reflexivity].
      rewrite <- Hfresh. symmetry. apply existsb_exists.
      exists k'. split; [exact Hin | exact E].
Qed.

Lemma reads_back_object (fields : list (string * jsval)) :
  Forall (fun kv => reads_back (snd kv)) fields -> reads_back (JObj fields).
Proof.
  intros Hall Hfrag fuel rest Hfuel Hrest.
  cbn [in_fragment] in Hfrag. apply andb_true_iff in Hfrag as [Hfrag Hdist].
  cbn [need] in Hfuel.
  destruct fuel as [|f]; [lia|].
  cbn [JSON_stringify].
  change (List.map (fun '(k, x) => (quote k ++ ":" ++ JSON_stringify x)%string) fields)
    with (List.map member_text fields).
  destruct fields as [|[k x] fs].
  - reflexivity.
  - rewrite append_cons. change ("" ++ ?x)%string with x.
    rewrite append_cons, append_assoc.
    change ("}" ++ rest)%string with (String "}" rest).
    pose proof (parse_members_stringify ((k, x) :: fs) Hall Hfrag Hdist
                  ltac:(discriminate) f [] rest ltac:(reflexivity) ltac:(lia))
      as Hparse.
    cbn [rev app] in Hparse.
    assert (Htext : exists t',
               (join_with "," (List.map member_text ((k, x) :: fs)) ++ String "}" rest)%string
               = String dquote t').
    { cbn [List.map join_with member_text]. unfold quote.
      destruct (List.map member_text fs); rewrite ?append_cons; eauto. }
    destruct Htext as [t' Htext].
    rewrite Htext in Hparse |- *.
    now rewrite object_open.
Qed.

(** Every value of the fragment, printed and followed by a delimiter, is
    read back as it was. *)
Lemma parse_value_stringify (v : jsval) : reads_back v.
Proof.
  induction v as [| b | n | s | items IH | fields IH] using jsval_nested_ind.
  - intros _ [|f] rest Hfuel _; [cbn in Hfuel; lia|]. apply parse_value_null.
  - intros _ [|f] rest Hfuel _; [cbn in Hfuel; lia|].
    destruct b; [apply parse_value_true | apply parse_value_false].
  - intros Hn [|f] rest Hfuel Hrest; [cbn in Hfuel; lia|].
    cbn [in_fragment] in Hn. apply andb_true_iff in Hn as [Hlo Hhi].
    apply Z.leb_le in Hlo, Hhi.
    apply parse_value_number; [lia | exact Hrest].
  - intros Hs [|f] rest Hfuel _; [cbn in Hfuel; lia|].
    now apply parse_value_string.
  - now apply reads_back_array.
  - now apply reads_back_object.
Qed.

Lemma length_append (a b : string) :
  String.length (a ++ b) = (String.length a + String.length b)%nat.
Proof. induction a as [|c a IH]; [reflexivity|]. rewrite append_cons. cbn. now rewrite IH. Qed.

Lemma need_le_length (v : jsval) : (need v <= String.length (JSON_stringify v))%nat.
Proof.
  induction v as [| b | n | s | items IH | fields IH] using jsval_nested_ind.
  - cbn. lia.
  - destruct b; cbn; lia.
  - cbn [need JSON_stringify]. unfold Z_to_string.
    destruct (Z.ltb_spec n 0) as [Hneg|Hpos]; [cbn; lia|].
    destruct (decimal_starts_with_digit n Hpos) as (c & t & -> & _). cbn. lia.
  - cbn. lia.
  - cbn [need JSON_stringify]. rewrite append_cons. cbn [String.length].
    rewrite !length_append. cbn [String.length].
    enough (list_sum (List.map (fun x => S (need x)) items)
            <= S (String.length (join_with "," (List.map JSON_stringify items))))%nat
      by lia.
    induction IH as [|v vs Hv Hvs IHvs]; [cbn; lia|].
    cbn [List.map]. change (list_sum (?a :: ?l)) with (a + list_sum l)%nat.
    destruct vs as [|v' vs'].
    + cbn. lia.
    + change (join_with "," (JSON_stringify v :: List.map JSON_stringify (v' :: vs')))
        with (JSON_stringify v ++ "," ++ join_with "," (List.map JSON_stringify (v' :: vs')))%string.
      rewrite !length_append. cbn [String.length]. lia.
  - cbn [need JSON_stringify]. rewrite append_cons. cbn [String.length].
    rewrite !length_append. cbn [String.length].
    change (List.map (fun '(k, x) => (quote k ++ ":" ++ JSON_stringify x)%string) fields)
      with (List.map member_text fields).
    enough (list_sum (List.map (fun '(_, x) => S (need x)) fields)
            <= S (String.length (join_with "," (List.map member_text fields))))%nat
      by lia.
    induction IH as [|[k x] fs Hx Hfs IHfs]; [cbn; lia|].
    cbn [List.map]. change (list_sum (?a :: ?l)) with (a + list_sum l)%nat.
    cbn [snd] in Hx.
    assert (Hmember : (S (need x) <= String.length (member_text (k, x)))%nat).
    { cbn [member_text]. rewrite !length_append. cbn [String.length]. lia. }
    destruct fs as [|kv' fs'].
    + cbn [List.map join_with]. change (list_sum []) with 0%nat. lia.
    + change (join_with "," (member_text (k, x) :: List.map member_text (kv' :: fs')))
        with (member_text (k, x) ++ "," ++ join_with "," (List.map member_text (kv' :: fs')))%string.
      rewrite !length_append. cbn [String.length]. lia.
Qed.

(** [JSON.parse(JSON.stringify(v))] is [v] on the fragment. *)
Theorem JSON_round_trip (v : jsval) :
  in_fragment v = true -> JSON_parse (JSON_stringify v) = Parsed v.
Proof.
  intros Hv. unfold JSON_parse.
  pose proof (parse_value_stringify v Hv
                (2 * String.length (JSON_stringify v) + 2)%nat ""
                ltac:(pose proof (need_le_length v); lia) eq_refl) as H.
  rewrite append_nil_r in H. now rewrite H.
Qed.

End JsonRoundTrip.

(** * Properties of the cache *)

Section CacheClient.
Import Json Cache.

Variable glob_match : string -> string -> bool.

Lemma get_never_rejects faults c r now key :
  forall e, fst (get faults c r now key) <> Rejected e.
Proof.
  intros e. unfold get. destruct (unavailable c); [discriminate|].
  destruct (redis_get faults r now key) as [[[value|]|] r1]; try discriminate.
  destruct (String.eqb value ""); [discriminate|].
  destruct (JSON_parse value); discriminate.
Qed.

Lemma command_fault {A : Type} faults r (run : gmap string Entry -> A * gmap string Entry) :
  faults (commands r) = true ->
  command faults r run
  = (CommandError, {| store := store r; commands := S (commands r) |}).
Proof. intros H. unfold command. now rewrite H. Qed.

Lemma command_ok {A : Type} faults r (run : gmap string Entry -> A * gmap string Entry) :
  faults (commands r) = false ->
  command faults r run
  = (Reply (fst (run (store r))),
     {| store := snd (run (store r)); commands := S (commands r) |}).
Proof. intros H. unfold command. rewrite H. now destruct (run (store r)). Qed.

(** C8. The cache fails open.  When the client is not connected, [get]
    gives [null], [set] and [del] give [false] and [delPattern] gives 0,
    and Redis is not contacted; when the command sent to Redis errors, the
    answers are the same and the store keeps its content (also when it is
    the DEL of [delPattern] that errors after a successful KEYS); and in
    no case is an error raised to the caller. *)
Theorem cache_fails_open :
  forall (faults : Faults) (c : CacheClient) (r : Redis) (now : Z)
         (key pattern : string) (value : jsval) (ttl : option Z),
    (unavailable c = true ->
       get faults c r now key = (Resolved JNull, r)
       /\ set faults c r now key value ttl = (Resolved false, r)
       /\ del faults c r key = (Resolved false, r)
       /\ delPattern glob_match faults c r now pattern = (Resolved 0, r))
    /\ (faults (commands r) = true ->
          fst (get faults c r now key) = Resolved JNull
          /\ fst (set faults c r now key value ttl) = Resolved false
          /\ fst (del faults c r key) = Resolved false
          /\ fst (delPattern glob_match faults c r now pattern) = Resolved 0
          /\ store (snd (get faults c r now key)) = store r
          /\ store (snd (set faults c r now key value ttl)) = store r
          /\ store (snd (del faults c r key)) = store r
          /\ store (snd (delPattern glob_match faults c r now pattern)) = store r)
    /\ (faults (S (commands r)) = true ->
          fst (delPattern glob_match faults c r now pattern) = Resolved 0
          /\ store (snd (delPattern glob_match faults c r now pattern)) = store r)
    /\ (forall e,
          fst (get faults c r now key) <> Rejected e
          /\ fst (set faults c r now key value ttl) <> Rejected e
          /\ fst (del faults c r key) <> Rejected e
          /\ fst (delPattern glob_match faults c r now pattern) <> Rejected e).
Proof.
  intros faults c r now key pattern value ttl.
  split; [|split; [|split]].
  - intros Hdown. unfold get, set, del, delPattern. rewrite Hdown. auto.
  - intros Hfault.
    unfold get, set, del, delPattern, redis_get, redis_set, redis_setex,
      redis_del, redis_keys.
    destruct (unavailable c); [cbn; auto 10|].
    rewrite !(command_fault faults r _ Hfault).
    assert (Hset : forall seconds,
               (if seconds <=? 0
                then (@CommandError unit,
                      {| store := store r; commands := S (commands r) |})
                else command faults r
                       (fun m => (tt, <[key := {| text := serialize value;
                                                  expiry := Some (now + seconds * 1000) |}]> m)))
               = (CommandError, {| store := store r; commands := S (commands r) |})).
    { intros seconds. destruct (seconds <=? 0); [reflexivity|].
      apply command_fault, Hfault. }
    destruct ttl as [seconds|]; [destruct (seconds =? 0)|];
      rewrite ?Hset, ?(command_fault faults r _ Hfault); cbn; auto 10.
  - intros Hfault. unfold delPattern, redis_keys, redis_del.
    destruct (unavailable c); [cbn; auto|].
    destruct (faults (commands r)) eqn:Hfirst.
    + rewrite (command_fault faults r _ Hfirst). cbn. auto.
    + rewrite (command_ok faults r _ Hfirst). cbn [fst snd].
      match goal with
      | |- context [match ?l with [] => _ | _ :: _ => _ end] => destruct l as [|k ks]
      end; [cbn; auto|].
      rewrite command_fault by exact Hfault. cbn. auto.
  - intros e. split; [apply get_never_rejects|].
    unfold set, del, delPattern.
    destruct (unavailable c); [repeat split; discriminate|].
    repeat split.
    + match goal with
      | |- context [match ?x with (_, _) => _ end] => destruct x as [[?|] ?]
      end; discriminate.
    + destruct (redis_del faults r [key]) as [[?|] ?]; discriminate.
    + destruct (redis_keys glob_match faults r now pattern) as [[[|k ks]|] r1];
        try discriminate.
      destruct (redis_del faults r1 (k :: ks)) as [[?|] ?]; discriminate.
Qed.

End CacheClient.

Lemma cache_fails_open_witness :
  Cache.get Sample.no_fault Sample.disconnected Sample.null_cached 1000 "scores:nba"
  = (Resolved JNull, Sample.null_cached)
  /\ fst (Cache.set Sample.every_command_fails Sample.connected Sample.null_cached 1000
            "scores:nba" (JNum 7) (Some 30)) = Resolved false
  /\ fst (Cache.delPattern Sample.star_glob
            (fun n => Nat.eqb n 1) Sample.connected Sample.null_cached 1000 "scores:*")
     = Resolved 0.
Proof.
  pose proof (cache_fails_open Sample.star_glob Sample.no_fault Sample.disconnected
                Sample.null_cached 1000 "scores:nba" "scores:*" (JNum 7) (Some 30))
    as (Hdown & _).
  pose proof (cache_fails_open Sample.star_glob Sample.every_command_fails
                Sample.connected Sample.null_cached 1000 "scores:nba" "scores:*"
                (JNum 7) (Some 30)) as (_ & Hfault & _).
  pose proof (cache_fails_open Sample.star_glob (fun n => Nat.eqb n 1)
                Sample.connected Sample.null_cached 1000 "scores:nba" "scores:*"
                (JNum 7) (Some 30)) as (_ & _ & Hdel & _).
  split; [exact (proj1 (Hdown eq_refl))|].
  split; [exact (proj1 (proj2 (Hfault eq_refl)))|].
  exact (proj1 (Hdel eq_refl)).
Defined.

Section ReadThrough.
Import Json Cache.

(** What [get] makes of the text found under a key. *)
Lemma get_live faults c r now key e :
  unavailable c = false ->
  faults (commands r) = false ->
  store r !! key = Some e ->
  live now e = true ->
  get faults c r now key
  = (if String.eqb (text e) "" then Resolved JNull
     else match JSON_parse (text e) with
          | Parsed v => Resolved v
          | SyntaxError => Resolved (JStr (text e))
          | OutsideFragment => Unmodelled
          end,
     {| store := store r; commands := S (commands r) |}).
Proof.
  intros Hup Hok Hkey Hlive. unfold get, redis_get. rewrite Hup.
  rewrite (command_ok faults r _ Hok). cbn [fst snd].
  unfold lookup_live. rewrite Hkey, Hlive.
  destruct (String.eqb (text e) ""); [reflexivity|].
  destruct (JSON_parse (text e)); reflexivity.
Qed.

Lemma get_absent faults c r now key :
  lookup_live (store r) now key = None ->
  fst (get faults c r now key) = Resolved JNull.
Proof.
  intros Hnone. unfold get, redis_get, command.
  destruct (unavailable c); [reflexivity|].
  destruct (faults (commands r)); [reflexivity|].
  cbn. now rewrite Hnone.
Qed.

Lemma set_stores faults c r now key value seconds :
  unavailable c = false ->
  0 < seconds ->
  faults (commands r) = false ->
  set faults c r now key value (Some seconds)
  = (Resolved true,
     {| store := <[key := {| text := serialize value;
                             expiry := Some (now + seconds * 1000) |}]> (store r);
        commands := S (commands r) |}).
Proof.
  intros Hup Hpos Hok. unfold set, redis_setex. rewrite Hup.
  destruct (Z.eqb_spec seconds 0); [lia|].
  destruct (Z.leb_spec seconds 0); [lia|].
  now rewrite (command_ok faults r _ Hok).
Qed.

(** *** [Cache] is [Codec] at the JSON data *)

Lemma json_lawful : Codec.lawful Codec.json.
Proof.
  repeat split.
  - intros H. destruct v; try discriminate H. reflexivity.
  - intros ->. reflexivity.
  - intros v s H. destruct v; try discriminate H. now injection H as ->.
  - intros s. discriminate.
Qed.

Lemma get_of_json faults c r now key :
  Codec.get Codec.json faults c r now key = get faults c r now key.
Proof. reflexivity. Qed.

Lemma serialize_of_json value :
  Codec.serialize Codec.json value = serialize value.
Proof. destruct value; reflexivity. Qed.

Lemma set_of_json faults c r now key value ttl :
  Codec.set Codec.json faults c r now key value ttl = set faults c r now key value ttl.
Proof. unfold Codec.set, set. now rewrite serialize_of_json. Qed.

Lemma set_at_of_json faults c r now key value t :
  Codec.set_at Codec.json faults c r now key value t
  = set_at faults c r now key value t.
Proof. destruct t; try reflexivity. apply set_of_json. Qed.

Lemma getOrSet_of_json (S : Type) env faults c r now key
    (fetchFn : S -> Fetched S) dataType (s : S) :
  Codec.getOrSet Codec.json env faults c r now key
    (fun x => Codec.of_fetched (fetchFn x)) dataType s
  = (match fst (fst (getOrSet env faults c r now key fetchFn dataType s)) with
     | Resolved x => Resolved (Codec.of_result x)
     | Rejected e => Rejected e
     | Unmodelled => Unmodelled
     end,
     snd (fst (getOrSet env faults c r now key fetchFn dataType s)),
     snd (getOrSet env faults c r now key fetchFn dataType s)).
Proof.
  unfold Codec.getOrSet, getOrSet. rewrite get_of_json.
  destruct (get faults c r now key) as [[hit| |] r1]; try reflexivity.
  change (Codec.not_null Codec.json hit) with (not_null hit).
  destruct (not_null hit); [reflexivity|].
  cbn [Codec.of_fetched Codec.fetched Codec.fetch_world Codec.fetch_took].
  destruct (fetched (fetchFn s)) as [d| |]; try reflexivity.
  rewrite set_at_of_json.
  destruct (set_at faults c r1 (now + fetch_took (fetchFn s)) key d
              (ttl_for env dataType)) as [[b| |] r2]; reflexivity.
Qed.

(** *** The two functions over any values *)

Section AnyRuntime.

Context {V : Type} (js : Codec.Runtime V).

Lemma codec_get_reachable faults c r now key :
  unavailable c = false ->
  faults (commands r) = false ->
  Codec.get js faults c r now key
  = (match lookup_live (store r) now key with
     | Some text =>
         if String.eqb text "" then Resolved (Codec.null js)
         else match Codec.parse js text with
              | Parsed v => Resolved v
              | SyntaxError => Resolved (Codec.of_string js text)
              | OutsideFragment => Unmodelled
              end
     | None => Resolved (Codec.null js)
     end,
     {| store := store r; commands := S (commands r) |}).
Proof.
  intros Hup Hok. unfold Codec.get, redis_get.
  rewrite Hup, (command_ok faults r _ Hok). cbn [fst snd].
  destruct (lookup_live (store r) now key) as [text|]; [|reflexivity].
  destruct (String.eqb text ""); [reflexivity|].
  destruct (Codec.parse js text); reflexivity.
Qed.

Lemma codec_set_stores faults c r now key value seconds :
  unavailable c = false ->
  0 < seconds ->
  faults (commands r) = false ->
  Codec.set js faults c r now key value (Some seconds)
  = (Resolved true,
     {| store := <[key := {| text := Codec.serialize js value;
                             expiry := Some (now + seconds * 1000) |}]> (store r);
        commands := S (commands r) |}).
Proof.
  intros Hup Hpos Hok. unfold Codec.set, redis_setex. rewrite Hup.
  destruct (Z.eqb_spec seconds 0); [lia|].
  destruct (Z.leb_spec seconds 0); [lia|].
  now rewrite (command_ok faults r _ Hok).
Qed.

Lemma lookup_live_insert m now now' key text seconds :
  now' < now + seconds * 1000 ->
  lookup_live (<[key := {| text := text; expiry := Some (now + seconds * 1000) |}]> m)
    now' key = Some text.
Proof.
  intros Hfresh. unfold lookup_live. rewrite lookup_insert_eq.
  unfold live. cbn. now apply Z.ltb_lt in Hfresh as ->.
Qed.

End AnyRuntime.

(** C7, as stated, fails: a string that is itself a JSON text comes back
    decoded.  The text ["123"] set under a key with a TTL of 30 s is read
    back at the same instant as the number 123. *)
Lemma numeric_text_comes_back_as_number :
  let '(stored, r1) :=
    set Sample.no_fault Sample.connected Sample.empty_redis 1000
      "player:nba:15" (JStr "123") (Some 30) in
  stored = Resolved true
  /\ fst (get Sample.no_fault Sample.connected r1 1000 "player:nba:15")
     = Resolved (JNum 123)
  /\ JNum 123 <> JStr "123".
Proof. vm_compute. split; [reflexivity | split; [reflexivity | discriminate]]. Qed.

(** C7, amended.  With the store reachable, a positive TTL and a read
    before the TTL has elapsed, [get] after [set(key, value, ttl)] gives
    what [JSON.parse] makes of the text that [set] stored.  So a value
    that is not a string comes back as [JSON.parse(JSON.stringify(value))],
    which is [value] itself whenever that round trip gives [value]; a
    non-empty string that is not a JSON text comes back as itself; a string
    that is a JSON text comes back as the value it denotes; and the empty
    string comes back as [null].  This holds whatever the values of the
    runtime are, numbers with a fraction included. *)
Theorem get_after_set :
  forall (V : Type) (js : Codec.Runtime V) (faults : Faults) (c : CacheClient)
         (r : Redis) (now now' : Z) (key : string) (value : V) (ttl : Z),
    Codec.lawful js ->
    unavailable c = false ->
    0 < ttl ->
    faults (commands r) = false ->
    faults (S (commands r)) = false ->
    now' < now + ttl * 1000 ->
    let r1 := snd (Codec.set js faults c r now key value (Some ttl)) in
    fst (Codec.set js faults c r now key value (Some ttl)) = Resolved true
    /\ (Codec.as_string js value = None ->
        Codec.stringify js value <> "" ->
        forall v, Codec.parse js (Codec.stringify js value) = Parsed v ->
                  fst (Codec.get js faults c r1 now' key) = Resolved v)
    /\ (Codec.as_string js value = None ->
        Codec.stringify js value <> "" ->
        Codec.parse js (Codec.stringify js value) = Parsed value ->
        fst (Codec.get js faults c r1 now' key) = Resolved value)
    /\ (forall s, value = Codec.of_string js s ->
          s <> "" ->
          Codec.parse js s = SyntaxError ->
          fst (Codec.get js faults c r1 now' key) = Resolved value)
    /\ (forall s v, value = Codec.of_string js s ->
          s <> "" ->
          Codec.parse js s = Parsed v ->
          fst (Codec.get js faults c r1 now' key) = Resolved v)
    /\ (value = Codec.of_string js "" ->
        fst (Codec.get js faults c r1 now' key) = Resolved (Codec.null js)).
Proof.
  intros V js faults c r now now' key value ttl (_ & Hstr & _ & _)
    Hup Hpos Hok1 Hok2 Hfresh.
  cbn zeta. rewrite (codec_set_stores js faults c r now key value ttl Hup Hpos Hok1).
  cbn [fst snd].
  rewrite codec_get_reachable by assumption. cbn [fst store].
  rewrite (lookup_live_insert _ now now' key _ ttl Hfresh).
  assert (Hnon : forall v, Codec.as_string js value = None ->
                   Codec.stringify js value <> "" ->
                   Codec.parse js (Codec.stringify js value) = Parsed v ->
                   (if String.eqb (Codec.serialize js value) "" then Resolved (Codec.null js)
                    else match Codec.parse js (Codec.serialize js value) with
                         | Parsed v0 => Resolved v0
                         | SyntaxError => Resolved (Codec.of_string js (Codec.serialize js value))
                         | OutsideFragment => Unmodelled
                         end) = Resolved v).
  { intros v Hnot Hne Hparsed. unfold Codec.serialize. rewrite Hnot.
    destruct (String.eqb_spec (Codec.stringify js value) ""); [contradiction|].
    now rewrite Hparsed. }
  assert (Hser : forall s, value = Codec.of_string js s -> Codec.serialize js value = s).
  { intros s ->. unfold Codec.serialize. now rewrite Hstr. }
  split; [reflexivity|]. split; [|split; [|split; [|split]]].
  - intros Hnot Hne v Hparsed. now apply Hnon.
  - intros Hnot Hne Hparsed. now apply Hnon.
  - intros s Hs Hne Hsyn. rewrite (Hser s Hs).
    destruct (String.eqb_spec s ""); [contradiction|]. now rewrite Hsyn, Hs.
  - intros s v Hs Hne Hparsed. rewrite (Hser s Hs).
    destruct (String.eqb_spec s ""); [contradiction|]. now rewrite Hparsed.
  - intros Hs. now rewrite (Hser "" Hs).
Qed.

Lemma get_after_set_witness :
  let team := JObj [("id", JNum 7); ("espn_id", JStr "2"); ("name", JStr "Boston Celtics")] in
  fst (get Sample.no_fault Sample.connected
         (snd (set Sample.no_fault Sample.connected Sample.empty_redis 1000
                 "team:2" team (Some 604800)))
         2000 "team:2") = Resolved team
  /\ fst (get Sample.no_fault Sample.connected
            (snd (set Sample.no_fault Sample.connected Sample.empty_redis 1000
                    "news:nba" (JStr "Celtics win") (Some 3600)))
            2000 "news:nba") = Resolved (JStr "Celtics win").
Proof.
  cbn zeta. rewrite <- !set_of_json, <- !get_of_json. split.
  - destruct (get_after_set jsval Codec.json Sample.no_fault Sample.connected
                Sample.empty_redis 1000 2000 "team:2"
                (JObj [("id", JNum 7); ("espn_id", JStr "2");
                       ("name", JStr "Boston Celtics")])
                604800 json_lawful eq_refl eq_refl eq_refl eq_refl eq_refl)
      as (_ & _ & Hvalue & _).
    apply Hvalue; [reflexivity | discriminate | vm_compute; reflexivity].
  - destruct (get_after_set jsval Codec.json Sample.no_fault Sample.connected
                Sample.empty_redis 1000 2000 "news:nba" (JStr "Celtics win") 3600
                json_lawful eq_refl eq_refl eq_refl eq_refl eq_refl)
      as (_ & _ & _ & Htext & _).
    apply (Htext "Celtics win" eq_refl); [discriminate | vm_compute; reflexivity].
Defined.

(** For the JSON data of this development the round trip of a value that
    is not a string gives the value back. *)
Lemma get_after_set_json faults c r now now' key value ttl :
  unavailable c = false ->
  0 < ttl ->
  faults (commands r) = false ->
  faults (S (commands r)) = false ->
  now' < now + ttl * 1000 ->
  (forall s, value <> JStr s) ->
  in_fragment value = true ->
  fst (get faults c (snd (set faults c r now key value (Some ttl))) now' key)
  = Resolved value.
Proof.
  intros Hup Hpos Hok1 Hok2 Hfresh Hnot Hfrag.
  rewrite (set_stores faults c r now key value ttl Hup Hpos Hok1). cbn [snd].
  rewrite <- get_of_json, codec_get_reachable by assumption. cbn [fst store].
  rewrite (lookup_live_insert _ now now' key _ ttl Hfresh).
  pose proof (JSON_round_trip value Hfrag) as Hround.
  assert (Hser : serialize value = JSON_stringify value).
  { destruct value; try reflexivity. now destruct (Hnot s). }
  rewrite Hser. cbn [Codec.parse Codec.json].
  destruct (String.eqb_spec (JSON_stringify value) "") as [Hempty|_].
  - rewrite Hempty in Hround. discriminate Hround.
  - now rewrite Hround.
Qed.

(** C6, as stated, fails: a key that is present is not always a hit.
    The scores of the NBA are cached as [null]; the helper takes this for
    a miss, calls the fetch function and reports [cached: false]. *)
Lemma cached_null_is_fetched_again :
  lookup_live (store Sample.null_cached) 1000 "scores:nba" = Some "null"
  /\ getOrSet Sample.no_env Sample.no_fault Sample.connected Sample.null_cached 1000
       "scores:nba" (counted (Sample.fetch_body (JStr "fresh"))) "scores" (0%nat, tt)
     = (Resolved {| data := JStr "fresh"; cached := false |},
        snd (set Sample.no_fault Sample.connected
               {| store := store Sample.null_cached; commands := 1 |}
               1120 "scores:nba" (JStr "fresh") (Some 30)),
        (1%nat, tt)).
Proof. split; reflexivity. Qed.

(** C6, amended.  With the cache reachable, whatever the values of the
    runtime are.  When the key holds a live, non-empty text, [getOrSet]
    returns with [cached: true] what [get] makes of it, provided that is
    not [null]: the value the text denotes when it is a JSON text, the text
    itself when it is not; it then does not invoke the fetch function and
    does not write to the store.  When the key is absent or expired, or
    holds the empty text or a text that denotes [null], [getOrSet] invokes
    the fetch function exactly once and, if it resolves, returns its result
    with [cached: false].  The result is left under the key with the TTL
    of the category, 300 s for a category that is not in the table, when
    that TTL is positive and Redis takes the command; for a category named
    like a member of [Object.prototype] the TTL is that member, Redis
    refuses it and nothing is stored. *)
Theorem getOrSet_reads_through :
  forall (V : Type) (js : Codec.Runtime V) (S : Type)
         (env : string -> option string) (faults : Faults)
         (c : CacheClient) (r : Redis) (now : Z) (key : string)
         (fetchFn : S -> Codec.Fetched S) (dataType : string) (calls : nat) (s : S),
    Codec.lawful js ->
    unavailable c = false ->
    faults (commands r) = false ->
    let run := Codec.getOrSet js env faults c r now key (Codec.counted fetchFn)
                 dataType (calls, s) in
    let r1 := {| store := store r; commands := Datatypes.S (commands r) |} in
    (forall text,
       lookup_live (store r) now key = Some text ->
       text <> "" ->
       (forall v, Codec.parse js text = Parsed v ->
                  v <> Codec.null js ->
                  run = (Resolved {| Codec.data := v; Codec.cached := true |},
                         r1, (calls, s)))
       /\ (Codec.parse js text = SyntaxError ->
           run = (Resolved {| Codec.data := Codec.of_string js text;
                              Codec.cached := true |},
                  r1, (calls, s))))
    /\ (forall d,
          lookup_live (store r) now key = None
          \/ lookup_live (store r) now key = Some ""
          \/ (exists text, lookup_live (store r) now key = Some text
                           /\ Codec.parse js text = Parsed (Codec.null js)) ->
          Codec.fetched (fetchFn s) = Resolved d ->
          snd run = (Datatypes.S calls, Codec.fetch_world (fetchFn s))
          /\ (forall t,
                ttl_for env dataType = Seconds t ->
                fst (fst run) = Resolved {| Codec.data := d; Codec.cached := false |}
                /\ (faults (Datatypes.S (commands r)) = false ->
                    0 < t ->
                    store (snd (fst run)) !! key
                    = Some {| text := Codec.serialize js d;
                              expiry := Some (now + Codec.fetch_took (fetchFn s)
                                              + t * 1000) |}))
          /\ (ttl_for env dataType = Member ->
              fst (fst run) = Resolved {| Codec.data := d; Codec.cached := false |}
              /\ store (snd (fst run)) = store r))
    /\ (ttl_entry dataType (CACHE_TTL env) = None ->
        ttl_for env dataType
        = if Js.inherited dataType then Member else Seconds 300).
Proof.
  intros V js S env faults c r now key fetchFn dataType calls s
    (Hnull & _ & _ & Hstr) Hup Hok. cbn zeta.
  pose proof (codec_get_reachable js faults c r now key Hup Hok) as Hget.
  assert (Hnot : forall v, v <> Codec.null js -> Codec.not_null js v = true).
  { intros v Hv. destruct (Codec.not_null js v) eqn:E; [reflexivity|].
    now apply Hnull in E. }
  assert (Hisnull : Codec.not_null js (Codec.null js) = false) by now apply Hnull.
  split; [|split].
  - intros text Hlive Hne. unfold Codec.getOrSet. rewrite Hget, Hlive.
    destruct (String.eqb_spec text ""); [contradiction|]. split.
    + intros v -> Hv. now rewrite (Hnot v Hv).
    + intros ->. now rewrite (Hnot _ (Hstr text)).
  - intros d Hmiss Hfetched. unfold Codec.getOrSet. rewrite Hget.
    assert (Hmissed : match lookup_live (store r) now key with
                      | Some text =>
                          if String.eqb text "" then Resolved (Codec.null js)
                          else match Codec.parse js text with
                               | Parsed v => Resolved v
                               | SyntaxError => Resolved (Codec.of_string js text)
                               | OutsideFragment => Unmodelled
                               end
                      | None => Resolved (Codec.null js)
                      end = Resolved (Codec.null js)).
    { destruct Hmiss as [-> | [-> | (text & -> & Hparsed)]]; try reflexivity.
      destruct (String.eqb text ""); [reflexivity|]. now rewrite Hparsed. }
    rewrite Hmissed, Hisnull.
    cbn [Codec.counted Codec.fetched Codec.fetch_world Codec.fetch_took fst snd].
    rewrite Hfetched.
    set (r1 := {| store := store r; commands := Datatypes.S (commands r) |}).
    split; [|split].
    + destruct (Codec.set_at js faults c r1 (now + Codec.fetch_took (fetchFn s)) key d
                  (ttl_for env dataType)) as [[b| |] r2]; reflexivity.
    + intros t ->. cbn [Codec.set_at].
      destruct (Codec.set js faults c r1 (now + Codec.fetch_took (fetchFn s)) key d
                  (Some t)) as [done r2] eqn:Hset.
      assert (Hdone : exists b, done = Resolved b).
      { revert Hset. unfold Codec.set. rewrite Hup.
        match goal with
        | |- context [match ?x with (_, _) => _ end] => destruct x as [[?|] ?]
        end; intros [= <- _]; eauto. }
      destruct Hdone as [b ->]. cbn [fst snd]. split; [reflexivity|].
      intros Hok2 Hpos.
      rewrite (codec_set_stores js faults c r1 _ key d _ Hup Hpos Hok2) in Hset.
      injection Hset as _ <-. cbn [store]. apply lookup_insert_eq.
    + intros ->. cbn [Codec.set_at]. rewrite Hup. split; reflexivity.
  - intros Hentry. unfold ttl_for. now rewrite Hentry.
Qed.

Lemma getOrSet_reads_through_witness :
  Codec.getOrSet Codec.json Sample.no_env Sample.no_fault Sample.connected
    {| store := {[ "scores:nba" := {| text := "[1,2]"; expiry := Some 31000 |} ]};
       commands := 0 |}
    1000 "scores:nba"
    (Codec.counted (fun s => Codec.of_fetched (Sample.fetch_body (JStr "fresh") s)))
    "scores" (0%nat, tt)
  = (Resolved {| Codec.data := JArr [JNum 1; JNum 2]; Codec.cached := true |},
     {| store := {[ "scores:nba" := {| text := "[1,2]"; expiry := Some 31000 |} ]};
        commands := 1 |},
     (0%nat, tt))
  /\ snd (Codec.getOrSet Codec.json Sample.no_env Sample.no_fault Sample.connected
            Sample.empty_redis 1000 "scores:nba"
            (Codec.counted (fun s => Codec.of_fetched (Sample.fetch_body (JStr "fresh") s)))
            "scores" (0%nat, tt)) = (1%nat, tt)
  /\ store (snd (fst (Codec.getOrSet Codec.json Sample.no_env Sample.no_fault
                        Sample.connected Sample.empty_redis 1000 "scores:nba"
                        (Codec.counted
                           (fun s => Codec.of_fetched (Sample.fetch_body (JStr "fresh") s)))
                        "toString" (0%nat, tt))))
     = store Sample.empty_redis.
Proof.
  split; [|split].
  - destruct (getOrSet_reads_through jsval Codec.json unit Sample.no_env Sample.no_fault
                Sample.connected
                {| store := {[ "scores:nba" := {| text := "[1,2]"; expiry := Some 31000 |} ]};
                   commands := 0 |}
                1000 "scores:nba"
                (fun s => Codec.of_fetched (Sample.fetch_body (JStr "fresh") s))
                "scores" 0%nat tt json_lawful eq_refl eq_refl) as (Hhit & _).
    destruct (Hhit "[1,2]" eq_refl ltac:(discriminate)) as (Hvalue & _).
    apply (Hvalue (JArr [JNum 1; JNum 2])); [vm_compute; reflexivity | discriminate].
  - destruct (getOrSet_reads_through jsval Codec.json unit Sample.no_env Sample.no_fault
                Sample.connected Sample.empty_redis
                1000 "scores:nba"
                (fun s => Codec.of_fetched (Sample.fetch_body (JStr "fresh") s))
                "scores" 0%nat tt json_lawful eq_refl eq_refl) as (_ & Hmiss & _).
    destruct (Hmiss (JStr "fresh") (or_introl eq_refl) eq_refl) as (Hcalls & _).
    exact Hcalls.
  - destruct (getOrSet_reads_through jsval Codec.json unit Sample.no_env Sample.no_fault
                Sample.connected Sample.empty_redis
                1000 "scores:nba"
                (fun s => Codec.of_fetched (Sample.fetch_body (JStr "fresh") s))
                "toString" 0%nat tt json_lawful eq_refl eq_refl) as (_ & Hmiss & _).
    destruct (Hmiss (JStr "fresh") (or_introl eq_refl) eq_refl) as (_ & _ & Hmember).
    exact (proj2 (Hmember eq_refl)).
Defined.

(** The same of [Cache.getOrSet], on the JSON data of this development:
    a live non-empty text is a hit, as the value it denotes or as itself. *)
Lemma getOrSet_hit (S : Type) env faults c r now key
    (fetchFn : S -> Fetched S) dataType (s : S) text :
  unavailable c = false ->
  faults (commands r) = false ->
  lookup_live (store r) now key = Some text ->
  text <> "" ->
  (forall v, JSON_parse text = Parsed v -> v <> JNull ->
     getOrSet env faults c r now key fetchFn dataType s
     = (Resolved {| data := v; cached := true |},
        {| store := store r; commands := Datatypes.S (commands r) |}, s))
  /\ (JSON_parse text = SyntaxError ->
      getOrSet env faults c r now key fetchFn dataType s
      = (Resolved {| data := JStr text; cached := true |},
         {| store := store r; commands := Datatypes.S (commands r) |}, s)).
Proof.
  intros Hup Hok Hlive Hne. unfold getOrSet.
  rewrite <- get_of_json, codec_get_reachable by assumption. rewrite Hlive.
  destruct (String.eqb_spec text ""); [contradiction|].
  cbn [Codec.parse Codec.json]. split.
  - intros v -> Hv. destruct v; try reflexivity. contradiction.
  - intros ->. reflexivity.
Qed.

(** After a miss has populated the cache, a second read within the TTL is
    a hit that carries the same data, when the data is a JSON value other
    than a string or [null]. *)
Lemma second_read_is_a_hit :
  forall (S : Type) (env : string -> option string) (faults : Faults)
         (c : CacheClient) (r : Redis) (now now' : Z) (key : string)
         (fetchFn : S -> Fetched S) (dataType : string) (s : S) (d : jsval) (t : Z),
    unavailable c = false ->
    (forall n, faults n = false) ->
    lookup_live (store r) now key = None ->
    fetched (fetchFn s) = Resolved d ->
    ttl_for env dataType = Seconds t ->
    0 < t ->
    in_fragment d = true ->
    d <> JNull ->
    (forall x, d <> JStr x) ->
    now' < now + fetch_took (fetchFn s) + t * 1000 ->
    let first := getOrSet env faults c r now key fetchFn dataType s in
    fst (fst first) = Resolved {| data := d; cached := false |}
    /\ fst (getOrSet env faults c (snd (fst first)) now' key fetchFn dataType (snd first))
       = (Resolved {| data := d; cached := true |},
          {| store := store (snd (fst first));
             commands := Datatypes.S (commands (snd (fst first))) |}).
Proof.
  intros S env faults c r now now' key fetchFn dataType s d t
    Hup Hok Hmiss Hfetched Httl Hpos Hfrag Hnull Hstr Hfresh.
  set (e := {| text := serialize d;
               expiry := Some (now + fetch_took (fetchFn s) + t * 1000) |}).
  set (r2 := {| store := <[key := e]> (store r);
                commands := Datatypes.S (Datatypes.S (commands r)) |}).
  assert (Hfirst : getOrSet env faults c r now key fetchFn dataType s
                   = (Resolved {| data := d; cached := false |}, r2, fetch_world (fetchFn s))).
  { unfold getOrSet, get, redis_get. rewrite Hup.
    rewrite (command_ok faults r _ (Hok _)). cbn [fst snd]. rewrite Hmiss.
    cbn [not_null]. rewrite Hfetched, Httl. cbn [set_at].
    rewrite (set_stores faults c _ _ key d _ Hup Hpos (Hok _)). reflexivity. }
  cbn zeta. rewrite Hfirst. cbn [fst snd].
  split; [reflexivity|].
  unfold getOrSet.
  rewrite (get_live faults c r2 now' key e Hup (Hok _)
             ltac:(apply lookup_insert_eq)
             ltac:(unfold live, e; cbn; now apply Z.ltb_lt)).
  assert (Hser : text e = JSON_stringify d).
  { unfold e. cbn [text]. destruct d; try reflexivity. now destruct (Hstr s0). }
  rewrite Hser.
  pose proof (JSON_round_trip d Hfrag) as Hround.
  destruct (String.eqb_spec (JSON_stringify d) "") as [Hempty|_].
  { rewrite Hempty in Hround. discriminate Hround. }
  rewrite Hround.
  destruct d; try reflexivity. contradiction.
Qed.

(** The categories and their default TTL, in seconds; a category that is
    not in the table (as ["teams"]) has 300 s, unless its name is that of a
    member of [Object.prototype]. *)
Example default_ttls :
  List.map (ttl_for Sample.no_env)
    ["scores"; "odds"; "standings"; "schedules"; "players"; "news"; "teams";
     "constructor"; "__proto__"]
  = [Seconds 30; Seconds 300; Seconds 21600; Seconds 86400; Seconds 604800;
     Seconds 3600; Seconds 300; Member; Member].
Proof. reflexivity. Qed.

End ReadThrough.

(** * Properties of the scoreboard sync *)

Section ScoreboardSync.
Import Cache Repo.
Local Open Scope list_scope.

Lemma upsert_is_array dbf db0 tableName records onConflict :
  exists items, fst (upsert dbf db0 tableName records onConflict) = JArr items.
Proof.
  unfold upsert.
  destruct (Js.prop "length" records) as [[| |[| |]| | |]|];
    try (destruct (db_upsert dbf db0 tableName records onConflict) as [[data|] db1]);
    cbn; eauto.
Qed.

(** [getOrCreate] never resolves to a falsy value: what it returns is a
    cached value that is truthy, a row found in the store, or the array
    that [upsert] resolves to, which is truthy even when it is empty.  The
    guard [!homeTeam || !awayTeam] of [upsertFromESPN] therefore never
    holds. *)
Lemma getOrCreate_never_falsy sv w espnTeamData league v w1 :
  getOrCreate sv w espnTeamData league = (Resolved v, w1) ->
  Js.truthy v = true.
Proof.
  unfold getOrCreate.
  destruct (get _ _ _ _ _) as [[hit| |] r1]; try discriminate.
  destruct (Js.truthy hit) eqn:Hhit; [now intros [= <- _]|].
  destruct (findByEspnId _ _ _ _) as [found w2].
  destruct (Js.truthy found) eqn:Hfound.
  - rewrite Hfound. destruct (set _ _ _ _ _ _ _) as [? r4]. now intros [= <- _].
  - unfold teams_upsertFromESPN.
    destruct (upsert_is_array (db_faults sv) (db w2) "teams"
                (team_record espnTeamData league) "espn_id") as [items Hitems].
    destruct (upsert _ _ _ _ _) as [team db3]. cbn in Hitems. subst team.
    cbn [Js.truthy]. destruct (set _ _ _ _ _ _ _) as [? r4]. now intros [= <- _].
Qed.

(** The array of rows a fresh upsert resolves to has no [id], so the
    record of the game gets no team key from it. *)
Lemma created_team_gives_no_key espnGameData items awayTeam :
  Js.prop "home_team_id" (game_record espnGameData (JArr items) awayTeam) = None.
Proof.
  unfold game_record. cbn.
  destruct (Js.prop "id" awayTeam); cbn;
    destruct (Espn.st_type_state (Espn.game_status espnGameData)); reflexivity.
Qed.

Lemma with_table_history db0 name t q :
  history (with_table db0 name t q) = history db0 ++ [q].
Proof. unfold with_table. now destruct (String.eqb name "teams"). Qed.

Lemma db_select_history dbf db0 table field value :
  history (snd (db_select dbf db0 table field value))
  = history db0 ++ [Select table field value].
Proof.
  unfold db_select. destruct (dbf _); cbn [snd]; apply with_table_history.
Qed.

Lemma db_upsert_history dbf db0 table record onConflict :
  history (snd (db_upsert dbf db0 table record onConflict))
  = history db0 ++ [Upsert table record onConflict].
Proof.
  unfold db_upsert. destruct (_ || _); cbn [snd]; [apply with_table_history|].
  destruct (List.find _ _); cbn [snd]; apply with_table_history.
Qed.

(** The queries a repository call adds to the history all address its own
    table. *)
Lemma upsert_history dbf db0 tableName records onConflict :
  exists qs,
    history (snd (upsert dbf db0 tableName records onConflict)) = history db0 ++ qs
    /\ Forall (fun q => table_name q = tableName) qs
    /\ (Js.prop "length" records = None ->
        qs = [Upsert tableName records onConflict]).
Proof.
  unfold upsert.
  pose proof (db_upsert_history dbf db0 tableName records onConflict) as H.
  destruct (db_upsert dbf db0 tableName records onConflict) as [[data|] db1];
    cbn [snd] in H;
    destruct (Js.prop "length" records) as [[| |[| |]| | |]|]; cbn [snd];
    try (exists [Upsert tableName records onConflict];
         split; [exact H|]; split; [now repeat constructor | reflexivity]);
    (exists []; split; [now rewrite app_nil_r|]; split; [constructor | discriminate]).
Qed.

Lemma getOrCreate_history sv w espnTeamData league :
  exists qs,
    history (db (snd (getOrCreate sv w espnTeamData league))) = history (db w) ++ qs
    /\ Forall (fun q => table_name q = "teams") qs.
Proof.
  unfold getOrCreate.
  destruct (get _ _ _ _ _) as [[hit| |] r1]; cbn [snd db];
    try (exists []; split; [now rewrite app_nil_r | constructor]).
  destruct (Js.truthy hit); cbn [snd db];
    [exists []; split; [now rewrite app_nil_r | constructor]|].
  unfold findByEspnId, findBy. cbn [db redis].
  pose proof (db_select_history (db_faults sv) (db w) "teams" "espn_id"
                (Espn.side_espnId espnTeamData)) as Hsel.
  destruct (db_select _ _ _ _ _) as [[data|] db1]; cbn [snd] in Hsel;
    match goal with
    | |- context [Js.truthy (first_or_null ?l)] => destruct (Js.truthy (first_or_null l))
    end;
    cbn [db redis];
    try (match goal with
         | |- context [if Js.truthy ?v then _ else _] => destruct (Js.truthy v)
         end;
         [destruct (set _ _ _ _ _ _ _) as [? r4]|]; cbn [snd db];
         exists [Select "teams" "espn_id" (Espn.side_espnId espnTeamData)];
         (split; [exact Hsel | now repeat constructor]));
    unfold teams_upsertFromESPN; cbn [db redis];
    destruct (upsert_history (db_faults sv) db1 "teams"
                (team_record espnTeamData league) "espn_id") as (qs & Hup & Hall & _);
    destruct (upsert _ _ _ _ _) as [team db2]; cbn [snd] in Hup; cbn [db redis];
    (destruct (Js.truthy team); [destruct (set _ _ _ _ _ _ _) as [? r4]|];
     cbn [snd db];
     exists (Select "teams" "espn_id" (Espn.side_espnId espnTeamData) :: qs);
     (split; [rewrite Hup, Hsel, <- app_assoc; reflexivity
             | constructor; [reflexivity | exact Hall]])).
Qed.

Lemma game_record_is_one_record espnGameData homeTeam awayTeam :
  Js.prop "length" (game_record espnGameData homeTeam awayTeam) = None.
Proof.
  unfold game_record. cbn.
  destruct (Js.prop "id" homeTeam); destruct (Js.prop "id" awayTeam);
    destruct (Espn.st_type_state (Espn.game_status espnGameData)); reflexivity.
Qed.

(** The ordering half of C5: whatever the cache and the store answer, the
    queries of [upsertFromESPN] on the [teams] table (look-ups and
    creations for both sides) all come before its upsert on [games], which,
    when it is issued, is the last query. *)
Lemma teams_are_queried_before_the_game sv w espnGameData :
  exists team_queries game_queries,
    history (db (snd (upsertFromESPN sv w espnGameData)))
    = history (db w) ++ team_queries ++ game_queries
    /\ Forall (fun q => table_name q = "teams") team_queries
    /\ (game_queries = []
        \/ exists homeTeam awayTeam,
             game_queries
             = [Upsert "games" (game_record espnGameData homeTeam awayTeam) "espn_id"]).
Proof.
  unfold upsertFromESPN.
  destruct (getOrCreate_history sv w (Espn.homeTeam espnGameData)
              (Espn.sport espnGameData)) as (qs1 & H1 & Hall1).
  destruct (getOrCreate sv w _ _) as [[homeTeam| |] w1]; cbn [snd] in H1;
    [| exists qs1, (@nil Query); cbn [snd]; rewrite app_nil_r; auto ..].
  destruct (getOrCreate_history sv w1 (Espn.awayTeam espnGameData)
              (Espn.sport espnGameData)) as (qs2 & H2 & Hall2).
  assert (Hall : Forall (fun q => table_name q = "teams") (qs1 ++ qs2))
    by (apply Forall_app; split; assumption).
  destruct (getOrCreate sv w1 _ _) as [[awayTeam| |] w2]; cbn [snd] in H2;
    [| exists (qs1 ++ qs2), (@nil Query); cbn [snd];
       rewrite H2, H1, app_nil_r, <- app_assoc; auto ..].
  destruct (negb (Js.truthy homeTeam) || negb (Js.truthy awayTeam)); cbn [snd].
  - exists (qs1 ++ qs2), (@nil Query). rewrite H2, H1, app_nil_r, <- app_assoc. auto.
  - destruct (upsert_history (db_faults sv) (db w2) "games"
                (game_record espnGameData homeTeam awayTeam) "espn_id")
      as (qs3 & H3 & _ & Hone).
    destruct (upsert _ _ _ _ _) as [res db3]; cbn [snd] in H3. cbn [snd db].
    exists (qs1 ++ qs2), qs3. rewrite H3, H2, H1, <- !app_assoc.
    split; [reflexivity|]. split; [exact Hall|].
    right. exists homeTeam, awayTeam. apply Hone, game_record_is_one_record.
Qed.

(** C5 on the first sighting of two teams, cache and store healthy.  Both
    teams are created before the game is written, but the game is
    upserted, as the last query, with neither [home_team_id] nor
    [away_team_id]; the row is stored with NULL keys and the sync counts
    the game as successful. *)
Lemma game_upserted_without_team_keys :
  let '(res, w1) := upsertFromESPN Sample.services Sample.first_sighting
                      Sample.tipoff_game in
  List.map table_name (history (db w1)) = ["teams"; "teams"; "teams"; "teams"; "games"]
  /\ List.length (rows (teams (db w1))) = 2%nat
  /\ (exists record,
        last (history (db w1)) = Some (Upsert "games" record "espn_id")
        /\ Js.prop "home_team_id" record = None
        /\ Js.prop "away_team_id" record = None)
  /\ (exists row,
        res = Resolved (JArr [row])
        /\ rows (games (db w1)) = [row]
        /\ Js.prop "home_team_id" row = Some JNull
        /\ Js.prop "away_team_id" row = Some JNull)
  /\ option_map fst
       (syncFromScoreboard Sample.star_glob Sample.services Sample.first_sighting
          (Espn._normalizeScoreboard (Some [Sample.tipoff]) "nba" 1000))
     = Some {| successful := 1; failed := 0; total := 1 |}.
Proof.
  vm_compute.
  split; [reflexivity|]. split; [reflexivity|].
  split; [eexists; split; [reflexivity|]; split; reflexivity|].
  split; [eexists; repeat split; reflexivity|].
  reflexivity.
Qed.

End ScoreboardSync.

(** * The breaker across a call *)

Section BreakerAcrossCalls.
Import Espn.

Variables (c : ESPNClient) (net : Network) (config : RequestConfig).

Lemma gate_lets_through_closed (w w0 : World) :
  _isCircuitOpen w = (false, w0) -> isOpen (breaker w0) = false.
Proof.
  unfold _isCircuitOpen. destruct (isOpen (breaker w)) eqn:Hopen.
  - destruct (resetTimeout (breaker w) <? timeSinceLastFailure w); [|discriminate].
    now intros [= <-].
  - now intros [= <-].
Qed.

(** A call with no other request in flight is the call of [Espn]. *)
Lemma disturbed_alone (k : nat) (w : World) : Overlap.disturbed Overlap.alone k w = w.
Proof.
  destruct w as [t n cb]. unfold Overlap.disturbed. cbn. now rewrite Nat.add_0_r.
Qed.

Lemma fetchWithRetry_alone (retries : nat) :
  forall k w,
    Overlap._fetchWithRetry Overlap.alone c net config retries k w
    = _fetchWithRetry c net config retries w.
Proof.
  induction retries as [|r IH]; intros k w; cbn [Overlap._fetchWithRetry _fetchWithRetry];
    destruct (_isCircuitOpen w) as [[|] w0]; try reflexivity;
    unfold client_request;
    destruct (outcome (net (sent w0) config)) as [e|d];
    rewrite !disturbed_alone; try reflexivity.
  destruct (_isRetryable e); [|reflexivity]. apply IH.
Qed.

Section Others.

Variable others : Overlap.Others.

Lemma overlapped_success_resets (retries : nat) :
  forall k w w1 body,
    Overlap._fetchWithRetry others c net config retries k w = (inr body, w1) ->
    failureCount (breaker w1) = 0
    /\ ((forall j cb, isOpen (Overlap.on_breaker (others j) cb) = isOpen cb) ->
        isOpen (breaker w1) = false).
Proof.
  induction retries as [|r IH]; intros k w w1 body; cbn [Overlap._fetchWithRetry];
    destruct (_isCircuitOpen w) as [[|] w0] eqn:Hgate; try discriminate;
    pose proof (gate_lets_through_closed w w0 Hgate) as Hclosed;
    destruct (outcome (net (sent w0) config)) as [e|d].
  - discriminate.
  - intros [= _ <-]. cbn. split; [reflexivity|].
    intros Hflag. now rewrite !Hflag.
  - destruct (_isRetryable e); [|discriminate]. apply IH.
  - intros [= _ <-]. cbn. split; [reflexivity|].
    intros Hflag. now rewrite !Hflag.
Qed.

(** The writes of the client, one by one, on a sound breaker. *)

Lemma kept_refl cb : Overlap.sound cb = true -> Overlap.kept cb cb.
Proof. unfold Overlap.kept. auto. Qed.

Lemma kept_trans cb1 cb2 cb3 :
  Overlap.kept cb1 cb2 -> Overlap.kept cb2 cb3 -> Overlap.kept cb1 cb3.
Proof.
  unfold Overlap.kept. intros (_ & H1 & H2) (H3 & H4 & H5). repeat split; congruence.
Qed.

Lemma sound_spec cb :
  Overlap.sound cb = true
  <-> 0 <= failureCount cb
      /\ (isOpen cb = false -> failureCount cb < threshold cb)
      /\ (isOpen cb = true -> lastFailureTime cb <> None).
Proof.
  unfold Overlap.sound. rewrite !andb_true_iff, !orb_true_iff, Z.leb_le, Z.ltb_lt.
  destruct (isOpen cb), (lastFailureTime cb); cbn; intuition (try discriminate; try lia).
Qed.

Lemma gate_kept (w : World) :
  0 < threshold (breaker w) ->
  Overlap.sound (breaker w) = true ->
  Overlap.kept (breaker w) (breaker (snd (_isCircuitOpen w))).
Proof.
  intros Hpos Hco. unfold _isCircuitOpen.
  destruct (isOpen (breaker w)) eqn:Hopen; [|now apply kept_refl].
  destruct (resetTimeout (breaker w) <? timeSinceLastFailure w); [|now apply kept_refl].
  unfold Overlap.kept. cbn [snd breaker with_breaker threshold resetTimeout].
  split; [|split; reflexivity].
  apply sound_spec. cbn. repeat split; [lia | lia | discriminate].
Qed.

Lemma handleError_kept (e : AxiosError) (w : World) :
  Overlap.sound (breaker w) = true ->
  Overlap.kept (breaker w) (breaker (_handleError e w)).
Proof.
  intros Hco. unfold _handleError.
  destruct (response e); [|now apply kept_refl].
  unfold Overlap.kept. cbn [breaker with_breaker threshold resetTimeout].
  split; [|split; reflexivity].
  apply sound_spec in Hco as (Hpos & Hclosed & Hopen).
  apply sound_spec. cbn.
  destruct (Z.leb_spec (threshold (breaker w)) (failureCount (breaker w) + 1));
    repeat split; try lia; try discriminate.
Qed.

Lemma reset_kept (w : World) :
  0 < threshold (breaker w) ->
  Overlap.sound (breaker w) = true ->
  Overlap.kept (breaker w) (breaker (reset_failureCount w)).
Proof.
  intros Hpos Hco. unfold Overlap.kept.
  cbn [breaker reset_failureCount with_breaker threshold resetTimeout].
  split; [|split; reflexivity].
  apply sound_spec in Hco as (_ & _ & Hopen).
  apply sound_spec. cbn. repeat split; [lia | lia | exact Hopen].
Qed.

Hypothesis Hcareful : Overlap.careful others.

Lemma disturbed_kept (k : nat) (w : World) :
  0 < threshold (breaker w) ->
  Overlap.sound (breaker w) = true ->
  Overlap.kept (breaker w) (breaker (Overlap.disturbed others k w)).
Proof. intros Hpos Hco. now apply Hcareful. Qed.

(** One step after another: the threshold stays positive along the way. *)
Lemma kept_step (cb0 cb1 cb2 : CircuitBreaker) :
  0 < threshold cb0 ->
  Overlap.kept cb0 cb1 ->
  (0 < threshold cb1 -> Overlap.sound cb1 = true -> Overlap.kept cb1 cb2) ->
  Overlap.kept cb0 cb2.
Proof.
  intros Hpos Hk Hstep. apply (kept_trans _ cb1); [exact Hk|].
  destruct Hk as (Hs & Ht & _). apply Hstep; [lia | exact Hs].
Qed.

Lemma overlapped_call_kept (retries : nat) :
  forall k w,
    0 < threshold (breaker w) ->
    Overlap.sound (breaker w) = true ->
    Overlap.kept (breaker w)
      (breaker (snd (Overlap._fetchWithRetry others c net config retries k w))).
Proof.
  induction retries as [|r IH]; intros k w Hpos Hco; cbn [Overlap._fetchWithRetry];
    pose proof (gate_kept w Hpos Hco) as Hgate;
    destruct (_isCircuitOpen w) as [[|] w0] eqn:Eg; cbn [snd] in Hgate |- *;
    try exact Hgate;
    assert (Hk1 : Overlap.kept (breaker w)
                    (breaker (Overlap.disturbed others k (answered net config w0))))
      by (apply (kept_step _ (breaker w0)); [exact Hpos | exact Hgate |];
          intros Hp Hs; exact (disturbed_kept k (answered net config w0) Hp Hs));
    assert (Hfail : forall e,
               Overlap.kept (breaker w)
                 (breaker (Overlap.disturbed others (k + 1)
                             (_handleError e
                                (Overlap.disturbed others k (answered net config w0))))))
      by (intros e;
          apply (kept_step _ _ _ Hpos
                   (kept_step _ _ _ Hpos Hk1
                      (fun _ Hs => handleError_kept e _ Hs)));
          intros Hp Hs; exact (disturbed_kept (k + 1) _ Hp Hs));
    assert (Hok : Overlap.kept (breaker w)
                    (breaker (reset_failureCount
                                (Overlap.disturbed others (k + 1)
                                   (Overlap.disturbed others k (answered net config w0))))))
      by (apply (kept_step _ _ _ Hpos
                   (kept_step _ _ _ Hpos Hk1
                      (fun Hp Hs => disturbed_kept (k + 1) _ Hp Hs)));
          intros Hp Hs; exact (reset_kept _ Hp Hs));
    destruct (outcome (net (sent w0) config)) as [e|d]; cbn [snd];
    try exact Hok; try exact (Hfail e).
  destruct (_isRetryable e); [|exact (Hfail e)].
  set (w2 := Overlap.disturbed others (k + 1)
               (_handleError e (Overlap.disturbed others k (answered net config w0)))).
  assert (Hk3 : Overlap.kept (breaker w)
                  (breaker (Overlap.disturbed others (k + 2) (_delay (retryDelay c) w2)))).
  { apply (kept_step _ _ _ Hpos (Hfail e)).
    intros Hp Hs. exact (disturbed_kept (k + 2) (_delay (retryDelay c) w2) Hp Hs). }
  apply (kept_step _ _ _ Hpos Hk3). intros Hp Hs. now apply IH.
Qed.

End Others.

End BreakerAcrossCalls.

(** X1. A call that resolves ends with the failure counter at 0, whatever
    the requests in flight beside it did to the breaker while it was
    suspended.  It does not write the open flag: the breaker is closed at
    the end when the other requests left the flag alone, as when the call
    is the only one in flight; and when the first attempt succeeds, the
    flag is what the other requests made of it meanwhile. *)
Theorem success_resets_the_counter :
  forall (others : Overlap.Others) (c : Espn.ESPNClient) (net : Espn.Network)
         (config : Espn.RequestConfig) (retries k : nat) (w w1 : Espn.World)
         (body : jsval),
    Overlap._fetchWithRetry others c net config retries k w = (inr body, w1) ->
    Espn.failureCount (Espn.breaker w1) = 0
    /\ ((forall j cb, Espn.isOpen (Overlap.on_breaker (others j) cb) = Espn.isOpen cb) ->
        Espn.isOpen (Espn.breaker w1) = false)
    /\ (Espn.outcome (net (Espn.sent (snd (Espn._isCircuitOpen w))) config) = inr body ->
        Espn.isOpen (Espn.breaker w1)
        = Espn.isOpen
            (Overlap.on_breaker (others (k + 1)%nat)
               (Overlap.on_breaker (others k)
                  (Espn.breaker (snd (Espn._isCircuitOpen w))))))
    /\ (others = Overlap.alone ->
        Espn._fetchWithRetry c net config retries w = (inr body, w1)
        /\ Espn.isOpen (Espn.breaker w1) = false).
Proof.
  intros others c net config retries k w w1 body Hrun.
  destruct (overlapped_success_resets c net config others retries k w w1 body Hrun)
    as (Hcount & Hflag).
  split; [exact Hcount|]. split; [exact Hflag|]. split.
  - intros Hfirst. revert Hrun.
    destruct retries as [|r]; cbn [Overlap._fetchWithRetry];
      destruct (Espn._isCircuitOpen w) as [[|] w0]; try discriminate;
      cbn [snd] in Hfirst; rewrite Hfirst; now intros [= <-].
  - intros ->. split.
    + now rewrite <- (fetchWithRetry_alone c net config retries k w).
    + apply Hflag. reflexivity.
Qed.

Lemma success_resets_the_counter_witness :
  let w1 := snd (Overlap._fetchWithRetry Scenario.failing_alongside Espn.espnClient
                   (Sample.answering (JObj [("events", JArr [])]))
                   Sample.scoreboard_request 3 0 Sample.strained) in
  Espn.failureCount (Espn.breaker w1) = 0 /\ Espn.isOpen (Espn.breaker w1) = true.
Proof.
  cbn zeta.
  destruct (success_resets_the_counter Scenario.failing_alongside Espn.espnClient
              (Sample.answering (JObj [("events", JArr [])]))
              Sample.scoreboard_request 3 0 Sample.strained _
              (JObj [("events", JArr [])]) eq_refl) as (Hcount & _ & Hflag & _).
  split; [exact Hcount | exact (eq_trans (Hflag eq_refl) eq_refl)].
Defined.

(** What other requests do to the breaker, they do with the writes of the
    client. *)
Lemma writes_are_careful (ws : nat -> list Overlap.Write) (issued : nat -> nat) :
  Overlap.careful (Overlap.of_writes ws issued).
Proof.
  intros k cb. unfold Overlap.of_writes. cbn [Overlap.on_breaker].
  generalize (ws k) as l. intros l. revert cb.
  induction l as [|x l IH]; intros cb Hpos Hs; [now apply kept_refl|].
  cbn [fold_left].
  assert (Hx : Overlap.kept cb (Overlap.write x cb)).
  { destruct x as [t|e t|]; cbn [Overlap.write].
    - exact (gate_kept {| Espn.now := t; Espn.sent := 0; Espn.breaker := cb |} Hpos Hs).
    - exact (handleError_kept e {| Espn.now := t; Espn.sent := 0; Espn.breaker := cb |} Hs).
    - exact (reset_kept {| Espn.now := 0; Espn.sent := 0; Espn.breaker := cb |} Hpos Hs). }
  apply (kept_step cb _ _ Hpos Hx). intros Hp Hs'. now apply IH.
Qed.

(** X2. The breaker stays sound.  On a breaker with a positive threshold
    whose counter is not negative, which when closed has not reached its
    threshold and when open remembers its last failure, a call and a
    health check leave a breaker of which the same is true, with the
    threshold and the cooldown untouched; and so when other requests of
    the client write the breaker, at any time and in any number, while the
    call is suspended. *)
Theorem breaker_stays_sound :
  forall (ws : nat -> list Overlap.Write) (issued : nat -> nat)
         (c : Espn.ESPNClient) (net : Espn.Network)
         (config : Espn.RequestConfig) (retries k : nat) (w : Espn.World),
    0 < Espn.threshold (Espn.breaker w) ->
    Overlap.sound (Espn.breaker w) = true ->
    let others := Overlap.of_writes ws issued in
    Overlap.kept (Espn.breaker w)
      (Espn.breaker (snd (Overlap._fetchWithRetry others c net config retries k w)))
    /\ Overlap.kept (Espn.breaker w)
         (Espn.breaker (snd (Overlap.healthCheck others c net w)))
    /\ Overlap.kept (Espn.breaker w)
         (Espn.breaker (snd (Espn._fetchWithRetry c net config retries w)))
    /\ Overlap.kept (Espn.breaker w) (Espn.breaker (snd (Espn.healthCheck c net w))).
Proof.
  intros ws issued c net config retries k w Hpos Hco. cbn zeta.
  pose proof (writes_are_careful ws issued) as Hcareful.
  assert (Halone : Overlap.careful Overlap.alone).
  { intros j cb _ Hs. now apply kept_refl. }
  assert (Hhealth : forall others', Overlap.careful others' ->
            Overlap.kept (Espn.breaker w)
              (Espn.breaker (snd (Overlap.healthCheck others' c net w)))).
  { intros others' Hc'. unfold Overlap.healthCheck.
    pose proof (gate_kept w Hpos Hco) as Hgate.
    destruct (Espn._isCircuitOpen w) as [[|] w0] eqn:Eg; cbn [snd] in Hgate |- *;
      [exact Hgate|].
    assert (Hk : Overlap.kept (Espn.breaker w)
                   (Espn.breaker (snd (Overlap._fetchWithRetry others' c net
                                         Espn.health_request (Espn.maxRetries c) 1 w0)))).
    { apply (kept_step _ _ _ Hpos Hgate). intros Hp Hs.
      now apply overlapped_call_kept. }
    destruct (Overlap._fetchWithRetry others' c net Espn.health_request
                (Espn.maxRetries c) 1 w0) as [[err|d] w1]; cbn [snd] in Hk |- *;
      (apply (kept_step _ _ _ Hpos Hk); intros Hp Hs; now apply Hc'). }
  split; [now apply overlapped_call_kept|]. split; [now apply Hhealth|]. split.
  - rewrite <- (fetchWithRetry_alone c net config retries 0 w).
    now apply overlapped_call_kept.
  - specialize (Hhealth Overlap.alone Halone). revert Hhealth.
    unfold Overlap.healthCheck, Espn.healthCheck.
    destruct (Espn._isCircuitOpen w) as [[|] w0]; [trivial|].
    rewrite fetchWithRetry_alone.
    destruct (Espn._fetchWithRetry c net Espn.health_request (Espn.maxRetries c) w0)
      as [[err|d] w1]; cbn [snd]; now rewrite disturbed_alone.
Qed.

Lemma breaker_stays_sound_witness :
  Overlap.kept (Espn.breaker Sample.strained)
    (Espn.breaker (snd (Overlap._fetchWithRetry Scenario.failing_alongside
                          Espn.espnClient (Sample.failing (Sample.http_error 503))
                          Sample.scoreboard_request 3 0 Sample.strained)))
  /\ Overlap.kept (Espn.breaker Sample.strained)
       (Espn.breaker (snd (Espn.healthCheck Espn.espnClient
                             (Sample.failing (Sample.http_error 503)) Sample.strained))).
Proof.
  destruct (breaker_stays_sound
              (fun _ => [Overlap.Failure (Sample.http_error 503) 9010]) (fun _ => 1%nat)
              Espn.espnClient (Sample.failing (Sample.http_error 503))
              Sample.scoreboard_request 3 0 Sample.strained
              eq_refl eq_refl) as (Hcall & _ & _ & Hhealth).
  split; [exact Hcall | exact Hhealth].
Defined.

(** X3. The failure that trips the breaker is not what the caller sees.
    When an attempt fails with a retryable HTTP status that brings the
    counter to the threshold, a retry is left, and the pause before it is
    no longer than the cooldown, the call throws the gate's "circuit
    breaker is open" in place of the upstream error, after that single
    request. *)
Theorem tripping_failure_is_masked :
  forall (c : Espn.ESPNClient) (net : Espn.Network) (config : Espn.RequestConfig)
         (r : nat) (w : Espn.World) (e : Espn.AxiosError) (status : Z),
    Espn.isOpen (Espn.breaker w) = false ->
    Espn.outcome (net (Espn.sent w) config) = inl e ->
    Espn.response e = Some status ->
    Espn._isRetryable e = true ->
    Espn.threshold (Espn.breaker w) <= Espn.failureCount (Espn.breaker w) + 1 ->
    Espn.retryDelay c <= Espn.resetTimeout (Espn.breaker w) ->
    let run := Espn._fetchWithRetry c net config (S r) w in
    fst run = inl Espn.CircuitOpen
    /\ Espn.sent (snd run) = S (Espn.sent w)
    /\ Espn.isOpen (Espn.breaker (snd run)) = true
    /\ Espn.failureCount (Espn.breaker (snd run)) = Espn.failureCount (Espn.breaker w) + 1.
Proof.
  intros c net config r w e status Hclosed He Hstatus Hretry Htrip Hpause. cbn zeta.
  rewrite (fetchWithRetry_retries c net config r w w e
             (isCircuitOpen_closed w Hclosed) He Hretry).
  set (w1 := Espn._delay (Espn.retryDelay c)
               (Espn._handleError e (Espn.answered net config w))).
  assert (Hopen : Espn.isOpen (Espn.breaker w1) = true).
  { unfold w1, Espn._handleError. rewrite Hstatus. cbn.
    destruct (Z.leb_spec (Espn.threshold (Espn.breaker w))
                (Espn.failureCount (Espn.breaker w) + 1)); [reflexivity | lia]. }
  assert (Hcool : Espn.timeSinceLastFailure w1 <= Espn.resetTimeout (Espn.breaker w1)).
  { unfold w1, Espn._handleError, Espn.timeSinceLastFailure. rewrite Hstatus. cbn. lia. }
  assert (Hgate : Espn._fetchWithRetry c net config r w1 = (inl Espn.CircuitOpen, w1)).
  { destruct r; cbn [Espn._fetchWithRetry];
      now rewrite (isCircuitOpen_within_cooldown w1 Hopen Hcool). }
  rewrite Hgate. cbn [fst snd].
  split; [reflexivity|]. split; [|split; [exact Hopen|]].
  - unfold w1, Espn._handleError. rewrite Hstatus. reflexivity.
  - unfold w1, Espn._handleError. rewrite Hstatus. reflexivity.
Qed.

Lemma tripping_failure_is_masked_witness :
  let run := Espn._fetchWithRetry Espn.espnClient (Sample.failing (Sample.http_error 503))
               Sample.scoreboard_request 3 Sample.strained in
  fst run = inl Espn.CircuitOpen
  /\ Espn.sent (snd run) = S (Espn.sent Sample.strained)
  /\ Espn.isOpen (Espn.breaker (snd run)) = true
  /\ Espn.failureCount (Espn.breaker (snd run))
     = Espn.failureCount (Espn.breaker Sample.strained) + 1.
Proof.
  apply (tripping_failure_is_masked Espn.espnClient
           (Sample.failing (Sample.http_error 503)) Sample.scoreboard_request 2
           Sample.strained (Sample.http_error 503) 503);
    [reflexivity | reflexivity | reflexivity | reflexivity | cbn; lia | cbn; lia].
Defined.

(** * The retry loop of the odds client *)

Section OddsRetry.
Import Espn.

Variables (c : OddsClient.OddsClient) (net : Network) (config : RequestConfig).

Lemma handleError_counts_up (e : AxiosError) (w : World) :
  failureCount (breaker w) <= failureCount (breaker (_handleError e w))
  /\ resetTimeout (breaker (_handleError e w)) = resetTimeout (breaker w)
  /\ now (_handleError e w) = now w
  /\ (isOpen (breaker (_handleError e w)) = true ->
      isOpen (breaker w) = false ->
      lastFailureTime (breaker (_handleError e w)) = Some (now w)).
Proof.
  unfold _handleError. destruct (response e); cbn.
  - repeat split; try lia; auto.
  - repeat split; try lia. intros H1 H2. congruence.
Qed.

Lemma odds_counter_never_drops (retries : nat) :
  forall w,
    OddsClient.retryDelay c <= resetTimeout (breaker w) ->
    (isOpen (breaker w) = true -> timeSinceLastFailure w <= resetTimeout (breaker w)) ->
    failureCount (breaker w)
    <= failureCount (breaker (snd (OddsClient._fetchWithRetry c net config retries w))).
Proof.
  induction retries as [|r IH]; intros w Hpause Hcool.
  - cbn [OddsClient._fetchWithRetry].
    destruct (isOpen (breaker w)) eqn:Hopen.
    + rewrite (isCircuitOpen_within_cooldown w Hopen (Hcool eq_refl)). cbn. lia.
    + rewrite (isCircuitOpen_closed w Hopen). unfold client_request.
      destruct (outcome (net (sent w) config)) as [e|d]; cbn [snd].
      * pose proof (handleError_counts_up e (answered net config w)) as (H & _).
        exact H.
      * cbn. lia.
  - cbn [OddsClient._fetchWithRetry].
    destruct (isOpen (breaker w)) eqn:Hopen.
    + rewrite (isCircuitOpen_within_cooldown w Hopen (Hcool eq_refl)). cbn. lia.
    + rewrite (isCircuitOpen_closed w Hopen). unfold client_request.
      destruct (outcome (net (sent w) config)) as [e|d]; cbn [snd]; [|cbn; lia].
      pose proof (handleError_counts_up e (answered net config w))
        as (Hup & Hrt & Hnow & Hlast).
      cbn in Hup, Hrt, Hnow, Hlast.
      destruct (Odds._shouldRetry e); cbn [snd]; [|exact Hup].
      etransitivity; [exact Hup|].
      apply (IH (_delay (OddsClient.retryDelay c)
                   (_handleError e (answered net config w)))).
      * cbn. rewrite Hrt. exact Hpause.
      * cbn. intros Hnowopen. unfold timeSinceLastFailure. cbn.
        rewrite (Hlast Hnowopen Hopen), Hrt, Hnow. cbn. lia.
Qed.

End OddsRetry.

(** X4. The odds client never forgets a failure while its breaker is
    closed.  A call that starts on a closed breaker (with a pause between
    attempts no longer than the cooldown) never lowers the failure counter,
    whether it resolves or throws; in particular a call answered at its
    first attempt leaves the breaker exactly as it found it, where the
    scores client resets the counter to zero. *)
Theorem odds_failures_accumulate :
  forall (c : OddsClient.OddsClient) (net : Espn.Network) (config : Espn.RequestConfig)
         (retries : nat) (w : Espn.World),
    Espn.isOpen (Espn.breaker w) = false ->
    OddsClient.retryDelay c <= Espn.resetTimeout (Espn.breaker w) ->
    let run := OddsClient._fetchWithRetry c net config retries w in
    Espn.failureCount (Espn.breaker w) <= Espn.failureCount (Espn.breaker (snd run))
    /\ (forall body,
          Espn.outcome (net (Espn.sent w) config) = inr body ->
          fst run = inr body /\ Espn.breaker (snd run) = Espn.breaker w).
Proof.
  intros c net config retries w Hclosed Hpause. cbn zeta. split.
  - apply odds_counter_never_drops; [exact Hpause|]. rewrite Hclosed. discriminate.
  - intros body Hbody.
    destruct retries; cbn [OddsClient._fetchWithRetry];
      rewrite (isCircuitOpen_closed w Hclosed); unfold Espn.client_request;
      rewrite Hbody; cbn; auto.
Qed.

Lemma odds_failures_accumulate_witness :
  let w := {| Espn.now := 9000; Espn.sent := 2;
              Espn.breaker :=
                {| Espn.isOpen := false; Espn.failureCount := 2;
                   Espn.lastFailureTime := Some 8000;
                   Espn.threshold := 3; Espn.resetTimeout := 60000 |} |} in
  let run := OddsClient._fetchWithRetry (OddsClient.oddsClient "key")
               Scenario.recovering Sample.scoreboard_request 2 w in
  Espn.failureCount (Espn.breaker w) <= Espn.failureCount (Espn.breaker (snd run))
  /\ (forall body,
        Espn.outcome (Scenario.recovering (Espn.sent w) Sample.scoreboard_request)
        = inr body ->
        fst run = inr body /\ Espn.breaker (snd run) = Espn.breaker w).
Proof.
  apply (odds_failures_accumulate (OddsClient.oddsClient "key") Scenario.recovering
           Sample.scoreboard_request 2); [reflexivity | cbn; lia].
Defined.

(** * League codes *)

Section Leagues.

Lemma lower_upper_char (c : ascii) :
  League.lower_char (Js.upper_char c) = League.lower_char c.
Proof. destruct c as [[] [] [] [] [] [] [] []]; reflexivity. Qed.

Lemma toLowerCase_toUpperCase (s : string) :
  League.toLowerCase (Js.toUpperCase s) = League.toLowerCase s.
Proof.
  induction s as [|c s IH]; [reflexivity|].
  cbn [Js.toUpperCase League.toLowerCase]. now rewrite lower_upper_char, IH.
Qed.

(** X5. Every league code the routes accept is one the scores client has
    a path for, and the name the client gives it is the upper-cased
    code. *)
Theorem valid_leagues_have_paths :
  forall league : string,
    League.validateLeague league = true ->
    (exists path,
       League._getLeaguePath league = League.Path path
       /\ Espn.league_entry league Espn.LEAGUE_CONFIG
          = Some (path, Espn.league_name league))
    /\ Espn.league_name league = Js.toUpperCase league.
Proof.
  intros league. unfold League.validateLeague, League.validLeagues. cbn [existsb].
  repeat match goal with
         | |- context [String.eqb league ?k] =>
             destruct (String.eqb_spec league k) as [->|?];
             [intros _; split; [eexists; split; reflexivity | reflexivity]|]
         end.
  cbn. discriminate.
Qed.

Lemma valid_leagues_have_paths_witness :
  (exists path,
     League._getLeaguePath "ncaab" = League.Path path
     /\ Espn.league_entry "ncaab" Espn.LEAGUE_CONFIG
        = Some (path, Espn.league_name "ncaab"))
  /\ Espn.league_name "ncaab" = Js.toUpperCase "ncaab".
Proof. apply (valid_leagues_have_paths "ncaab"). reflexivity. Defined.

(** X6. The scores client and the teams repository name a league alike.
    For every code that is not a member inherited from [Object.prototype],
    the [league] of a normalised game and the [league] column of the team
    created from it are the same text; and the path the client resolves
    does not depend on the letter case of the code. *)
Theorem league_names_agree :
  forall sport : string,
    League.inherited sport = false ->
    Repo._getLeagueName sport = Some (JStr (Espn.league_name sport))
    /\ (forall path,
          League._getLeaguePath sport = League.Path path ->
          League._getLeaguePath (Js.toUpperCase sport) = League.Path path).
Proof.
  intros sport Hown. split.
  - unfold Repo._getLeagueName, Espn.league_name, Espn.LEAGUE_CONFIG, Js.inherited_name.
    cbn [Espn.league_entry].
    change (Js.inherited sport) with (League.inherited sport). rewrite Hown.
    repeat match goal with
           | |- context [String.eqb sport ?k] =>
               destruct (String.eqb_spec sport k) as [->|?]; try reflexivity
           end.
    all: vm_compute in Hown; discriminate Hown.
  - intros path. unfold League._getLeaguePath. rewrite toLowerCase_toUpperCase.
    destruct (Espn.league_entry _ _) as [[p n]|]; [trivial|].
    intros H. destruct (League.inherited (League.toLowerCase sport)); discriminate H.
Qed.

Lemma league_names_agree_witness :
  Repo._getLeagueName "wnba" = Some (JStr (Espn.league_name "wnba"))
  /\ (forall path,
        League._getLeaguePath "wnba" = League.Path path ->
        League._getLeaguePath (Js.toUpperCase "wnba") = League.Path path).
Proof. apply (league_names_agree "wnba"). reflexivity. Defined.

End Leagues.

(** * The error handler *)

Section ErrorHandler.
Import App.

Lemma prefix_append (a b : string) : String.prefix a (a ++ b) = true.
Proof.
  induction a as [|c a IH]; [now destruct b|].
  rewrite append_cons. cbn [String.prefix].
  destruct (Ascii.ascii_dec c c) as [_|Hne]; [exact IH | now destruct Hne].
Qed.

Lemma includes_inside (needle pre post : string) :
  includes needle (pre ++ needle ++ post) = true.
Proof.
  induction pre as [|c pre IH].
  - change ("" ++ needle ++ post)%string with (needle ++ post)%string.
    destruct (needle ++ post)%string eqn:E; cbn [includes];
      rewrite <- E, prefix_append; reflexivity.
  - change (String c pre ++ needle ++ post)%string
      with (String c (pre ++ needle ++ post)).
    cbn [includes]. rewrite IH. apply orb_true_r.
Qed.

(** X7. The error handler of the application is registered before every
    [/api] route, and Express hands an error only to a handler registered
    after the layer it comes from.  So an error that a layer passes to
    [next] reaches the handler exactly when the layer is one of the four
    registered before it, the body parsers, the request log and
    [/health]; an error from any other route, a rejection by the gate of a
    client included, is answered by Express itself.  From [/health] a
    message with the phrase "circuit breaker is open" is answered 503
    "Service temporarily unavailable" with the message, in every
    environment, as the errors of the gates of both clients are. *)
Theorem route_errors_bypass_the_handler :
  forall (node_env : option string) (message : string),
    (forall i : nat,
       Stack.on_error Stack.app node_env i message
       = if (i <? 4)%nat
         then Stack.FromHandler (errorHandler node_env message)
         else Stack.FromExpress)
    /\ (forall (i : nat) (method path : string),
          nth_error Stack.app i = Some (Stack.Route method path) ->
          path <> "/health" ->
          Stack.on_error Stack.app node_env i message = Stack.FromExpress)
    /\ (forall (i : nat) (pre post : string),
          nth_error Stack.app i = Some (Stack.Route "GET" "/health") ->
          Stack.on_error Stack.app node_env i (pre ++ "circuit breaker is open" ++ post)
          = Stack.FromHandler
              {| http_status := 503;
                 error := "Service temporarily unavailable";
                 error_detail := (pre ++ "circuit breaker is open" ++ post)%string |})
    /\ http_status (errorHandler node_env (Espn.error_message Espn.CircuitOpen)) = 503
    /\ http_status (errorHandler node_env
                      (OddsClient.error_message OddsClient.CircuitOpen)) = 503.
Proof.
  intros node_env message.
  assert (Hwhere : forall msg i,
             Stack.on_error Stack.app node_env i msg
             = if (i <? 4)%nat
               then Stack.FromHandler (errorHandler node_env msg)
               else Stack.FromExpress).
  { intros msg i. unfold Stack.on_error.
    do 18 (destruct i as [|i]; [reflexivity|]).
    now destruct i. }
  assert (H503 : forall a b,
             errorHandler node_env (a ++ "circuit breaker is open" ++ b)
             = {| http_status := 503;
                  error := "Service temporarily unavailable";
                  error_detail := (a ++ "circuit breaker is open" ++ b)%string |}).
  { intros a b. unfold errorHandler. rewrite includes_inside.
    destruct a; reflexivity. }
  split; [apply Hwhere|]. split; [|split; [|split]].
  - intros i method path Hlayer Hpath. rewrite Hwhere.
    destruct (Nat.ltb_spec i 4) as [Hi|_]; [|reflexivity].
    destruct i as [|[|[|[|i]]]]; try discriminate Hlayer; [|lia].
    injection Hlayer as _ <-. now destruct Hpath.
  - intros i pre post Hlayer. rewrite Hwhere, H503.
    do 18 (destruct i as [|i]; [first [discriminate Hlayer | reflexivity]|]).
    destruct i; discriminate Hlayer.
  - change (Espn.error_message Espn.CircuitOpen)
      with ("ESPN API " ++ "circuit breaker is open" ++ "")%string.
    now rewrite H503.
  - change (OddsClient.error_message OddsClient.CircuitOpen)
      with ("Odds API " ++ "circuit breaker is open" ++ "")%string.
    now rewrite H503.
Qed.

Lemma route_errors_bypass_the_handler_witness :
  Stack.on_error Stack.app (Some "production") 5
    (Espn.error_message Espn.CircuitOpen) = Stack.FromExpress
  /\ Stack.on_error Stack.app (Some "production") 3
       (Espn.error_message Espn.CircuitOpen)
     = Stack.FromHandler
         {| http_status := 503;
            error := "Service temporarily unavailable";
            error_detail := "ESPN API circuit breaker is open" |}.
Proof.
  destruct (route_errors_bypass_the_handler (Some "production")
              (Espn.error_message Espn.CircuitOpen)) as (_ & Hroute & Hhealth & _).
  split.
  - apply (Hroute 5%nat "GET" "/api/scores/:league"); [reflexivity | discriminate].
  - exact (Hhealth 3%nat "ESPN API " "" eq_refl).
Defined.

End ErrorHandler.

(** * Scores that carry points *)

Section IntegerScores.
Import Js.

Lemma digit_of_digit_char (d : Z) :
  0 <= d < 10 -> digit_of 10 (digit_char d) = Some d.
Proof.
  intros H.
  assert (C : d = 0 \/ d = 1 \/ d = 2 \/ d = 3 \/ d = 4 \/ d = 5 \/ d = 6
              \/ d = 7 \/ d = 8 \/ d = 9) by lia.
  repeat (destruct C as [-> | C]; [reflexivity|]).
  subst d. reflexivity.
Qed.

Lemma digits_decimal (fuel : nat) :
  forall (n : Z) (acc rest : string),
    0 <= n < 2 ^ Z.of_nat (S fuel) ->
    exists p, forall a,
      digits 10 (decimal (S fuel) n acc ++ rest) a
      = digits 10 (acc ++ rest)
          (Some (match a with Some x => x * p + n | None => n end)).
Proof.
  induction fuel as [|f IH]; intros n acc rest Hn.
  - exists 10. intros a. cbn [decimal].
    assert (Hsmall : n < 10) by (cbn in Hn; lia).
    destruct (Z.ltb_spec n 10); [|lia].
    rewrite append_cons. cbn [digits].
    rewrite Z.mod_small by lia. rewrite digit_of_digit_char by lia.
    destruct a; reflexivity.
  - cbn [decimal].
    assert (Hmod : 0 <= n mod 10 < 10) by (apply Z.mod_pos_bound; lia).
    destruct (Z.ltb_spec n 10) as [Hsmall|Hbig].
    + exists 10. intros a. rewrite append_cons. cbn [digits].
      rewrite digit_of_digit_char by lia. rewrite Z.mod_small by lia.
      destruct a; reflexivity.
    + assert (Hdiv : 0 <= n / 10 < 2 ^ Z.of_nat (S f)).
      { split; [apply Z.div_pos; lia|].
        apply Z.div_lt_upper_bound; [lia|].
        rewrite (Nat2Z.inj_succ (S f)), Z.pow_succ_r in Hn by lia. lia. }
      destruct (IH (n / 10) (String (digit_char (n mod 10)) acc) rest Hdiv) as [p Hp].
      exists (p * 10). intros a.
      change (decimal (S f) (n / 10) (String (digit_char (n mod 10)) acc))
        with (decimal (S f) (n / 10) (String (digit_char (n mod 10)) acc)).
      rewrite Hp. rewrite append_cons. cbn [digits].
      rewrite digit_of_digit_char by lia. f_equal. f_equal.
      pose proof (Z.div_mod n 10). destruct a; lia.
Qed.

(** What [parseInt] reads in a text that starts with a digit from 1 to 9:
    no white space, no sign, no hexadecimal prefix. *)
Lemma parseInt_string_positive (d : Z) (t : string) :
  1 <= d <= 9 ->
  parseInt_string (String (digit_char d) t)
  = digits 10 (String (digit_char d) t) None.
Proof.
  intros H.
  assert (C : d = 1 \/ d = 2 \/ d = 3 \/ d = 4 \/ d = 5 \/ d = 6
              \/ d = 7 \/ d = 8 \/ d = 9) by lia.
  unfold parseInt_string.
  assert (Hread : forall k,
             List.In k ["1"; "2"; "3"; "4"; "5"; "6"; "7"; "8"; "9"]%char ->
             (let t0 := trim_left (String k t) in
              let '(sign, t1) :=
                match t0 with
                | String "-" r => (-1, r)
                | String "+" r => (1, r)
                | _ => (1, t0)
                end in
              let '(radix, t2) :=
                match t1 with
                | String "0" (String "x" r) => (16, r)
                | String "0" (String "X" r) => (16, r)
                | _ => (10, t1)
                end in
              match digits radix t2 None with
              | Some m => Some (sign * m)
              | None => None
              end) = digits 10 (String k t) None).
  { intros k Hk. cbn [List.In] in Hk.
    repeat (destruct Hk as [<- | Hk];
            [cbn [trim_left];
             match goal with
             | |- context [is_space ?c] =>
                 let b := eval vm_compute in (is_space c) in
                 change (is_space c) with b
             end;
             cbn -[Z.mul digits]; destruct (digits 10 _ None) as [m|];
             [f_equal; lia | reflexivity]|]).
    destruct Hk. }
  apply Hread.
  repeat (destruct C as [-> | C]; [vm_compute; tauto|]).
  subst d. vm_compute; tauto.
Qed.

Lemma parseInt_string_negative (d : Z) (t : string) :
  1 <= d <= 9 ->
  parseInt_string (String "-" (String (digit_char d) t))
  = match digits 10 (String (digit_char d) t) None with
    | Some m => Some (- m)
    | None => None
    end.
Proof.
  intros H.
  assert (C : d = 1 \/ d = 2 \/ d = 3 \/ d = 4 \/ d = 5 \/ d = 6
              \/ d = 7 \/ d = 8 \/ d = 9) by lia.
  unfold parseInt_string.
  assert (Hread : forall k,
             List.In k ["1"; "2"; "3"; "4"; "5"; "6"; "7"; "8"; "9"]%char ->
             (let t0 := trim_left (String "-" (String k t)) in
              let '(sign, t1) :=
                match t0 with
                | String "-" r => (-1, r)
                | String "+" r => (1, r)
                | _ => (1, t0)
                end in
              let '(radix, t2) :=
                match t1 with
                | String "0" (String "x" r) => (16, r)
                | String "0" (String "X" r) => (16, r)
                | _ => (10, t1)
                end in
              match digits radix t2 None with
              | Some m => Some (sign * m)
              | None => None
              end)
             = match digits 10 (String k t) None with
               | Some m => Some (- m)
               | None => None
               end).
  { intros k Hk. cbn [List.In] in Hk.
    repeat (destruct Hk as [<- | Hk];
            [cbn [trim_left];
             match goal with
             | |- context [is_space ?c] =>
                 let b := eval vm_compute in (is_space c) in
                 change (is_space c) with b
             end;
             cbn -[Z.mul digits]; destruct (digits 10 _ None) as [m|];
             [f_equal; lia | reflexivity]|]).
    destruct Hk. }
  apply Hread.
  repeat (destruct C as [-> | C]; [vm_compute; tauto|]).
  subst d. vm_compute; tauto.
Qed.

Lemma digits_Z_to_string (n : Z) :
  0 <= n ->
  digits 10 (decimal (S (Z.to_nat (Z.log2 n))) n "") None = Some n.
Proof.
  intros Hn.
  destruct (digits_decimal (Z.to_nat (Z.log2 n)) n "" "" (log2_fuel n Hn)) as [p Hp].
  specialize (Hp None). rewrite append_nil_r in Hp. rewrite Hp. reflexivity.
Qed.

Lemma parseInt_Z_to_string (n : Z) : parseInt_string (Z_to_string n) = Some n.
Proof.
  unfold Z_to_string. destruct (Z.ltb_spec n 0) as [Hneg|Hpos].
  - assert (Hn : 0 <= - n) by lia.
    destruct (decimal_head (S (Z.to_nat (Z.log2 (- n)))) (- n) "") as (d & t & Hd & E).
    { pose proof (log2_fuel (- n) Hn). lia. }
    pose proof (digits_Z_to_string (- n) Hn) as Hdigits.
    rewrite E in Hdigits |- *.
    rewrite (parseInt_string_negative d t Hd), Hdigits. f_equal. lia.
  - destruct (Z.eq_dec n 0) as [->|Hnz]; [reflexivity|].
    destruct (decimal_head (S (Z.to_nat (Z.log2 n))) n "") as (d & t & Hd & E).
    { pose proof (log2_fuel n Hpos). lia. }
    pose proof (digits_Z_to_string n Hpos) as Hdigits.
    rewrite E in Hdigits |- *.
    now rewrite (parseInt_string_positive d t Hd).
Qed.

End IntegerScores.

(** X8. An integer score other than 0 is kept.  [parseInt] reads the
    decimal notation of every integer back, so a side whose score is the
    safe integer [n], as a number or as its decimal text, normalises to
    the number [n] when [n] is not 0; with C10 this settles every integer
    score. *)
Theorem integer_scores_are_kept :
  forall (event : Espn.Event) (league side : string) (n : Z),
    n <> 0 ->
    - Json.MAX_SAFE_INTEGER <= n <= Json.MAX_SAFE_INTEGER ->
    Score.score_of side event = Some (JNum n)
    \/ Score.score_of side event = Some (JStr (Js.Z_to_string n)) ->
    Js.parseInt_string (Js.Z_to_string n) = Some n
    /\ Espn.side_score (Espn.normalizeSide (Espn.competitor_of side event)) = JNum n
    /\ (side = "home" ->
        Espn.side_score (Espn.homeTeam (Espn._normalizeGameData event league)) = JNum n)
    /\ (side = "away" ->
        Espn.side_score (Espn.awayTeam (Espn._normalizeGameData event league)) = JNum n).
Proof.
  intros event league side n Hnz _ Hscore.
  pose proof (parseInt_Z_to_string n) as Hread.
  assert (Hside : Espn.side_score (Espn.normalizeSide (Espn.competitor_of side event))
                  = JNum n).
  { unfold Espn.normalizeSide. cbn [Espn.side_score].
    unfold Score.score_of in Hscore.
    assert (Hparse : Js.parseInt (Espn.competitor_of side event ≫= Espn.score) = Some n).
    { destruct Hscore as [-> | ->]; exact Hread. }
    rewrite Hparse. cbn. destruct (Z.eqb_spec n 0); [contradiction | reflexivity]. }
  split; [exact Hread|]. split; [exact Hside|].
  split; intros ->; exact Hside.
Qed.

Lemma integer_scores_are_kept_witness :
  Js.parseInt_string (Js.Z_to_string 112) = Some 112
  /\ Espn.side_score
       (Espn.normalizeSide
          (Espn.competitor_of "home" (Score.rescore (fun _ => Some (JStr "112")) Sample.tipoff)))
     = JNum 112
  /\ ("home" = "home" ->
      Espn.side_score
        (Espn.homeTeam
           (Espn._normalizeGameData
              (Score.rescore (fun _ => Some (JStr "112")) Sample.tipoff) "nba"))
      = JNum 112)
  /\ ("home" = "away" ->
      Espn.side_score
        (Espn.awayTeam
           (Espn._normalizeGameData
              (Score.rescore (fun _ => Some (JStr "112")) Sample.tipoff) "nba"))
      = JNum 112).
Proof.
  apply (integer_scores_are_kept
           (Score.rescore (fun _ => Some (JStr "112")) Sample.tipoff) "nba" "home" 112);
    [lia | vm_compute; split; discriminate | right; reflexivity].
Defined.

(** * Cache keys *)

Section CacheKeys.
Import Cache.

Lemma keep_char_underscore : keep_char "_" = true.
Proof. reflexivity. Qed.

Lemma keep_char_kept (c : ascii) :
  keep_char (if keep_char c then c else "_"%char) = true.
Proof. destruct (keep_char c) eqn:E; [exact E | reflexivity]. Qed.

(** The characters of a text. *)
Lemma sanitize_chars (s : string) :
  forallb keep_char (list_ascii_of_string (sanitize s)) = true.
Proof.
  induction s as [|c s IH]; [reflexivity|].
  cbn [sanitize list_ascii_of_string forallb]. now rewrite keep_char_kept, IH.
Qed.

Lemma sanitize_plain (s : string) :
  forallb keep_char (list_ascii_of_string s) = true -> sanitize s = s.
Proof.
  induction s as [|c s IH]; [reflexivity|].
  cbn [sanitize list_ascii_of_string forallb].
  intros [Hc Hs]%andb_true_iff. now rewrite Hc, IH.
Qed.

(** X9. A sanitised part is plain.  Every character of a part of a cache
    key is a letter, a digit, [_] or [-] (so none is the separator [:] or
    a glob character), the part keeps its length, a plain part is left as
    it is, and sanitising twice changes nothing more. *)
Theorem sanitized_parts_are_plain :
  forall s : string,
    forallb keep_char (list_ascii_of_string (sanitize s)) = true
    /\ String.length (sanitize s) = String.length s
    /\ sanitize (sanitize s) = sanitize s
    /\ (forall c, In c (list_ascii_of_string (sanitize s)) ->
                  c <> ":"%char /\ c <> "*"%char /\ c <> "?"%char /\ c <> "["%char).
Proof.
  intros s. pose proof (sanitize_chars s) as Hplain.
  split; [exact Hplain|]. split; [|split].
  - induction s as [|c s IH]; [reflexivity|].
    cbn [sanitize String.length]. f_equal. apply IH. apply sanitize_chars.
  - apply sanitize_plain, Hplain.
  - intros c Hin.
    assert (Hc : keep_char c = true).
    { rewrite forallb_forall in Hplain. apply Hplain, Hin. }
    repeat split; intros ->; discriminate Hc.
Qed.

Lemma append_cancel (a x y : string) : (a ++ x = a ++ y)%string -> x = y.
Proof.
  induction a as [|c a IH]; [trivial|].
  rewrite !append_cons. intros [= H]. now apply IH.
Qed.

Lemma split_at_colon (p q x y : string) :
  Keys.plain p = true -> Keys.plain q = true ->
  (p ++ String ":" x = q ++ String ":" y)%string ->
  p = q /\ x = y.
Proof.
  revert q. induction p as [|a p IH]; intros [|b q] Hp Hq.
  - now intros [= ->].
  - change ("" ++ String ":" x)%string with (String ":" x).
    rewrite append_cons. intros [= <- _]. discriminate Hq.
  - change ("" ++ String ":" y)%string with (String ":" y).
    rewrite append_cons. intros [= -> _]. discriminate Hp.
  - rewrite !append_cons. intros [= -> H].
    unfold Keys.plain in Hp, Hq. cbn [list_ascii_of_string forallb] in Hp, Hq.
    apply andb_true_iff in Hp as [_ Hp]. apply andb_true_iff in Hq as [_ Hq].
    destruct (IH q Hp Hq H) as [-> ->]. auto.
Qed.

Lemma join_plain_inj (l1 : list string) :
  forall l2 : list string,
    List.length l1 = List.length l2 ->
    List.Forall (fun p => Keys.plain p = true) l1 ->
    List.Forall (fun p => Keys.plain p = true) l2 ->
    Js.join_with ":" l1 = Js.join_with ":" l2 ->
    l1 = l2.
Proof.
  induction l1 as [|p r1 IH]; intros [|q r2] Hlen H1 H2; try discriminate Hlen;
    [reflexivity|].
  inversion H1 as [|? ? Hp Hr1]; subst. inversion H2 as [|? ? Hq Hr2]; subst.
  injection Hlen as Hlen.
  destruct r1 as [|p' r1]; destruct r2 as [|q' r2]; try discriminate Hlen.
  - cbn [Js.join_with]. now intros ->.
  - change (Js.join_with ":" (p :: p' :: r1))
      with (p ++ String ":" (Js.join_with ":" (p' :: r1)))%string.
    change (Js.join_with ":" (q :: q' :: r2))
      with (q ++ String ":" (Js.join_with ":" (q' :: r2)))%string.
    intros Hjoin. destruct (split_at_colon _ _ _ _ Hp Hq Hjoin) as [-> Hrest].
    f_equal. apply IH; assumption.
Qed.

(** X10. A cache key determines its sanitised parts.  Two keys of one
    namespace built from as many parts are the same text only if the parts
    agree once sanitised: keys collide through [sanitize] alone, never
    through the way the parts are joined. *)
Theorem key_determines_its_parts :
  forall (namespace : string) (ps qs : list string),
    List.length ps = List.length qs ->
    generateCacheKey namespace ps = generateCacheKey namespace qs ->
    List.map sanitize ps = List.map sanitize qs.
Proof.
  intros namespace ps qs Hlen Hkey. unfold generateCacheKey in Hkey.
  apply append_cancel in Hkey. apply append_cancel in Hkey.
  apply join_plain_inj; [now rewrite !length_map | | | exact Hkey];
    apply List.Forall_forall; intros p Hin; apply in_map_iff in Hin as (x & <- & _);
    apply sanitize_chars.
Qed.

Lemma key_determines_its_parts_witness :
  List.map sanitize ["nba"; "/api/scores/nba"] = List.map sanitize ["nba"; "_api_scores_nba"].
Proof.
  apply (key_determines_its_parts "api" ["nba"; "/api/scores/nba"]
           ["nba"; "_api_scores_nba"]); reflexivity.
Defined.

End CacheKeys.

(** * The life of a cache entry *)

Section EntryLife.
Import Json Cache.

Lemma command_store {A : Type} faults r (run : gmap string Entry -> A * gmap string Entry) :
  store (snd (command faults r run)) = store r
  \/ store (snd (command faults r run)) = snd (run (store r)).
Proof.
  unfold command. destruct (faults (commands r)); [now left|].
  destruct (run (store r)). now right.
Qed.

Lemma set_store faults c r now key value ttl :
  store (snd (set faults c r now key value ttl)) = store r
  \/ exists e, text e = serialize value
               /\ store (snd (set faults c r now key value ttl)) = <[key := e]> (store r).
Proof.
  unfold set. destruct (unavailable c); [now left|].
  assert (Hset : forall _ : unit,
             store (snd (redis_set faults r key (serialize value))) = store r
             \/ store (snd (redis_set faults r key (serialize value)))
                = <[key := {| text := serialize value; expiry := None |}]> (store r)).
  { intros _. apply (command_store faults r). }
  destruct ttl as [seconds|].
  - destruct (seconds =? 0).
    + destruct (Hset tt) as [H|H];
        destruct (redis_set faults r key (serialize value)) as [[?|] r1];
        cbn [snd] in H |- *; rewrite H;
        first [left; reflexivity | right; eexists; split; [|reflexivity]; reflexivity].
    + unfold redis_setex. destruct (seconds <=? 0); [now left|].
      match goal with
      | |- context [command faults r ?f] =>
          destruct (command_store faults r f) as [H|H];
          destruct (command faults r f) as [[?|] r1]
      end; cbn [snd] in H |- *; rewrite H;
        first [left; reflexivity | right; eexists; split; [|reflexivity]; reflexivity].
  - destruct (Hset tt) as [H|H];
      destruct (redis_set faults r key (serialize value)) as [[?|] r1];
      cbn [snd] in H |- *; rewrite H;
        first [left; reflexivity | right; eexists; split; [|reflexivity]; reflexivity].
Qed.

Lemma del_store faults c r key :
  store (snd (del faults c r key)) = store r
  \/ store (snd (del faults c r key)) = delete key (store r).
Proof.
  unfold del. destruct (unavailable c); [now left|]. unfold redis_del.
  match goal with
  | |- context [command faults r ?f] =>
      destruct (command_store faults r f) as [H|H];
      destruct (command faults r f) as [[?|] r1]
  end; cbn [snd] in H |- *; rewrite H; auto.
Qed.

(** X11. [set] and [del] touch one key.  Whatever the connection and the
    faults, the entries under every other key are after [set(key, ...)],
    [del(key)] and a read what they were before; and once [del(key)] has
    resolved to [true], a read of the key gives [null] at any later
    time. *)
Theorem set_and_del_touch_one_key :
  forall (faults : Faults) (c : CacheClient) (r : Redis) (now : Z)
         (key other : string) (value : jsval) (ttl : option Z),
    other <> key ->
    store (snd (set faults c r now key value ttl)) !! other = store r !! other
    /\ store (snd (del faults c r key)) !! other = store r !! other
    /\ store (snd (get faults c r now key)) = store r
    /\ (fst (del faults c r key) = Resolved true ->
        forall faults' now',
          fst (get faults' c (snd (del faults c r key)) now' key) = Resolved JNull).
Proof.
  intros faults c r now key other value ttl Hne.
  split; [|split; [|split]].
  - destruct (set_store faults c r now key value ttl) as [-> | (e & _ & ->)];
      [reflexivity|]. now apply lookup_insert_ne.
  - destruct (del_store faults c r key) as [-> | ->]; [reflexivity|].
    now apply lookup_delete_ne.
  - unfold get. destruct (unavailable c); [reflexivity|]. unfold redis_get, command.
    destruct (faults (commands r)); [reflexivity|]. cbn.
    destruct (lookup_live (store r) now key) as [value'|]; [|reflexivity].
    destruct (String.eqb value' ""); [reflexivity|].
    destruct (JSON_parse value'); reflexivity.
  - intros Hdel faults' now'. apply get_absent.
    assert (Hgone : store (snd (del faults c r key)) !! key = None).
    { revert Hdel. unfold del. destruct (unavailable c); [discriminate|].
      unfold redis_del, command. destruct (faults (commands r)); [discriminate|].
      cbn. intros _. apply lookup_delete_eq. }
    unfold lookup_live. now rewrite Hgone.
Qed.

Lemma set_and_del_touch_one_key_witness :
  store (snd (set Sample.no_fault Sample.connected Sample.null_cached 1000
                "scores:nfl" (JNum 7) (Some 30))) !! "scores:nba"
  = store Sample.null_cached !! "scores:nba"
  /\ store (snd (del Sample.no_fault Sample.connected Sample.null_cached "scores:nfl"))
       !! "scores:nba"
     = store Sample.null_cached !! "scores:nba"
  /\ store (snd (get Sample.no_fault Sample.connected Sample.null_cached 1000 "scores:nfl"))
     = store Sample.null_cached
  /\ (fst (del Sample.no_fault Sample.connected Sample.null_cached "scores:nfl")
      = Resolved true ->
      forall faults' now',
        fst (get faults' Sample.connected
               (snd (del Sample.no_fault Sample.connected Sample.null_cached "scores:nfl"))
               now' "scores:nfl") = Resolved JNull).
Proof.
  apply (set_and_del_touch_one_key Sample.no_fault Sample.connected Sample.null_cached
           1000 "scores:nfl" "scores:nba" (JNum 7) (Some 30)).
  discriminate.
Defined.

(** X12. An entry lives as long as its TTL.  After [set(key, value, ttl)]
    with a positive TTL has reached the store, a read at or after
    [ttl] seconds gives [null]; a [set] with no TTL, or with a TTL of 0,
    stores an entry that never expires. *)
Theorem entry_lives_for_its_ttl :
  forall (faults : Faults) (c : CacheClient) (r : Redis) (now : Z)
         (key : string) (value : jsval),
    unavailable c = false ->
    faults (commands r) = false ->
    (forall seconds faults' now',
       0 < seconds ->
       now + seconds * 1000 <= now' ->
       fst (get faults' c (snd (set faults c r now key value (Some seconds))) now' key)
       = Resolved JNull)
    /\ (forall ttl now',
          ttl = None \/ ttl = Some 0 ->
          lookup_live (store (snd (set faults c r now key value ttl))) now' key
          = Some (serialize value)).
Proof.
  intros faults c r now key value Hup Hok. split.
  - intros seconds faults' now' Hpos Hlate.
    rewrite (set_stores faults c r now key value seconds Hup Hpos Hok).
    apply get_absent. cbn [snd store]. unfold lookup_live.
    rewrite lookup_insert_eq. unfold live. cbn [expiry].
    destruct (Z.ltb_spec now' (now + seconds * 1000)); [lia | reflexivity].
  - intros ttl now' Httl.
    assert (Hset : set faults c r now key value ttl
                   = (Resolved true,
                      {| store := <[key := {| text := serialize value; expiry := None |}]>
                                    (store r);
                         commands := S (commands r) |})).
    { unfold set. rewrite Hup. unfold redis_set.
      destruct Httl as [-> | ->]; cbn [Z.eqb];
        now rewrite (command_ok faults r _ Hok). }
    rewrite Hset. cbn [snd store]. unfold lookup_live.
    now rewrite lookup_insert_eq.
Qed.

Lemma entry_lives_for_its_ttl_witness :
  (forall seconds faults' now',
     0 < seconds ->
     1000 + seconds * 1000 <= now' ->
     fst (get faults' Sample.connected
            (snd (set Sample.no_fault Sample.connected Sample.empty_redis 1000
                    "scores:nba" (JNum 7) (Some seconds))) now' "scores:nba")
     = Resolved JNull)
  /\ (forall ttl now',
        ttl = None \/ ttl = Some 0 ->
        lookup_live
          (store (snd (set Sample.no_fault Sample.connected Sample.empty_redis 1000
                         "scores:nba" (JNum 7) ttl))) now' "scores:nba"
        = Some (serialize (JNum 7))).
Proof.
  apply (entry_lives_for_its_ttl Sample.no_fault Sample.connected Sample.empty_redis
           1000 "scores:nba" (JNum 7)); reflexivity.
Defined.

End EntryLife.

(** * Deleting by pattern *)

Section DeleteByPattern.
Import Json Cache.

Variable glob_match : string -> string -> bool.

(** The keys the KEYS command answers. *)
Lemma keys_answered (m : gmap string Entry) (now : Z) (pattern k : string) :
  In k (List.filter
          (fun k => glob_match pattern k
                    && match lookup_live m now k with Some _ => true | None => false end)
          (List.map fst (map_to_list m)))
  <-> glob_match pattern k = true /\ lookup_live m now k <> None.
Proof.
  rewrite filter_In, andb_true_iff. split.
  - intros (_ & Hg & Hl). split; [exact Hg|].
    destruct (lookup_live m now k); [discriminate | discriminate Hl].
  - intros (Hg & Hl). split; [|split; [exact Hg|]].
    + unfold lookup_live in Hl. destruct (m !! k) as [e|] eqn:E; [|contradiction].
      apply in_map_iff. exists (k, e). split; [reflexivity|].
      apply list_elem_of_In, elem_of_map_to_list, E.
    + destruct (lookup_live m now k); [reflexivity | contradiction].
Qed.

Lemma keys_answered_NoDup (m : gmap string Entry) (now : Z) (pattern : string) :
  List.NoDup
    (List.filter
       (fun k => glob_match pattern k
                 && match lookup_live m now k with Some _ => true | None => false end)
       (List.map fst (map_to_list m))).
Proof.
  apply List.NoDup_filter.
  assert (E : List.map fst (map_to_list m) = (map_to_list m).*1).
  { induction (map_to_list m) as [|x l IH]; [reflexivity|]. cbn. now f_equal. }
  rewrite E. apply NoDup_ListNoDup, NoDup_fst_map_to_list.
Qed.

(** What [delPattern] leaves of the store: all of it, or all but keys that
    match the pattern. *)
Lemma delPattern_store faults c r now pattern :
  store (snd (delPattern glob_match faults c r now pattern)) = store r
  \/ exists keys,
       (forall k, In k keys -> glob_match pattern k = true)
       /\ store (snd (delPattern glob_match faults c r now pattern))
          = foldr delete (store r) keys.
Proof.
  unfold delPattern. destruct (unavailable c); [now left|].
  unfold redis_keys.
  destruct (faults (commands r)) eqn:H0.
  { rewrite (command_fault faults r _ H0). now left. }
  rewrite (command_ok faults r _ H0). cbn [fst snd].
  pose proof (fun k => proj1 (keys_answered (store r) now pattern k)) as Hkeys.
  match goal with
  | |- context [match ?l with [] => _ | _ :: _ => _ end] => destruct l as [|k0 ks] eqn:E
  end; [now left|].
  unfold redis_del. cbn [commands].
  destruct (faults (S (commands r))) eqn:H1.
  { rewrite command_fault by exact H1. now left. }
  rewrite command_ok by exact H1. cbn [fst snd store].
  right. exists (k0 :: ks). split; [|reflexivity].
  intros k Hin. apply Hkeys, Hin.
Qed.

Lemma delPattern_frame faults c r now pattern k :
  glob_match pattern k = false ->
  store (snd (delPattern glob_match faults c r now pattern)) !! k = store r !! k.
Proof.
  intros Hno. destruct (delPattern_store faults c r now pattern) as [-> | (keys & Hm & ->)];
    [reflexivity|].
  apply lookup_foldr_delete_not_elem_of. intros Hin%list_elem_of_In.
  rewrite (Hm k Hin) in Hno. discriminate.
Qed.

Lemma delPattern_shrinks faults c r now pattern now' k :
  lookup_live (store r) now' k = None ->
  lookup_live (store (snd (delPattern glob_match faults c r now pattern))) now' k = None.
Proof.
  intros Hdead. destruct (delPattern_store faults c r now pattern) as [-> | (keys & _ & ->)];
    [exact Hdead|].
  unfold lookup_live in *.
  destruct (foldr delete (store r) keys !! k) as [e|] eqn:E; [|reflexivity].
  apply lookup_foldr_delete_Some in E as [_ E]. now rewrite E in Hdead.
Qed.

Lemma delPattern_clears faults c r now pattern k :
  unavailable c = false ->
  faults (commands r) = false ->
  faults (S (commands r)) = false ->
  glob_match pattern k = true ->
  lookup_live (store (snd (delPattern glob_match faults c r now pattern))) now k = None.
Proof.
  intros Hup Hok0 Hok1 Hmatch. unfold delPattern, redis_keys. rewrite Hup.
  rewrite (command_ok faults r _ Hok0). cbn [fst snd].
  pose proof (keys_answered (store r) now pattern k) as Hkeys.
  match goal with
  | |- context [match ?l with [] => _ | _ :: _ => _ end] =>
      destruct l as [|k0 ks] eqn:E
  end.
  - cbn [snd store].
    destruct (lookup_live (store r) now k) eqn:El; [|reflexivity].
    destruct (proj2 Hkeys). split; [exact Hmatch | discriminate].
  - unfold redis_del. rewrite command_ok by exact Hok1. cbn [fst snd store].
    destruct (lookup_live (store r) now k) eqn:El.
    + unfold lookup_live. rewrite lookup_foldr_delete; [reflexivity|].
      apply list_elem_of_In, Hkeys. split; [exact Hmatch | discriminate].
    + unfold lookup_live in *.
      destruct (foldr delete (store r) (k0 :: ks) !! k) as [e|] eqn:Ed; [|reflexivity].
      apply lookup_foldr_delete_Some in Ed as [_ Ed]. now rewrite Ed in El.
Qed.

(** X13. [delPattern] deletes the live keys that match, and nothing else.
    A key that does not match the pattern keeps its entry, whatever the
    connection and the faults.  With the store reachable, the call
    resolves to the number of live keys that match, and afterwards no key
    that matches is live. *)
Theorem delPattern_deletes_the_live_matches :
  forall (faults : Faults) (c : CacheClient) (r : Redis) (now : Z) (pattern : string),
    unavailable c = false ->
    faults (commands r) = false ->
    faults (S (commands r)) = false ->
    let run := delPattern glob_match faults c r now pattern in
    (exists keys,
       fst run = Resolved (Z.of_nat (List.length keys))
       /\ List.NoDup keys
       /\ forall k, In k keys
                    <-> glob_match pattern k = true /\ lookup_live (store r) now k <> None)
    /\ (forall k, glob_match pattern k = true ->
                  lookup_live (store (snd run)) now k = None)
    /\ (forall k, glob_match pattern k = false ->
                  store (snd run) !! k = store r !! k).
Proof.
  intros faults c r now pattern Hup Hok0 Hok1. cbn zeta.
  split; [|split].
  - eexists. split; [|split; [apply (keys_answered_NoDup (store r) now pattern)
                             | apply (keys_answered (store r) now pattern)]].
    unfold delPattern, redis_keys. rewrite Hup.
    rewrite (command_ok faults r _ Hok0). cbn [fst snd].
    match goal with
    | |- context [match ?l with [] => _ | _ :: _ => _ end] => destruct l as [|k0 ks]
    end; [reflexivity|].
    unfold redis_del. rewrite command_ok by exact Hok1. reflexivity.
  - intros k. now apply delPattern_clears.
  - intros k. apply delPattern_frame.
Qed.

End DeleteByPattern.

Lemma delPattern_deletes_the_live_matches_witness :
  let run := Cache.delPattern Scenario.prefix_glob Sample.no_fault Sample.connected
               Sample.null_cached 1000 "scores:" in
  (exists keys,
     fst run = Resolved (Z.of_nat (List.length keys))
     /\ List.NoDup keys
     /\ forall k, In k keys
                  <-> Scenario.prefix_glob "scores:" k = true
                      /\ Cache.lookup_live (Cache.store Sample.null_cached) 1000 k <> None)
  /\ (forall k, Scenario.prefix_glob "scores:" k = true ->
                Cache.lookup_live (Cache.store (snd run)) 1000 k = None)
  /\ (forall k, Scenario.prefix_glob "scores:" k = false ->
                Cache.store (snd run) !! k = Cache.store Sample.null_cached !! k).
Proof.
  apply (delPattern_deletes_the_live_matches Scenario.prefix_glob Sample.no_fault
           Sample.connected Sample.null_cached 1000 "scores:"); reflexivity.
Defined.

(** Keys outside the two patterns of [_clearSportCache] keep their
    entry. *)
Lemma clearSportCache_clears_two_patterns_frame
    (glob_match : string -> string -> bool) (sv : Repo.Services) (w : Repo.World)
    (sport k : string) :
  glob_match ("scores:" ++ sport ++ ":*") k = false ->
  glob_match ("games:" ++ sport ++ ":*") k = false ->
  Cache.store (Repo.redis (Repo._clearSportCache glob_match sv w sport)) !! k
  = Cache.store (Repo.redis w) !! k.
Proof.
  intros Hs Hg. unfold Repo._clearSportCache.
  pose proof (delPattern_frame glob_match (Repo.redis_faults sv) (Repo.cacheClient sv)
                (Repo.redis w) (Repo.clock sv) _ k Hs) as H1.
  destruct (Cache.delPattern glob_match (Repo.redis_faults sv) (Repo.cacheClient sv)
              (Repo.redis w) (Repo.clock sv) ("scores:" ++ sport ++ ":*")) as [n1 r1].
  pose proof (delPattern_frame glob_match (Repo.redis_faults sv) (Repo.cacheClient sv)
                r1 (Repo.clock sv) _ k Hg) as H2.
  destruct (Cache.delPattern glob_match (Repo.redis_faults sv) (Repo.cacheClient sv)
              r1 (Repo.clock sv) ("games:" ++ sport ++ ":*")) as [n2 r2].
  cbn [Repo.redis snd] in *. now rewrite H2, H1.
Qed.

(** X14. The sync clears its two patterns, and only those.  After
    [_clearSportCache(sport)] the relational store is as before and every
    key that matches neither [scores:<sport>:*] nor [games:<sport>:*]
    keeps its entry; with the cache reachable, no key that matches one of
    the two patterns is live any more. *)
Theorem clearSportCache_clears_two_patterns :
  forall (glob_match : string -> string -> bool) (sv : Repo.Services) (w : Repo.World)
         (sport : string),
    let scores := ("scores:" ++ sport ++ ":*")%string in
    let games := ("games:" ++ sport ++ ":*")%string in
    let w1 := Repo._clearSportCache glob_match sv w sport in
    Repo.db w1 = Repo.db w
    /\ (forall k,
          glob_match scores k = false ->
          glob_match games k = false ->
          Cache.store (Repo.redis w1) !! k = Cache.store (Repo.redis w) !! k)
    /\ (Cache.unavailable (Repo.cacheClient sv) = false ->
        (forall n, Repo.redis_faults sv n = false) ->
        forall k,
          glob_match scores k = true \/ glob_match games k = true ->
          Cache.lookup_live (Cache.store (Repo.redis w1)) (Repo.clock sv) k = None).
Proof.
  intros glob_match sv w sport. cbn zeta. unfold Repo._clearSportCache.
  destruct (Cache.delPattern glob_match (Repo.redis_faults sv) (Repo.cacheClient sv)
              (Repo.redis w) (Repo.clock sv) ("scores:" ++ sport ++ ":*"))
    as [n1 r1] eqn:E1.
  destruct (Cache.delPattern glob_match (Repo.redis_faults sv) (Repo.cacheClient sv)
              r1 (Repo.clock sv) ("games:" ++ sport ++ ":*"))
    as [n2 r2] eqn:E2.
  cbn [Repo.db Repo.redis].
  assert (Hr1 : r1 = snd (Cache.delPattern glob_match (Repo.redis_faults sv)
                            (Repo.cacheClient sv) (Repo.redis w) (Repo.clock sv)
                            ("scores:" ++ sport ++ ":*"))) by now rewrite E1.
  assert (Hr2 : r2 = snd (Cache.delPattern glob_match (Repo.redis_faults sv)
                            (Repo.cacheClient sv) r1 (Repo.clock sv)
                            ("games:" ++ sport ++ ":*"))) by now rewrite E2.
  split; [reflexivity|]. split.
  - intros k Hs Hg. rewrite Hr2, (delPattern_frame glob_match _ _ _ _ _ k Hg).
    rewrite Hr1. now apply delPattern_frame.
  - intros Hup Hok k [Hs | Hg].
    + rewrite Hr2. apply delPattern_shrinks. rewrite Hr1.
      now apply delPattern_clears.
    + rewrite Hr2. now apply delPattern_clears.
Qed.

Lemma clearSportCache_clears_two_patterns_witness :
  let w := {| Repo.redis := Sample.null_cached; Repo.db := Repo.db Sample.first_sighting |} in
  let w1 := Repo._clearSportCache Scenario.prefix_glob Sample.services w "nba" in
  Cache.store (Repo.redis w1) !! "scores:nba" = Cache.store (Repo.redis w) !! "scores:nba"
  /\ (forall k,
        Scenario.prefix_glob "scores:nba:*" k = true
        \/ Scenario.prefix_glob "games:nba:*" k = true ->
        Cache.lookup_live (Cache.store (Repo.redis w1)) 1000 k = None).
Proof.
  pose proof (clearSportCache_clears_two_patterns Scenario.prefix_glob Sample.services
                {| Repo.redis := Sample.null_cached; Repo.db := Repo.db Sample.first_sighting |}
                "nba") as (_ & Hframe & Hclear).
  split.
  - apply Hframe; reflexivity.
  - apply Hclear; [reflexivity | intros n; reflexivity].
Defined.

(** * The read-through helper without its cache *)

Section Degraded.
Import Cache.

(** X15. Without the cache every read goes upstream.  When the client is
    not connected, [getOrSet] invokes the fetch function exactly once,
    never contacts Redis, and completes as the fetch function does, with
    [cached: false] when it resolves. *)
Theorem getOrSet_without_cache :
  forall (St : Type) (env : string -> option string) (faults : Faults)
         (c : CacheClient) (r : Redis) (now : Z) (key : string)
         (fetchFn : St -> Fetched St) (dataType : string) (calls : nat) (s : St),
    unavailable c = true ->
    getOrSet env faults c r now key (counted fetchFn) dataType (calls, s)
    = (match fetched (fetchFn s) with
       | Resolved d => Resolved {| data := d; cached := false |}
       | Rejected e => Rejected e
       | Unmodelled => Unmodelled
       end,
       r, (S calls, fetch_world (fetchFn s))).
Proof.
  intros St env faults c r now key fetchFn dataType calls s Hdown.
  unfold getOrSet, get. rewrite Hdown. cbn.
  destruct (fetched (fetchFn s)) as [d| |]; try reflexivity.
  assert (Hset : set_at faults c r (now + fetch_took (fetchFn s)) key d
                   (ttl_for env dataType) = (Resolved false, r)).
  { unfold set_at, set. rewrite Hdown. now destruct (ttl_for env dataType). }
  now rewrite Hset.
Qed.

(** X16. A fetch that rejects is not cached.  On a miss, when the fetch
    function rejects, [getOrSet] rejects with the same error after that
    one call; it sends Redis nothing after the read and the store keeps
    its content, so the next call fetches again. *)
Theorem rejected_fetch_is_not_cached :
  forall (St : Type) (env : string -> option string) (faults : Faults)
         (c : CacheClient) (r : Redis) (now : Z) (key : string)
         (fetchFn : St -> Fetched St) (dataType : string) (calls : nat) (s : St)
         (e : string),
    fst (get faults c r now key) = Resolved JNull ->
    fetched (fetchFn s) = Rejected e ->
    let run := getOrSet env faults c r now key (counted fetchFn) dataType (calls, s) in
    run = (Rejected e, snd (get faults c r now key), (S calls, fetch_world (fetchFn s)))
    /\ store (snd (fst run)) = store r
    /\ (commands (snd (fst run)) <= S (commands r))%nat.
Proof.
  intros St env faults c r now key fetchFn dataType calls s e Hmiss Hrej. cbn zeta.
  assert (Hrun : getOrSet env faults c r now key (counted fetchFn) dataType (calls, s)
                 = (Rejected e, snd (get faults c r now key),
                    (S calls, fetch_world (fetchFn s)))).
  { unfold getOrSet. destruct (get faults c r now key) as [res r1].
    cbn [fst snd] in Hmiss |- *. subst res. cbn [not_null].
    unfold counted at 1. cbn [fetched snd]. rewrite Hrej. reflexivity. }
  rewrite Hrun. cbn [fst snd]. split; [reflexivity|].
  unfold get. destruct (unavailable c); [cbn; split; [reflexivity | lia]|].
  unfold redis_get, command. destruct (faults (commands r)); [cbn; split; [reflexivity | lia]|].
  cbn. destruct (lookup_live (store r) now key) as [value|]; [|cbn; split; [reflexivity | lia]].
  destruct (String.eqb value ""); [cbn; split; [reflexivity | lia]|].
  destruct (Json.JSON_parse value); cbn; split; try reflexivity; lia.
Qed.

End Degraded.

Lemma getOrSet_without_cache_witness :
  Cache.getOrSet Sample.no_env Sample.no_fault Sample.disconnected Sample.null_cached 1000
    "scores:nba" (Cache.counted (Sample.fetch_body (JNum 7))) "scores" (0%nat, tt)
  = (Resolved {| Cache.data := JNum 7; Cache.cached := false |},
     Sample.null_cached, (1%nat, tt)).
Proof.
  apply (getOrSet_without_cache unit Sample.no_env Sample.no_fault Sample.disconnected
           Sample.null_cached 1000 "scores:nba" (Sample.fetch_body (JNum 7)) "scores"
           0%nat tt).
  reflexivity.
Defined.

Lemma rejected_fetch_is_not_cached_witness :
  let run := Cache.getOrSet Sample.no_env Sample.no_fault Sample.connected
               Sample.empty_redis 1000 "scores:nba"
               (Cache.counted Scenario.fetch_fails) "scores" (0%nat, tt) in
  run = (Rejected "ESPN API circuit breaker is open",
         snd (Cache.get Sample.no_fault Sample.connected Sample.empty_redis 1000
                "scores:nba"),
         (1%nat, tt))
  /\ Cache.store (snd (fst run)) = Cache.store Sample.empty_redis
  /\ (Cache.commands (snd (fst run)) <= S (Cache.commands Sample.empty_redis))%nat.
Proof.
  apply (rejected_fetch_is_not_cached unit Sample.no_env Sample.no_fault Sample.connected
           Sample.empty_redis 1000 "scores:nba" Scenario.fetch_fails "scores" 0%nat tt
           "ESPN API circuit breaker is open"); reflexivity.
Defined.

(** * What the games sync reports *)

Section GamesSync.
Import Cache Repo.
Local Open Scope list_scope.

Variable glob_match : string -> string -> bool.

Lemma getOrCreate_never_rejects sv w espnTeamData league e :
  fst (getOrCreate sv w espnTeamData league) <> Rejected e.
Proof.
  unfold getOrCreate.
  pose proof (get_never_rejects (redis_faults sv) (cacheClient sv) (redis w) (clock sv)
                (generateCacheKey "team" [Espn.side_espnId espnTeamData])) as Hget.
  destruct (get _ _ _ _ _) as [[hit| |] r1]; cbn [fst] in Hget |- *;
    [| intros [= ->]; now apply (Hget e) | discriminate].
  destruct (Js.truthy hit); [discriminate|].
  destruct (findByEspnId _ _ _ _) as [found w2].
  destruct (if Js.truthy found then _ else _) as [team w3].
  destruct (Js.truthy team); [destruct (set _ _ _ _ _ _ _)|]; discriminate.
Qed.

Lemma upsertFromESPN_resolves_truthy sv w espnGameData :
  match fst (upsertFromESPN sv w espnGameData) with
  | Resolved v => Js.truthy v = true
  | Rejected _ => False
  | Unmodelled => True
  end.
Proof.
  unfold upsertFromESPN.
  pose proof (getOrCreate_never_rejects sv w (Espn.homeTeam espnGameData)
                (Espn.sport espnGameData)) as Hrej1.
  pose proof (getOrCreate_never_falsy sv w (Espn.homeTeam espnGameData)
                (Espn.sport espnGameData)) as Htrue1.
  destruct (getOrCreate sv w _ _) as [[homeTeam|e|] w1]; cbn [fst] in *;
    [| now apply (Hrej1 e) | exact I].
  pose proof (getOrCreate_never_rejects sv w1 (Espn.awayTeam espnGameData)
                (Espn.sport espnGameData)) as Hrej2.
  pose proof (getOrCreate_never_falsy sv w1 (Espn.awayTeam espnGameData)
                (Espn.sport espnGameData)) as Htrue2.
  destruct (getOrCreate sv w1 _ _) as [[awayTeam|e|] w2]; cbn [fst] in *;
    [| now apply (Hrej2 e) | exact I].
  rewrite (Htrue1 homeTeam w1 eq_refl), (Htrue2 awayTeam w2 eq_refl). cbn [negb orb].
  destruct (upsert_is_array (db_faults sv) (db w2) "games"
              (game_record espnGameData homeTeam awayTeam) "espn_id") as [items Hitems].
  destruct (upsert _ _ _ _ _) as [res db3]. cbn [fst] in Hitems |- *. now subst res.
Qed.

Lemma sync_games_counts sv (gs : list Espn.Game) :
  forall w results failed results' failed' w',
    sync_games sv w gs results failed = Some (results', failed', w') ->
    results' = (results + List.length gs)%nat /\ failed' = failed.
Proof.
  induction gs as [|g gs IH]; intros w results failed results' failed' w'.
  - cbn. intros [= <- <- _]. split; [lia | reflexivity].
  - cbn [sync_games List.length].
    pose proof (upsertFromESPN_resolves_truthy sv w g) as Hres.
    destruct (upsertFromESPN sv w g) as [[v|e|] w1]; cbn [fst] in Hres;
      [| contradiction | discriminate].
    rewrite Hres. intros H. apply IH in H as [-> ->]. split; [lia | reflexivity].
Qed.

(** Without the cache a team is always resolved. *)
Lemma getOrCreate_without_cache sv w espnTeamData league :
  unavailable (cacheClient sv) = true ->
  exists v w1, getOrCreate sv w espnTeamData league = (Resolved v, w1).
Proof.
  intros Hdown. unfold getOrCreate, get. rewrite Hdown. cbn [Js.truthy].
  destruct (findByEspnId _ _ _ _) as [found w2].
  destruct (if Js.truthy found then _ else _) as [team w3].
  destruct (Js.truthy team); [destruct (set _ _ _ _ _ _ _)|]; eauto.
Qed.

Lemma sync_games_without_cache sv (gs : list Espn.Game) :
  unavailable (cacheClient sv) = true ->
  forall w results failed,
    exists w', sync_games sv w gs results failed
               = Some ((results + List.length gs)%nat, failed, w').
Proof.
  intros Hdown. induction gs as [|g gs IH]; intros w results failed.
  - exists w. cbn. do 3 f_equal. lia.
  - cbn [sync_games List.length].
    pose proof (upsertFromESPN_resolves_truthy sv w g) as Hres.
    assert (Hsome : exists v w1, upsertFromESPN sv w g = (Resolved v, w1)).
    { unfold upsertFromESPN.
      destruct (getOrCreate_without_cache sv w (Espn.homeTeam g) (Espn.sport g) Hdown)
        as (h & w1 & ->).
      destruct (getOrCreate_without_cache sv w1 (Espn.awayTeam g) (Espn.sport g) Hdown)
        as (a & w2 & ->).
      destruct (negb (Js.truthy h) || negb (Js.truthy a)); [eauto|].
      destruct (upsert _ _ _ _ _); eauto. }
    destruct Hsome as (v & w1 & E). rewrite E in Hres |- *. cbn [fst] in Hres.
    rewrite Hres. destruct (IH w1 (S results) failed) as [w' ->].
    exists w'. do 3 f_equal. lia.
Qed.

(** X17. The games sync never reports a failure.  [upsertFromESPN]
    resolves to an array in every case, and an array is truthy, so each
    game of the scoreboard is counted as successful: whenever the sync
    returns, [failed] is 0 and [successful] is the number of games.  It
    does return when the cache is not connected, and then reports every
    game as successful even if every query of the store fails. *)
Theorem games_sync_never_reports_failure :
  forall (sv : Services) (w : World) (scoreboardData : Espn.Scoreboard),
    (forall counts w1,
       syncFromScoreboard glob_match sv w scoreboardData = Some (counts, w1) ->
       counts = {| successful := List.length (Espn.games scoreboardData);
                   failed := 0;
                   total := List.length (Espn.games scoreboardData) |})
    /\ (unavailable (cacheClient sv) = true ->
        exists w1,
          syncFromScoreboard glob_match sv w scoreboardData
          = Some ({| successful := List.length (Espn.games scoreboardData);
                     failed := 0;
                     total := List.length (Espn.games scoreboardData) |}, w1)).
Proof.
  intros sv w scoreboardData. unfold syncFromScoreboard. split.
  - intros counts w1.
    destruct (sync_games sv w (Espn.games scoreboardData) 0 0)
      as [[[results failed] w']|] eqn:E; [|discriminate].
    apply sync_games_counts in E as [-> ->]. now intros [= <- _].
  - intros Hdown.
    destruct (sync_games_without_cache sv (Espn.games scoreboardData) Hdown w 0%nat 0%nat)
      as [w' ->].
    eexists. reflexivity.
Qed.

End GamesSync.

Lemma games_sync_never_reports_failure_witness :
  exists w1,
    Repo.syncFromScoreboard Sample.star_glob Scenario.store_down Sample.first_sighting
      (Espn._normalizeScoreboard (Some [Sample.tipoff]) "nba" 1000)
    = Some ({| Repo.successful := 1; Repo.failed := 0; Repo.total := 1 |}, w1).
Proof.
  destruct (games_sync_never_reports_failure Sample.star_glob Scenario.store_down
              Sample.first_sighting
              (Espn._normalizeScoreboard (Some [Sample.tipoff]) "nba" 1000))
    as [_ Hdown].
  apply Hdown. reflexivity.
Defined.

(** * Looking a team up *)

Section TeamLookup.
Import Json Cache Repo.
Local Open Scope list_scope.

Lemma find_heads_filter {A : Type} (f : A -> bool) (l : list A) (x : A) :
  List.find f l = Some x -> exists rest, List.filter f l = x :: rest.
Proof.
  induction l as [|y l IH]; [discriminate|]. cbn.
  destruct (f y); [intros [= ->]; eauto | exact IH].
Qed.

(** The run of [getOrCreate] that finds the team in the store. *)
Lemma getOrCreate_reads_stored (sv : Services) (w : World) (t : Espn.TeamSide)
    (league : string) (fs : list (string * jsval)) :
  unavailable (cacheClient sv) = false ->
  (forall n, redis_faults sv n = false) ->
  db_faults sv (List.length (history (db w))) = false ->
  lookup_live (store (redis w)) (clock sv)
    (generateCacheKey "team" [Espn.side_espnId t]) = None ->
  List.find (field_is "espn_id" (Espn.side_espnId t)) (rows (teams (db w)))
  = Some (JObj fs) ->
  getOrCreate sv w t league
  = (Resolved (JObj fs),
     {| redis :=
          {| store :=
               <[generateCacheKey "team" [Espn.side_espnId t] :=
                   {| text := JSON_stringify (JObj fs);
                      expiry := Some (clock sv + 604800 * 1000) |}]> (store (redis w));
             commands := S (S (commands (redis w))) |};
        db := {| teams := teams (db w); games := games (db w);
                 history := history (db w)
                            ++ [Select "teams" "espn_id" (Espn.side_espnId t)] |} |}).
Proof.
  intros Hup Hok Hdb Hmiss Hfind.
  set (key := generateCacheKey "team" [Espn.side_espnId t]) in *.
  destruct (find_heads_filter _ _ _ Hfind) as [rest Hfilter].
  unfold getOrCreate. fold key. unfold get, redis_get. rewrite Hup.
  rewrite (command_ok _ _ _ (Hok _)). cbn [fst snd]. rewrite Hmiss.
  cbn [Js.truthy]. unfold findByEspnId, findBy, db_select. cbn [db redis].
  rewrite Hdb. change (table_of (db w) "teams") with (teams (db w)).
  rewrite Hfilter. cbn [first_or_null Js.truthy].
  change (with_table (db w) "teams" (teams (db w))
            (Select "teams" "espn_id" (Espn.side_espnId t)))
    with {| teams := teams (db w); games := games (db w);
            history := history (db w)
                       ++ [Select "teams" "espn_id" (Espn.side_espnId t)] |}.
  cbn [redis db].
  rewrite (set_stores (redis_faults sv) (cacheClient sv) _ (clock sv) key (JObj fs)
             604800 Hup ltac:(lia) (Hok _)).
  reflexivity.
Qed.

(** X18. A team that is in the store is read once and then served from
    the cache.  With cache and store reachable, nothing cached for the
    team and a row for its [espn_id] in [teams], [getOrCreate] resolves to
    the first such row after a single SELECT, creates nothing, and leaves
    the row in the cache for 7 days; a second call resolves to the same
    row without a query to the store. *)
Theorem stored_team_is_read_once :
  forall (sv : Services) (w : World) (t : Espn.TeamSide) (league : string)
         (row : jsval) (fs : list (string * jsval)),
    unavailable (cacheClient sv) = false ->
    (forall n, redis_faults sv n = false) ->
    db_faults sv (List.length (history (db w))) = false ->
    lookup_live (store (redis w)) (clock sv)
      (generateCacheKey "team" [Espn.side_espnId t]) = None ->
    List.find (field_is "espn_id" (Espn.side_espnId t)) (rows (teams (db w))) = Some row ->
    row = JObj fs ->
    in_fragment row = true ->
    let first := getOrCreate sv w t league in
    let second := getOrCreate sv (snd first) t league in
    fst first = Resolved row
    /\ history (db (snd first))
       = history (db w) ++ [Select "teams" "espn_id" (Espn.side_espnId t)]
    /\ teams (db (snd first)) = teams (db w)
    /\ store (redis (snd first)) !! generateCacheKey "team" [Espn.side_espnId t]
       = Some {| text := JSON_stringify row;
                 expiry := Some (clock sv + 604800 * 1000) |}
    /\ fst second = Resolved row
    /\ db (snd second) = db (snd first).
Proof.
  intros sv w t league row fs Hup Hok Hdb Hmiss Hfind -> Hfrag.
  pose proof (getOrCreate_reads_stored sv w t league fs Hup Hok Hdb Hmiss Hfind) as Hfirst.
  set (key := generateCacheKey "team" [Espn.side_espnId t]) in *.
  set (e := {| text := JSON_stringify (JObj fs);
               expiry := Some (clock sv + 604800 * 1000) |}) in *.
  set (r2 := {| store := <[key := e]> (store (redis w));
                commands := S (S (commands (redis w))) |}) in *.
  cbn zeta. rewrite Hfirst. cbn [fst snd db redis].
  split; [reflexivity|]. split; [reflexivity|]. split; [reflexivity|].
  split; [apply lookup_insert_eq|].
  unfold getOrCreate. fold key. cbn [redis db].
  rewrite (get_live (redis_faults sv) (cacheClient sv) r2 (clock sv) key e Hup (Hok _)
             ltac:(apply lookup_insert_eq)
             ltac:(unfold live, e; cbn; apply Z.ltb_lt; lia)).
  change (text e) with (JSON_stringify (JObj fs)).
  pose proof (JSON_round_trip (JObj fs) Hfrag) as Hround.
  destruct (String.eqb_spec (JSON_stringify (JObj fs)) "") as [Hempty|_].
  { rewrite Hempty in Hround. discriminate Hround. }
  rewrite Hround. cbn [Js.truthy fst snd db]. split; reflexivity.
Qed.

End TeamLookup.

Lemma stored_team_is_read_once_witness :
  let first := Repo.getOrCreate Sample.services Scenario.celtics_stored
                 (Espn.homeTeam Sample.tipoff_game) "nba" in
  let second := Repo.getOrCreate Sample.services (snd first)
                  (Espn.homeTeam Sample.tipoff_game) "nba" in
  fst first = Resolved Scenario.celtics
  /\ Repo.history (Repo.db (snd first)) = [Repo.Select "teams" "espn_id" "2"]
  /\ fst second = Resolved Scenario.celtics
  /\ Repo.db (snd second) = Repo.db (snd first).
Proof.
  destruct (stored_team_is_read_once Sample.services Scenario.celtics_stored
              (Espn.homeTeam Sample.tipoff_game) "nba" Scenario.celtics
              Scenario.celtics_fields)
    as (H1 & H2 & _ & _ & H5 & H6);
    [reflexivity | intros n; reflexivity | reflexivity | reflexivity | reflexivity
    | reflexivity | reflexivity |].
  split; [exact H1|]. split; [exact H2|]. split; [exact H5 | exact H6].
Defined.

(** * Upserting in chunks *)

Section Chunks.
Import Repo Bulk.
Local Open Scope list_scope.
Local Open Scope nat_scope.

Variable St : Type.
Variable upsert : list jsval -> string -> St -> list jsval * St.
Variable sleep : Z -> St -> St.
Variable records : list jsval.
Variable onConflict : string.
Variable chunkSize : nat.

Lemma slice_chunk (i : nat) :
  slice i (i + chunkSize) records = firstn chunkSize (skipn i records).
Proof. unfold slice. f_equal. lia. Qed.

Lemma chunk_in_records (i : nat) : incl (firstn chunkSize (skipn i records)) records.
Proof.
  intros x Hin.
  assert (H1 : List.In x (skipn i records)).
  { rewrite <- (firstn_skipn chunkSize (skipn i records)). apply in_or_app. now left. }
  rewrite <- (firstn_skipn i records). apply in_or_app. now right.
Qed.

Lemma chunk_length (i : nat) :
  List.length (firstn chunkSize (skipn i records))
  = Nat.min chunkSize (List.length records - i).
Proof. now rewrite length_firstn, length_skipn. Qed.

Lemma chunk_nonempty (i : nat) :
  0 < chunkSize -> i < List.length records ->
  firstn chunkSize (skipn i records) <> [].
Proof.
  intros Hcs Hi Hnil. pose proof (chunk_length i) as Hlen.
  rewrite Hnil in Hlen. cbn in Hlen. lia.
Qed.

Section Counting.

Variable P : St -> Prop.
Hypothesis Hcs : 0 < chunkSize.
Hypothesis Hstep :
  forall chunk s, P s -> chunk <> [] -> incl chunk records ->
    P (snd (upsert chunk onConflict s))
    /\ (fst (upsert chunk onConflict s) = []
        \/ List.length (fst (upsert chunk onConflict s)) = List.length chunk).
Hypothesis Hsleep : forall ms s, P s -> P (sleep ms s).

Lemma bulk_loop_counts (fuel : nat) :
  forall i results failed s,
    P s ->
    List.length records - i <= fuel ->
    exists results' failed' s',
      bulk_loop St upsert sleep fuel records onConflict chunkSize i results failed s
      = Some (results', failed', s')
      /\ P s'
      /\ results' + failed' = results + failed + (List.length records - i)
      /\ ((forall chunk s0, P s0 -> chunk <> [] -> incl chunk records ->
             fst (upsert chunk onConflict s0) = []) ->
          results' = results).
Proof.
  induction fuel as [|f IH]; intros i results failed s Hs Hfuel.
  - cbn [bulk_loop]. destruct (Nat.ltb_spec i (List.length records)); [lia|].
    exists results, failed, s. repeat split; auto; lia.
  - cbn [bulk_loop]. destruct (Nat.ltb_spec i (List.length records)) as [Hi|Hi].
    + rewrite slice_chunk.
      destruct (Hstep _ s Hs (chunk_nonempty i Hcs Hi) (chunk_in_records i))
        as [Hs1 Hout].
      pose proof (chunk_length i) as Hlen.
      destruct (upsert (firstn chunkSize (skipn i records)) onConflict s)
        as [out s1] eqn:E.
      cbn [fst snd] in Hs1, Hout.
      set (s2 := if i + chunkSize <? List.length records then sleep 100 s1 else s1).
      assert (Hs2 : P s2).
      { unfold s2. destruct (i + chunkSize <? List.length records); auto. }
      destruct (Nat.ltb_spec 0 (List.length out)) as [Hsome|Hnone].
      * destruct (IH (i + chunkSize) (results + List.length out) failed s2 Hs2
                    ltac:(lia)) as (r' & f' & s' & Hrun & Hs' & Hsum & Hfail).
        exists r', f', s'. split; [exact Hrun|]. split; [exact Hs'|].
        destruct Hout as [Hout|Hout]; [rewrite Hout in Hsome; cbn in Hsome; lia|].
        split; [lia|].
        intros Hall.
        specialize (Hall _ s Hs (chunk_nonempty i Hcs Hi) (chunk_in_records i)).
        rewrite E in Hall. cbn [fst] in Hall. rewrite Hall in Hsome. cbn in Hsome. lia.
      * destruct (IH (i + chunkSize) results
                    (failed + List.length (firstn chunkSize (skipn i records))) s2 Hs2
                    ltac:(lia)) as (r' & f' & s' & Hrun & Hs' & Hsum & Hfail).
        exists r', f', s'. split; [exact Hrun|]. split; [exact Hs'|].
        split; [lia|]. exact Hfail.
    + exists results, failed, s. repeat split; auto; lia.
Qed.

End Counting.

(** The chunks the loop hands to [upsert]. *)
Lemma bulk_loop_log (fuel : nat) :
  0 < chunkSize ->
  forall i results failed log s,
    List.length records - i <= fuel ->
    exists results' failed' log' s',
      bulk_loop (list (list jsval) * St) (logged_upsert St upsert) (logged_sleep St sleep)
        fuel records onConflict chunkSize i results failed (log, s)
      = Some (results', failed', (log ++ log', s'))
      /\ concat log' = skipn i records
      /\ Forall (fun chunk => 0 < List.length chunk <= chunkSize) log'
      /\ List.length log' * chunkSize < List.length records - i + chunkSize.
Proof.
  intros Hcs. induction fuel as [|f IH]; intros i results failed log s Hfuel.
  - cbn [bulk_loop]. destruct (Nat.ltb_spec i (List.length records)); [lia|].
    exists results, failed, [], s. rewrite app_nil_r.
    split; [reflexivity|]. split; [now rewrite skipn_all2 by lia|].
    split; [constructor | cbn; lia].
  - cbn [bulk_loop]. destruct (Nat.ltb_spec i (List.length records)) as [Hi|Hi].
    + rewrite slice_chunk. pose proof (chunk_length i) as Hlen.
      set (chunk := firstn chunkSize (skipn i records)) in *.
      unfold logged_upsert at 1. cbn [fst snd].
      destruct (upsert chunk onConflict s) as [out s1].
      set (counts := if 0 <? List.length out
                     then (results + List.length out, failed)
                     else (results, failed + List.length chunk)).
      destruct counts as [results1 failed1].
      set (s2 := if i + chunkSize <? List.length records then sleep 100 s1 else s1).
      assert (Hstate : (if i + chunkSize <? List.length records
                        then logged_sleep St sleep 100 (log ++ [chunk], s1)
                        else (log ++ [chunk], s1))
                       = (log ++ [chunk], s2)).
      { unfold s2, logged_sleep.
        destruct (i + chunkSize <? List.length records); reflexivity. }
      rewrite Hstate.
      destruct (IH (i + chunkSize) results1 failed1 (log ++ [chunk]) s2 ltac:(lia))
        as (r' & f' & log' & s' & Hrun & Hcat & Hall & Hnum).
      exists r', f', (chunk :: log'), s'.
      split; [rewrite Hrun; now rewrite <- app_assoc|].
      split; [|split].
      * cbn [concat]. rewrite Hcat. unfold chunk.
        transitivity (firstn chunkSize (skipn i records)
                      ++ skipn chunkSize (skipn i records)); [|apply firstn_skipn].
        f_equal. rewrite skipn_skipn. f_equal. lia.
      * constructor; [lia | exact Hall].
      * cbn [List.length].
        destruct (Nat.ltb_spec (i + chunkSize) (List.length records)); [lia|].
        destruct log' as [|c0 log'']; [cbn; lia|].
        exfalso. rewrite skipn_all2 in Hcat by lia.
        inversion Hall as [|? ? Hc0 _]; subst.
        destruct c0; [cbn in Hc0; lia | discriminate Hcat].
    + exists results, failed, [], s. rewrite app_nil_r.
      split; [reflexivity|]. split; [now rewrite skipn_all2 by lia|].
      split; [constructor | cbn; lia].
Qed.

(** With a chunk size of 0 the loop is still running after any number of
    rounds. *)
Lemma bulk_loop_stuck (fuel : nat) :
  chunkSize = 0 ->
  records <> [] ->
  forall results failed s,
    bulk_loop St upsert sleep fuel records onConflict chunkSize 0 results failed s = None.
Proof.
  intros -> Hne. induction fuel as [|f IH]; intros results failed s.
  - cbn [bulk_loop]. destruct records; [contradiction | reflexivity].
  - cbn [bulk_loop]. destruct (Nat.ltb_spec 0 (List.length records)) as [_|Hlen];
      [|destruct records; [contradiction | cbn in Hlen; lia]].
    destruct (upsert _ _ _) as [out s1].
    destruct (0 <? List.length out); apply IH.
Qed.

Lemma bulkUpsert_nonempty (s : St) :
  records <> [] ->
  bulkUpsert St upsert sleep records onConflict chunkSize s
  = match bulk_loop St upsert sleep (List.length records) records onConflict
            chunkSize 0 0 0 s with
    | Some (results, failed, s1) =>
        Some ({| successful := results; failed := failed;
                 total := List.length records |}, s1)
    | None => None
    end.
Proof. intros Hne. unfold bulkUpsert. destruct records; [contradiction | reflexivity]. Qed.

End Chunks.

(** A run of [bulkUpsert] in which [upsert] answers no row. *)
Lemma bulkUpsert_ends (St : Type) (upsert : list jsval -> string -> St -> list jsval * St)
    (sleep : Z -> St -> St) (records : list jsval) (onConflict : string)
    (chunkSize : nat) (P : St -> Prop) :
  (0 < chunkSize)%nat ->
  (forall chunk s, P s -> chunk <> [] -> incl chunk records ->
     P (snd (upsert chunk onConflict s)) /\ fst (upsert chunk onConflict s) = []) ->
  (forall ms s, P s -> P (sleep ms s)) ->
  forall s, P s ->
    exists s1,
      Bulk.bulkUpsert St upsert sleep records onConflict chunkSize s
      = Some ({| Repo.successful := 0; Repo.failed := List.length records;
                 Repo.total := List.length records |}, s1)
      /\ P s1.
Proof.
  intros Hcs Hstep Hsleep s Hs. unfold Bulk.bulkUpsert.
  destruct records as [|x rest] eqn:E; [now exists s|]. rewrite <- E in *.
  destruct (bulk_loop_counts St upsert sleep records onConflict chunkSize P Hcs
              ltac:(intros chunk s0 H0 Hne Hincl;
                    destruct (Hstep chunk s0 H0 Hne Hincl); auto)
              Hsleep (List.length records) 0%nat 0%nat 0%nat s Hs ltac:(lia))
    as (r' & f' & s' & Hrun & Hs' & Hsum & Hfail).
  rewrite Hrun. exists s'. split; [|exact Hs'].
  assert (Hr : r' = 0%nat).
  { apply Hfail. intros chunk s0 H0 Hne Hincl. now apply Hstep. }
  subst r'. do 3 f_equal. lia.
Qed.

Lemma list_eq_dec_nil {A : Type} (l : list A) : l = nil \/ l <> nil.
Proof. destruct l; [now left | now right]. Qed.

(** X19. [bulkUpsert] hands the records to [upsert] chunk by chunk.  For
    a positive chunk size the call returns, whatever [upsert] answers; the
    chunks it was given are, in order, a partition of the records into
    non-empty chunks of at most [chunkSize] records, and there are no more
    of them than needed, that is, the least number [k] with
    [length records <= k * chunkSize]. *)
Theorem bulkUpsert_partitions_the_records :
  forall (St : Type) (upsert : list jsval -> string -> St -> list jsval * St)
         (sleep : Z -> St -> St) (records : list jsval) (onConflict : string)
         (chunkSize : nat) (s : St),
    (0 < chunkSize)%nat ->
    exists counts log s1,
      Bulk.bulkUpsert (list (list jsval) * St) (Bulk.logged_upsert St upsert)
        (Bulk.logged_sleep St sleep) records onConflict chunkSize ([], s)
      = Some (counts, (log, s1))
      /\ concat log = records
      /\ Forall (fun chunk => (0 < List.length chunk <= chunkSize)%nat) log
      /\ (List.length records <= List.length log * chunkSize)%nat
      /\ (List.length log * chunkSize < List.length records + chunkSize)%nat
      /\ Repo.total counts = List.length records.
Proof.
  intros St upsert sleep records onConflict chunkSize s Hcs.
  destruct (list_eq_dec_nil records) as [-> | Hne].
  - exists {| Repo.successful := 0; Repo.failed := 0; Repo.total := 0 |}, [], s.
    repeat split; try constructor; cbn; lia.
  - rewrite bulkUpsert_nonempty by exact Hne.
    destruct (bulk_loop_log St upsert sleep records onConflict chunkSize
                (List.length records) Hcs 0%nat 0%nat 0%nat [] s ltac:(lia))
      as (r' & f' & log & s' & Hrun & Hcat & Hall & Hnum).
    rewrite Hrun. cbn [app] in *. rewrite Nat.sub_0_r in Hnum.
    exists {| Repo.successful := r'; Repo.failed := f';
              Repo.total := List.length records |}, log, s'.
    split; [reflexivity|]. split; [exact Hcat|]. split; [exact Hall|].
    split; [|split; [exact Hnum | reflexivity]].
    rewrite <- Hcat at 1. clear - Hall.
    induction Hall as [|c l Hc _ IH]; [cbn; lia|].
    cbn [concat List.length]. rewrite length_app. lia.
Qed.

Lemma bulkUpsert_partitions_the_records_witness :
  exists counts log s1,
    Bulk.bulkUpsert (list (list jsval) * unit)
      (Bulk.logged_upsert unit Scenario.echo) (Bulk.logged_sleep unit (fun _ s => s))
      [JNum 1; JNum 2; JNum 3; JNum 4; JNum 5] "id" 2 ([], tt)
    = Some (counts, (log, s1))
    /\ concat log = [JNum 1; JNum 2; JNum 3; JNum 4; JNum 5]
    /\ Forall (fun chunk => (0 < List.length chunk <= 2)%nat) log
    /\ (5 <= List.length log * 2)%nat
    /\ (List.length log * 2 < 5 + 2)%nat
    /\ Repo.total counts = 5%nat.
Proof.
  apply (bulkUpsert_partitions_the_records unit Scenario.echo (fun _ s => s)
           [JNum 1; JNum 2; JNum 3; JNum 4; JNum 5] "id" 2 tt).
  lia.
Defined.

(** X20. The counts of [bulkUpsert] add up when [upsert] is all or
    nothing.  If [upsert] answers each chunk with no row or with one row
    per record, the call returns with [successful + failed = total]; if it
    answers every chunk with no row, [successful] is 0 and [failed] is the
    number of records. *)
Theorem bulkUpsert_counts_add_up :
  forall (St : Type) (upsert : list jsval -> string -> St -> list jsval * St)
         (sleep : Z -> St -> St) (records : list jsval) (onConflict : string)
         (chunkSize : nat) (s : St),
    (0 < chunkSize)%nat ->
    (forall chunk s0, chunk <> [] -> incl chunk records ->
       fst (upsert chunk onConflict s0) = []
       \/ List.length (fst (upsert chunk onConflict s0)) = List.length chunk) ->
    exists counts s1,
      Bulk.bulkUpsert St upsert sleep records onConflict chunkSize s = Some (counts, s1)
      /\ Repo.total counts = List.length records
      /\ (Repo.successful counts + Repo.failed counts = Repo.total counts)%nat
      /\ ((forall chunk s0, chunk <> [] -> incl chunk records ->
             fst (upsert chunk onConflict s0) = []) ->
          Repo.successful counts = 0%nat /\ Repo.failed counts = List.length records).
Proof.
  intros St upsert sleep records onConflict chunkSize s Hcs Hstep.
  destruct (list_eq_dec_nil records) as [-> | Hne].
  - eexists _, s. split; [reflexivity|]. cbn. auto.
  - rewrite bulkUpsert_nonempty by exact Hne.
    destruct (bulk_loop_counts St upsert sleep records onConflict chunkSize
                (fun _ => True) Hcs
                ltac:(intros chunk s0 _ Hchunk Hincl; split; [exact I | now apply Hstep])
                ltac:(intros; exact I)
                (List.length records) 0%nat 0%nat 0%nat s I ltac:(lia))
      as (r' & f' & s' & Hrun & _ & Hsum & Hfail).
    rewrite Hrun. eexists _, s'. split; [reflexivity|]. cbn.
    split; [reflexivity|]. split; [lia|].
    intros Hall.
    assert (Hr : r' = 0%nat).
    { apply Hfail. intros chunk s0 _ Hchunk Hincl. now apply Hall. }
    split; [exact Hr | lia].
Qed.

Lemma bulkUpsert_counts_add_up_witness :
  exists counts s1,
    Bulk.bulkUpsert unit Scenario.echo (fun _ s => s)
      [JNum 1; JNum 2; JNum 3; JNum 4; JNum 5] "id" 2 tt = Some (counts, s1)
    /\ Repo.total counts = 5%nat
    /\ (Repo.successful counts + Repo.failed counts = Repo.total counts)%nat.
Proof.
  destruct (bulkUpsert_counts_add_up unit Scenario.echo (fun _ s => s)
              [JNum 1; JNum 2; JNum 3; JNum 4; JNum 5] "id" 2 tt)
    as (counts & s1 & H1 & H2 & H3 & _);
    [lia | intros chunk s0 _ _; right; reflexivity |].
  exists counts, s1. auto.
Defined.

(** X21. With a chunk size of 0 [bulkUpsert] never returns: on a
    non-empty array of records the loop index stays at 0, so the loop has
    not ended after any number of rounds. *)
Theorem bulkUpsert_zero_chunk_never_ends :
  forall (St : Type) (upsert : list jsval -> string -> St -> list jsval * St)
         (sleep : Z -> St -> St) (records : list jsval) (onConflict : string) (s : St),
    records <> [] ->
    (forall fuel results failed,
       Bulk.bulk_loop St upsert sleep fuel records onConflict 0 0 results failed s = None)
    /\ Bulk.bulkUpsert St upsert sleep records onConflict 0 s = None.
Proof.
  intros St upsert sleep records onConflict s Hne. split.
  - intros fuel results failed. now apply bulk_loop_stuck.
  - rewrite bulkUpsert_nonempty by exact Hne.
    now rewrite bulk_loop_stuck.
Qed.

Lemma bulkUpsert_zero_chunk_never_ends_witness :
  (forall fuel results failed,
     Bulk.bulk_loop unit Scenario.echo (fun _ s => s) fuel [JNum 1] "id" 0 0
       results failed tt = None)
  /\ Bulk.bulkUpsert unit Scenario.echo (fun _ s => s) [JNum 1] "id" 0 tt = None.
Proof.
  apply (bulkUpsert_zero_chunk_never_ends unit Scenario.echo (fun _ s => s)
           [JNum 1] "id" tt).
  discriminate.
Defined.

(** * The teams of a scoreboard *)

Section TeamsOfScoreboard.
Import Cache Repo Bulk.
Local Open Scope list_scope.

Lemma assoc_None_not_in (k : string) (m : list (string * jsval)) :
  Js.assoc k m = None -> ~ In k (List.map fst m).
Proof.
  induction m as [|[k' v] m IH]; [intros _ []|].
  cbn [Js.assoc List.map fst]. destruct (String.eqb_spec k k') as [->|Hne]; [discriminate|].
  intros H [Heq | Hin]; [now apply Hne | now apply IH].
Qed.

Lemma assoc_Some_in (k : string) (m : list (string * jsval)) (v : jsval) :
  Js.assoc k m = Some v -> In k (List.map fst m).
Proof.
  induction m as [|[k' v'] m IH]; [discriminate|].
  cbn [Js.assoc List.map fst]. destruct (String.eqb_spec k k') as [->|Hne]; [now left|].
  intros H. right. now apply IH.
Qed.

(** What one [remember] does to the map. *)
Lemma remember_spec (m : list (string * jsval)) (t : Espn.TeamSide) (g : Espn.Game) :
  List.NoDup (List.map fst m) ->
  List.NoDup (List.map fst (remember m t g))
  /\ In (team_key t g) (List.map fst (remember m t g))
  /\ (forall k, In k (List.map fst m) -> In k (List.map fst (remember m t g)))
  /\ (forall kv, In kv (remember m t g) ->
                 In kv m \/ kv = (team_key t g, team_of_game t g))
  /\ (List.length (remember m t g) <= S (List.length m))%nat.
Proof.
  intros Hnd. unfold remember.
  destruct (Js.assoc (team_key t g) m) as [v|] eqn:E.
  - repeat split; auto. now apply (assoc_Some_in _ _ v).
  - rewrite map_app. cbn [List.map fst]. repeat split.
    + apply NoDup_ListNoDup, NoDup_app.
      split; [now apply NoDup_ListNoDup|]. split; [|apply NoDup_singleton].
      intros k Hin%list_elem_of_In ->%list_elem_of_singleton.
      now apply (assoc_None_not_in _ _ E).
    + apply in_or_app. right. now left.
    + intros k Hin. apply in_or_app. now left.
    + intros kv [Hin | [<- | []]]%in_app_or; auto.
    + rewrite length_app. cbn. lia.
Qed.

Lemma teamsMap_fold (games : list Espn.Game) :
  forall m : list (string * jsval),
    List.NoDup (List.map fst m) ->
    let m' := fold_left
                (fun m g => remember (remember m (Espn.homeTeam g) g) (Espn.awayTeam g) g)
                games m in
    List.NoDup (List.map fst m')
    /\ (forall k, In k (List.map fst m) -> In k (List.map fst m'))
    /\ (forall g, In g games ->
                  In (team_key (Espn.homeTeam g) g) (List.map fst m')
                  /\ In (team_key (Espn.awayTeam g) g) (List.map fst m'))
    /\ (forall kv, In kv m' ->
                   In kv m
                   \/ exists g t, In g games
                                  /\ (t = Espn.homeTeam g \/ t = Espn.awayTeam g)
                                  /\ kv = (team_key t g, team_of_game t g))
    /\ (List.length m' <= List.length m + 2 * List.length games)%nat.
Proof.
  induction games as [|g games IH]; intros m Hnd; cbn zeta.
  - cbn [fold_left]. split; [exact Hnd|]. split; [auto|]. split; [intros g0 []|].
    split; [auto | lia].
  - cbn [fold_left].
    destruct (remember_spec m (Espn.homeTeam g) g Hnd) as (Hnd1 & Hk1 & Hmono1 & Hin1 & Hlen1).
    destruct (remember_spec _ (Espn.awayTeam g) g Hnd1) as (Hnd2 & Hk2 & Hmono2 & Hin2 & Hlen2).
    destruct (IH _ Hnd2) as (Hnd' & Hmono' & Hcover' & Hin' & Hlen').
    split; [exact Hnd'|]. split; [auto|]. split; [|split].
    + intros g' [<- | Hg']; [split; auto | now apply Hcover'].
    + intros kv Hkv. destruct (Hin' kv Hkv) as [Hold | (g' & t & Hg' & Ht & ->)].
      * destruct (Hin2 kv Hold) as [Hold1 | ->].
        -- destruct (Hin1 kv Hold1) as [Hold0 | ->]; [now left|].
           right. exists g, (Espn.homeTeam g). split; [now left|]. auto.
        -- right. exists g, (Espn.awayTeam g). split; [now left|]. auto.
      * right. exists g', t. split; [now right|]. auto.
    + cbn [List.length]. lia.
Qed.

(** X22. The teams of a scoreboard are collected once each.  The map
    that [TeamsRepository.syncFromScoreboard] builds has one entry per key
    [<espnId>_<league>], holds the home and the away team of every game,
    and holds nothing but teams of the games, at most two per game. *)
Theorem teamsMap_has_each_team_once :
  forall games : list Espn.Game,
    List.NoDup (List.map fst (teamsMap games))
    /\ (forall g, In g games ->
                  In (team_key (Espn.homeTeam g) g) (List.map fst (teamsMap games))
                  /\ In (team_key (Espn.awayTeam g) g) (List.map fst (teamsMap games)))
    /\ (forall kv, In kv (teamsMap games) ->
                   exists g t, In g games
                               /\ (t = Espn.homeTeam g \/ t = Espn.awayTeam g)
                               /\ kv = (team_key t g, team_of_game t g))
    /\ (List.length (teamsMap games) <= 2 * List.length games)%nat.
Proof.
  intros games. unfold teamsMap.
  destruct (teamsMap_fold games [] (List.NoDup_nil _))
    as (Hnd & _ & Hcover & Hin & Hlen).
  split; [exact Hnd|]. split; [exact Hcover|]. split; [|exact Hlen].
  intros kv Hkv. destruct (Hin kv Hkv) as [[] | H]. exact H.
Qed.

(** The record of a team names no column [espn_id]. *)
Lemma team_of_game_has_no_espn_id (t : Espn.TeamSide) (g : Espn.Game) :
  Js.prop "espn_id" (team_of_game t g) = None.
Proof.
  unfold team_of_game.
  destruct (Espn.side_name t), (Espn.side_abbreviation t), (Espn.side_logo t); reflexivity.
Qed.

Lemma team_of_game_rejected (db0 : Supabase) (t : Espn.TeamSide) (g : Espn.Game) :
  constraints_hold db0 "teams" (team_of_game t g) = false.
Proof.
  unfold constraints_hold, required_of, teams_required, is_null.
  cbn [String.eqb Ascii.eqb Bool.eqb forallb].
  now rewrite team_of_game_has_no_espn_id.
Qed.

Variable glob_match : string -> string -> bool.

Lemma clearLeagueCache_db sv w sport :
  db (_clearLeagueCache glob_match sv w sport) = db w.
Proof.
  unfold _clearLeagueCache.
  destruct (delPattern _ _ _ _ _ _) as [? r1].
  now destruct (delPattern _ _ _ _ _ _) as [? r2].
Qed.

Lemma clear_each_db sv (games : list Espn.Game) :
  forall w,
    db (fold_left (fun w1 g => _clearLeagueCache glob_match sv w1 (Espn.sport g)) games w)
    = db w.
Proof.
  induction games as [|g games IH]; intros w; [reflexivity|].
  cbn [fold_left]. now rewrite IH, clearLeagueCache_db.
Qed.

(** X23. The teams sync of a scoreboard stores no team.  The records it
    hands to [bulkUpsert] carry the identifier under [espnId], not under
    the column [espn_id], which is NOT NULL; the store rejects every chunk,
    so the sync always returns, reports every team as failed and none as
    successful, and leaves both tables as they were. *)
Theorem teams_sync_stores_no_team :
  forall (sv : Services) (w : World) (scoreboardData : Espn.Scoreboard),
    exists w1,
      Bulk.syncFromScoreboard glob_match sv w scoreboardData
      = Some ({| successful := 0;
                 failed := List.length (teamsMap (Espn.games scoreboardData));
                 total := List.length (teamsMap (Espn.games scoreboardData)) |}, w1)
      /\ teams (db w1) = teams (db w)
      /\ games (db w1) = games (db w).
Proof.
  intros sv w scoreboardData. unfold Bulk.syncFromScoreboard.
  set (gs := Espn.games scoreboardData).
  set (records := List.map snd (teamsMap gs)).
  assert (Hlen : List.length records = List.length (teamsMap gs))
    by apply length_map.
  assert (Hrecords : forall x, In x records -> exists t g, x = team_of_game t g).
  { intros x (kv & <- & Hkv)%in_map_iff.
    destruct (teamsMap_fold gs [] (List.NoDup_nil _)) as (_ & _ & _ & Hin & _).
    destruct (Hin kv Hkv) as [[] | (g & t & _ & _ & ->)]. eauto. }
  set (P := fun d : Supabase => teams d = teams (db w) /\ games d = games (db w)).
  assert (Hstep : forall chunk d, P d -> chunk <> [] -> incl chunk records ->
             P (snd (upsert_array (db_faults sv) "teams" chunk "espn_id" d))
             /\ fst (upsert_array (db_faults sv) "teams" chunk "espn_id" d) = []).
  { intros chunk d [Ht Hg] Hne Hincl. destruct chunk as [|x chunk]; [contradiction|].
    destruct (Hrecords x (Hincl x (or_introl eq_refl))) as (t & g & ->).
    unfold upsert_array, db_upsert_all. cbn [forallb].
    rewrite team_of_game_rejected. cbn [andb negb orb]. rewrite orb_true_r. cbn [orb].
    unfold P. now split. }
  destruct (bulkUpsert_ends Supabase (upsert_array (db_faults sv) "teams")
              (fun _ d => d) records "espn_id" 100 P ltac:(lia) Hstep
              ltac:(intros; assumption) (db w) ltac:(now split))
    as (db1 & Hrun & Hdb1).
  rewrite Hrun, Hlen. eexists. split; [reflexivity|].
  rewrite clear_each_db. exact Hdb1.
Qed.

End TeamsOfScoreboard.

(** * The caching middleware *)

Section CachingMiddleware.
Import Json Cache Middleware.

(** Requests the middleware does not cache never touch the cache.
    When caching is disabled, the method is not GET, or the client sent
    [Cache-Control: no-cache], the request goes to the handler, whose
    answer is passed on with no [X-Cache] header; Redis is neither read
    nor written. *)
Lemma uncached_requests_bypass_the_cache :
  forall (St : Type) (env : string -> option string) (faults : Faults)
         (c : CacheClient) (dataType : string) (o : Options) (req : Request)
         (next : St -> Handled St) (r : Redis) (now : Z) (s : St),
    enabled o = false
    \/ req_method req <> "GET"
    \/ cache_control req = Some "no-cache" ->
    cacheMiddleware env faults c dataType o req next r now s
    = (Resolved {| statusCode := sent_status (next s); x_cache := None;
                   body := sent_body (next s) |},
       r, handler_world (next s)).
Proof.
  intros St env faults c dataType o req next r now s H. unfold cacheMiddleware.
  destruct (enabled o); [|reflexivity]. cbn [negb].
  destruct (String.eqb_spec (req_method req) "GET") as [Hget|_]; [|reflexivity].
  cbn [negb]. destruct H as [H | [H | H]]; [discriminate | contradiction|].
  rewrite H. reflexivity.
Qed.

(** [Middleware.cacheMiddleware] is [Codec.cacheMiddleware] at the JSON
    data. *)
Lemma cacheMiddleware_of_json (St : Type) env faults c dataType o req
    (next : St -> Handled St) r now (s : St) :
  Codec.cacheMiddleware Codec.json env faults c dataType o req
    (fun x => Codec.of_handled (next x)) r now s
  = (match fst (fst (cacheMiddleware env faults c dataType o req next r now s)) with
     | Resolved x => Resolved (Codec.of_response x)
     | Rejected e => Rejected e
     | Unmodelled => Unmodelled
     end,
     snd (fst (cacheMiddleware env faults c dataType o req next r now s)),
     snd (cacheMiddleware env faults c dataType o req next r now s)).
Proof.
  unfold Codec.cacheMiddleware, cacheMiddleware, Codec.pass, pass.
  destruct (negb (enabled o)); [reflexivity|].
  destruct (negb (String.eqb (req_method req) "GET")); [reflexivity|].
  destruct (match cache_control req with
            | Some h => String.eqb h "no-cache"
            | None => false
            end); [reflexivity|].
  rewrite get_of_json.
  destruct (get faults c r now (cacheKey_of dataType o req)) as [[hit| |] r1];
    try reflexivity.
  change (Codec.not_null Codec.json hit) with (not_null hit).
  destruct (not_null hit); [reflexivity|].
  cbn [Codec.of_handled Codec.sent_body Codec.handler_took Codec.handler_world
         Codec.sent_status].
  rewrite set_at_of_json.
  destruct (set_at faults c r1 (now + handler_took (next s))
              (cacheKey_of dataType o req) (sent_body (next s))
              (cacheTtl env dataType o)) as [[b| |] r2]; reflexivity.
Qed.

Lemma codec_set_resolves {V : Type} (js : Codec.Runtime V) faults c r now key
    (value : V) (ttl : option Z) :
  exists b, fst (Codec.set js faults c r now key value ttl) = Resolved b.
Proof.
  unfold Codec.set. destruct (unavailable c); [eauto|].
  match goal with
  | |- context [match ?x with (_, _) => _ end] => destruct x as [[?|] ?]
  end; eauto.
Qed.

Section Cacheable.

Context {V : Type} (js : Codec.Runtime V) {St : Type}.
Variables (env : string -> option string) (faults : Faults) (c : CacheClient)
          (dataType : string) (o : Options) (req : Request)
          (next : St -> Codec.Handled (V := V) St).

Hypothesis Hlaw : Codec.lawful js.
Hypothesis Hon : enabled o = true.
Hypothesis Hget : req_method req = "GET".
Hypothesis Hcc : cache_control req <> Some "no-cache".
Hypothesis Hup : unavailable c = false.

Lemma cacheable_reads (r : Redis) (now : Z) (s : St) :
  Codec.cacheMiddleware js env faults c dataType o req next r now s
  = match Codec.get js faults c r now (cacheKey_of dataType o req) with
    | (Resolved hit, r1) =>
        if Codec.not_null js hit
        then (Resolved {| Codec.statusCode := 200; Codec.x_cache := Some "HIT";
                          Codec.body := hit |}, r1, s)
        else
          match Codec.set_at js faults c r1 (now + Codec.handler_took (next s))
                  (cacheKey_of dataType o req)
                  (Codec.sent_body (next s)) (cacheTtl env dataType o) with
          | (Unmodelled, r2) => (Unmodelled, r2, Codec.handler_world (next s))
          | (_, r2) =>
              (Resolved {| Codec.statusCode := Codec.sent_status (next s);
                           Codec.x_cache := Some "MISS";
                           Codec.body := Codec.sent_body (next s) |},
               r2, Codec.handler_world (next s))
          end
    | (Rejected _, r1) => Codec.pass next r1 s
    | (Unmodelled, r1) => (Unmodelled, r1, s)
    end.
Proof.
  unfold Codec.cacheMiddleware. rewrite Hon, Hget. cbn [negb].
  change (String.eqb "GET" "GET") with true. cbn [negb].
  destruct (cache_control req) as [hd|]; [|reflexivity].
  destruct (String.eqb_spec hd "no-cache") as [->|_]; [now destruct Hcc | reflexivity].
Qed.

Lemma cacheable_hit (r : Redis) (now : Z) (s : St) (text : string) :
  faults (commands r) = false ->
  lookup_live (store r) now (cacheKey_of dataType o req) = Some text ->
  text <> "" ->
  (forall v, Codec.parse js text = Parsed v ->
             v <> Codec.null js ->
             Codec.cacheMiddleware js env faults c dataType o req next r now s
             = (Resolved {| Codec.statusCode := 200; Codec.x_cache := Some "HIT";
                            Codec.body := v |},
                {| store := store r; commands := S (commands r) |}, s))
  /\ (Codec.parse js text = SyntaxError ->
      Codec.cacheMiddleware js env faults c dataType o req next r now s
      = (Resolved {| Codec.statusCode := 200; Codec.x_cache := Some "HIT";
                     Codec.body := Codec.of_string js text |},
         {| store := store r; commands := S (commands r) |}, s)).
Proof.
  intros Hok Hlive Hne. destruct Hlaw as (Hnull & _ & _ & Hstr).
  rewrite cacheable_reads,
    (codec_get_reachable js faults c r now (cacheKey_of dataType o req) Hup Hok), Hlive.
  destruct (String.eqb_spec text ""); [contradiction|]. split.
  - intros v -> Hv.
    destruct (Codec.not_null js v) eqn:E; [reflexivity|]. now apply Hnull in E.
  - intros ->.
    destruct (Codec.not_null js (Codec.of_string js text)) eqn:E; [reflexivity|].
    apply Hnull in E. now destruct (Hstr text).
Qed.

Lemma cacheable_miss (r : Redis) (now : Z) (s : St) (t : Z) :
  faults (commands r) = false ->
  lookup_live (store r) now (cacheKey_of dataType o req) = None
  \/ lookup_live (store r) now (cacheKey_of dataType o req) = Some ""
  \/ (exists text, lookup_live (store r) now (cacheKey_of dataType o req) = Some text
                   /\ Codec.parse js text = Parsed (Codec.null js)) ->
  cacheTtl env dataType o = Seconds t ->
  Codec.cacheMiddleware js env faults c dataType o req next r now s
  = (Resolved {| Codec.statusCode := Codec.sent_status (next s);
                 Codec.x_cache := Some "MISS";
                 Codec.body := Codec.sent_body (next s) |},
     snd (Codec.set js faults c {| store := store r; commands := S (commands r) |}
            (now + Codec.handler_took (next s)) (cacheKey_of dataType o req)
            (Codec.sent_body (next s)) (Some t)),
     Codec.handler_world (next s)).
Proof.
  intros Hok Hmiss Httl. destruct Hlaw as (Hnull & _).
  rewrite cacheable_reads,
    (codec_get_reachable js faults c r now (cacheKey_of dataType o req) Hup Hok), Httl.
  assert (Hdecoded : match lookup_live (store r) now (cacheKey_of dataType o req) with
                     | Some text =>
                         if String.eqb text "" then Resolved (Codec.null js)
                         else match Codec.parse js text with
                              | Parsed v => Resolved v
                              | SyntaxError => Resolved (Codec.of_string js text)
                              | OutsideFragment => Unmodelled
                              end
                     | None => Resolved (Codec.null js)
                     end = Resolved (Codec.null js)).
  { destruct Hmiss as [-> | [-> | (text & -> & Hparsed)]]; try reflexivity.
    destruct (String.eqb text ""); [reflexivity|]. now rewrite Hparsed. }
  rewrite Hdecoded.
  assert (Hisnull : Codec.not_null js (Codec.null js) = false) by now apply Hnull.
  rewrite Hisnull. cbn [Codec.set_at].
  destruct (codec_set_resolves js faults c
              {| store := store r; commands := S (commands r) |}
              (now + Codec.handler_took (next s)) (cacheKey_of dataType o req)
              (Codec.sent_body (next s))
              (Some t)) as [b Hb].
  destruct (Codec.set js faults c _ _ (cacheKey_of dataType o req) _ (Some t)) as [done r2].
  cbn [fst] in Hb. subst done. reflexivity.
Qed.

End Cacheable.

(** X24. What the handler answers is cached and replayed as a 200,
    whatever its status.  On a miss of a cacheable request, with the cache
    reachable and a positive TTL, the answer of the handler goes out with
    its own status and [X-Cache: MISS], and its body is stored as a text
    under the key of the request.  A second such request within the TTL is
    answered with status 200 and [X-Cache: HIT] and what [JSON.parse] makes
    of that text, and the handler is not run again: with the body itself
    when that is not a string and [JSON.parse(JSON.stringify(body))] gives
    it back.  When the text is empty or denotes [null], the second request
    is a miss again and runs the handler a second time.  This holds
    whatever the values of the runtime are. *)
Theorem any_answer_is_replayed_as_200 :
  forall (V : Type) (js : Codec.Runtime V) (St : Type)
         (env : string -> option string) (faults : Faults)
         (c : CacheClient) (dataType : string) (o : Options) (req : Request)
         (next : St -> Codec.Handled St) (r : Redis) (now now' : Z) (s : St) (t : Z),
    Codec.lawful js ->
    enabled o = true ->
    req_method req = "GET" ->
    cache_control req <> Some "no-cache" ->
    unavailable c = false ->
    (forall n, faults n = false) ->
    lookup_live (store r) now (cacheKey_of dataType o req) = None ->
    cacheTtl env dataType o = Seconds t ->
    0 < t ->
    now' < now + Codec.handler_took (next s) + t * 1000 ->
    let first :=
      Codec.cacheMiddleware js env faults c dataType o req (Codec.counting next)
        r now (0%nat, s) in
    let second :=
      Codec.cacheMiddleware js env faults c dataType o req (Codec.counting next)
        (snd (fst first)) now' (snd first) in
    let answer := Codec.sent_body (next s) in
    let stored := Codec.serialize js answer in
    let again := next (Codec.handler_world (next s)) in
    fst (fst first)
    = Resolved {| Codec.statusCode := Codec.sent_status (next s);
                  Codec.x_cache := Some "MISS";
                  Codec.body := answer |}
    /\ snd first = (1%nat, Codec.handler_world (next s))
    /\ store (snd (fst first)) !! cacheKey_of dataType o req
       = Some {| text := stored;
                 expiry := Some (now + Codec.handler_took (next s) + t * 1000) |}
    /\ (stored <> "" ->
        forall v, Codec.parse js stored = Parsed v ->
                  v <> Codec.null js ->
                  fst (fst second)
                  = Resolved {| Codec.statusCode := 200; Codec.x_cache := Some "HIT";
                                Codec.body := v |}
                  /\ snd second = snd first)
    /\ (Codec.as_string js answer = None ->
        Codec.stringify js answer <> "" ->
        Codec.parse js (Codec.stringify js answer) = Parsed answer ->
        answer <> Codec.null js ->
        fst (fst second)
        = Resolved {| Codec.statusCode := 200; Codec.x_cache := Some "HIT";
                      Codec.body := answer |}
        /\ snd second = snd first)
    /\ (stored <> "" ->
        Codec.parse js stored = SyntaxError ->
        fst (fst second)
        = Resolved {| Codec.statusCode := 200; Codec.x_cache := Some "HIT";
                      Codec.body := Codec.of_string js stored |}
        /\ snd second = snd first)
    /\ (stored = "" \/ Codec.parse js stored = Parsed (Codec.null js) ->
        fst (fst second)
        = Resolved {| Codec.statusCode := Codec.sent_status again;
                      Codec.x_cache := Some "MISS";
                      Codec.body := Codec.sent_body again |}
        /\ snd second = (2%nat, Codec.handler_world again)).
Proof.
  intros V js St env faults c dataType o req next r now now' s t
    Hlaw Hon Hget Hcc Hup Hok Hmiss Httl Hpos Hfresh.
  set (h := next s) in *.
  set (key := cacheKey_of dataType o req) in *.
  set (e := {| text := Codec.serialize js (Codec.sent_body h);
               expiry := Some (now + Codec.handler_took h + t * 1000) |}).
  set (r2 := {| store := <[key := e]> (store r); commands := S (S (commands r)) |}).
  assert (Hfirst : Codec.cacheMiddleware js env faults c dataType o req
                     (Codec.counting next) r now (0%nat, s)
                   = (Resolved {| Codec.statusCode := Codec.sent_status h;
                                  Codec.x_cache := Some "MISS";
                                  Codec.body := Codec.sent_body h |},
                      r2, (1%nat, Codec.handler_world h))).
  { rewrite (cacheable_miss js env faults c dataType o req (Codec.counting next)
               Hlaw Hon Hget Hcc Hup r now (0%nat, s) t (Hok _) (or_introl Hmiss) Httl).
    cbn [Codec.counting Codec.sent_body Codec.handler_took Codec.sent_status
           Codec.handler_world fst snd]. fold h.
    now rewrite (codec_set_stores js faults c _ _ key (Codec.sent_body h) _ Hup Hpos
                   (Hok _)). }
  assert (Hlive : lookup_live (store r2) now' key
                  = Some (Codec.serialize js (Codec.sent_body h))).
  { unfold r2, e. cbn [store]. now apply lookup_live_insert. }
  cbn zeta. rewrite Hfirst. cbn [fst snd].
  split; [reflexivity|]. split; [reflexivity|].
  split; [apply lookup_insert_eq|].
  pose proof (fun Hne =>
                cacheable_hit js env faults c dataType o req (Codec.counting next)
                  Hlaw Hon Hget Hcc Hup r2 now' (1%nat, Codec.handler_world h) _
                  (Hok _) Hlive Hne) as Hhit.
  split; [|split; [|split]].
  - intros Hne v Hparsed Hv.
    destruct (Hhit Hne) as (Hvalue & _). rewrite (Hvalue v Hparsed Hv). split; reflexivity.
  - intros Hnone Hne Hround Hbody.
    assert (Hser : Codec.serialize js (Codec.sent_body h)
                   = Codec.stringify js (Codec.sent_body h))
      by (unfold Codec.serialize; now rewrite Hnone).
    rewrite Hser in Hhit. destruct (Hhit Hne) as (Hvalue & _).
    rewrite (Hvalue _ Hround Hbody). split; reflexivity.
  - intros Hne Hsyn.
    destruct (Hhit Hne) as (_ & Htext). rewrite (Htext Hsyn). split; reflexivity.
  - intros Hagain.
    assert (Hm : lookup_live (store r2) now' key = None
                 \/ lookup_live (store r2) now' key = Some ""
                 \/ (exists text, lookup_live (store r2) now' key = Some text
                                  /\ Codec.parse js text = Parsed (Codec.null js))).
    { rewrite Hlive. destruct Hagain as [-> | Hp]; [now right; left|].
      right; right. eauto. }
    rewrite (cacheable_miss js env faults c dataType o req (Codec.counting next)
               Hlaw Hon Hget Hcc Hup r2 now' (1%nat, Codec.handler_world h) t (Hok _)
               Hm Httl).
    split; reflexivity.
Qed.

End CachingMiddleware.

Lemma any_answer_is_replayed_as_200_witness :
  let next := fun s : unit => Codec.of_handled (Scenario.invalid_league_answer s) in
  let first :=
    Codec.cacheMiddleware Codec.json Sample.no_env Sample.no_fault Sample.connected
      "scores" Middleware.cacheScores Scenario.scores_request
      (Codec.counting next) Sample.empty_redis 1000 (0%nat, tt) in
  let second :=
    Codec.cacheMiddleware Codec.json Sample.no_env Sample.no_fault Sample.connected
      "scores" Middleware.cacheScores Scenario.scores_request
      (Codec.counting next) (snd (fst first)) 20000 (snd first) in
  fst (fst first)
  = Resolved {| Codec.statusCode := 400; Codec.x_cache := Some "MISS";
                Codec.body := Scenario.invalid_league_body |}
  /\ fst (fst second)
     = Resolved {| Codec.statusCode := 200; Codec.x_cache := Some "HIT";
                   Codec.body := Scenario.invalid_league_body |}
  /\ snd second = (1%nat, tt).
Proof.
  cbn zeta.
  destruct (any_answer_is_replayed_as_200 jsval Codec.json unit Sample.no_env
              Sample.no_fault Sample.connected "scores" Middleware.cacheScores
              Scenario.scores_request
              (fun s : unit => Codec.of_handled (Scenario.invalid_league_answer s))
              Sample.empty_redis 1000 20000 tt 30 json_lawful
              eq_refl eq_refl ltac:(discriminate) eq_refl (fun _ => eq_refl) eq_refl
              eq_refl eq_refl eq_refl)
    as (Hfirst & _ & _ & _ & Hitself & _).
  split; [exact Hfirst|].
  apply Hitself; [reflexivity | discriminate | vm_compute; reflexivity | discriminate].
Defined.

(** * What the invalidation of a sync leaves, and the keys of a game *)

Section AfterTheFirstSighting.
Import Json Cache Repo.
Local Open Scope list_scope.

Variable glob_match : string -> string -> bool.

(** X25. The sync does not invalidate the cached scoreboard.  When the
    key [scores:<sport>] under which [setCachedScoreboard] stores a
    scoreboard matches neither of the two patterns that
    [_clearSportCache] deletes, the scoreboard set before the
    invalidation is still what [getCachedScoreboard] resolves to after
    it. *)
Theorem cached_scoreboard_survives_the_sync :
  forall (sv : Services) (w : World) (sport : string) (data : jsval),
    unavailable (cacheClient sv) = false ->
    (forall n, redis_faults sv n = false) ->
    glob_match ("scores:" ++ sport ++ ":*") (generateCacheKey "scores" [sport]) = false ->
    glob_match ("games:" ++ sport ++ ":*") (generateCacheKey "scores" [sport]) = false ->
    in_fragment data = true ->
    data <> JNull ->
    (forall t, data <> JStr t) ->
    let w1 := Bulk.setCachedScoreboard sv w sport data in
    let w2 := _clearSportCache glob_match sv w1 sport in
    fst (Bulk.getCachedScoreboard sv w2 sport) = Resolved data.
Proof.
  intros sv w sport data Hup Hok Hs Hg Hfrag Hnull Hstr. cbn zeta.
  set (key := generateCacheKey "scores" [sport]) in *.
  set (e := {| text := serialize data; expiry := Some (clock sv + 30 * 1000) |}).
  assert (Hset : Bulk.setCachedScoreboard sv w sport data
                 = {| redis := {| store := <[key := e]> (store (redis w));
                                  commands := S (commands (redis w)) |};
                      db := db w |}).
  { unfold Bulk.setCachedScoreboard. fold key.
    now rewrite (set_stores (redis_faults sv) (cacheClient sv) (redis w) (clock sv) key
                   data 30 Hup ltac:(lia) (Hok _)). }
  rewrite Hset.
  pose proof (clearSportCache_clears_two_patterns_frame glob_match sv
              {| redis := {| store := <[key := e]> (store (redis w));
                             commands := S (commands (redis w)) |};
                 db := db w |} sport key Hs Hg) as Hkept.
  cbn [redis store] in Hkept. rewrite lookup_insert_eq in Hkept.
  unfold Bulk.getCachedScoreboard. fold key.
  set (w2 := _clearSportCache glob_match sv _ sport) in *.
  rewrite (get_live (redis_faults sv) (cacheClient sv) (redis w2) (clock sv) key e Hup
             (Hok _) Hkept ltac:(unfold live, e; cbn; apply Z.ltb_lt; lia)).
  cbn [fst].
  assert (Hser : text e = JSON_stringify data).
  { unfold e. cbn [text]. destruct data; try reflexivity. now destruct (Hstr s). }
  rewrite Hser.
  pose proof (JSON_round_trip data Hfrag) as Hround.
  destruct (String.eqb_spec (JSON_stringify data) "") as [Hempty|_].
  { rewrite Hempty in Hround. discriminate Hround. }
  rewrite Hround. reflexivity.
Qed.

End AfterTheFirstSighting.

Lemma cached_scoreboard_survives_the_sync_witness :
  let w1 := Bulk.setCachedScoreboard Sample.services Sample.first_sighting "nba"
              (JObj [("games", JArr [])]) in
  let w2 := Repo._clearSportCache Scenario.prefix_glob Sample.services w1 "nba" in
  fst (Bulk.getCachedScoreboard Sample.services w2 "nba")
  = Resolved (JObj [("games", JArr [])]).
Proof.
  apply (cached_scoreboard_survives_the_sync Scenario.prefix_glob Sample.services
           Sample.first_sighting "nba" (JObj [("games", JArr [])]));
    try reflexivity; discriminate.
Defined.

Section KeysOfAGame.
Import Json Cache Repo.
Local Open Scope list_scope.

Lemma game_record_keys espnGameData hfs afs hid aid :
  Js.prop "id" (JObj hfs) = Some hid ->
  Js.prop "id" (JObj afs) = Some aid ->
  Js.prop "home_team_id" (game_record espnGameData (JObj hfs) (JObj afs)) = Some hid
  /\ Js.prop "away_team_id" (game_record espnGameData (JObj hfs) (JObj afs)) = Some aid.
Proof.
  intros Hh Ha. unfold game_record. rewrite Hh, Ha. cbn. auto.
Qed.

(** X26. Teams that are already stored give the game its keys.  With
    cache and store reachable, nothing cached, and both teams of a game in
    [teams] (under different cache keys), [upsertFromESPN] looks each team
    up once and then upserts the game, as its last query, with the [id] of
    the stored home row as [home_team_id] and that of the away row as
    [away_team_id]: the missing keys of C5 are confined to teams the call
    itself creates. *)
Theorem stored_teams_give_the_game_its_keys :
  forall (sv : Services) (w : World) (espnGameData : Espn.Game)
         (hfs afs : list (string * jsval)) (hid aid : jsval),
    unavailable (cacheClient sv) = false ->
    (forall n, redis_faults sv n = false) ->
    (forall n, db_faults sv n = false) ->
    let home := Espn.homeTeam espnGameData in
    let away := Espn.awayTeam espnGameData in
    generateCacheKey "team" [Espn.side_espnId home]
    <> generateCacheKey "team" [Espn.side_espnId away] ->
    lookup_live (store (redis w)) (clock sv)
      (generateCacheKey "team" [Espn.side_espnId home]) = None ->
    lookup_live (store (redis w)) (clock sv)
      (generateCacheKey "team" [Espn.side_espnId away]) = None ->
    List.find (field_is "espn_id" (Espn.side_espnId home)) (rows (teams (db w)))
    = Some (JObj hfs) ->
    List.find (field_is "espn_id" (Espn.side_espnId away)) (rows (teams (db w)))
    = Some (JObj afs) ->
    Js.prop "id" (JObj hfs) = Some hid ->
    Js.prop "id" (JObj afs) = Some aid ->
    exists record,
      history (db (snd (upsertFromESPN sv w espnGameData)))
      = history (db w)
        ++ [ Select "teams" "espn_id" (Espn.side_espnId home);
             Select "teams" "espn_id" (Espn.side_espnId away);
             Upsert "games" record "espn_id" ]
      /\ Js.prop "home_team_id" record = Some hid
      /\ Js.prop "away_team_id" record = Some aid.
Proof.
  intros sv w espnGameData hfs afs hid aid Hup Hok Hdb home away
    Hkeys Hmiss1 Hmiss2 Hfind1 Hfind2 Hhid Haid.
  unfold upsertFromESPN. fold home away.
  rewrite (getOrCreate_reads_stored sv w home (Espn.sport espnGameData) hfs
             Hup Hok (Hdb _) Hmiss1 Hfind1).
  rewrite (getOrCreate_reads_stored sv _ away (Espn.sport espnGameData) afs
             Hup Hok (Hdb _)).
  - cbn [Js.truthy negb orb db redis].
    destruct (upsert_history (db_faults sv)
                {| teams := teams (db w); games := games (db w);
                   history := (history (db w)
                               ++ [Select "teams" "espn_id" (Espn.side_espnId home)])
                              ++ [Select "teams" "espn_id" (Espn.side_espnId away)] |}
                "games" (game_record espnGameData (JObj hfs) (JObj afs)) "espn_id")
      as (qs & Hhist & _ & Hone).
    rewrite (Hone (game_record_is_one_record _ _ _)) in Hhist.
    destruct (upsert _ _ _ _ _) as [res db3]. cbn [snd db history] in Hhist |- *.
    exists (game_record espnGameData (JObj hfs) (JObj afs)).
    split; [rewrite Hhist, <- !app_assoc; reflexivity|].
    now apply game_record_keys.
  - cbn [redis store]. unfold lookup_live.
    rewrite lookup_insert_ne by exact Hkeys. exact Hmiss2.
  - cbn [db teams]. exact Hfind2.
Qed.

End KeysOfAGame.

Lemma stored_teams_give_the_game_its_keys_witness :
  exists record,
    Repo.history (Repo.db (snd (Repo.upsertFromESPN Sample.services Scenario.both_stored
                                  Sample.tipoff_game)))
    = [ Repo.Select "teams" "espn_id" "2"; Repo.Select "teams" "espn_id" "17";
        Repo.Upsert "games" record "espn_id" ]
    /\ Js.prop "home_team_id" record = Some (JNum 1)
    /\ Js.prop "away_team_id" record = Some (JNum 2).
Proof.
  apply (stored_teams_give_the_game_its_keys Sample.services Scenario.both_stored
           Sample.tipoff_game Scenario.celtics_fields Scenario.nets_fields
           (JNum 1) (JNum 2));
    try reflexivity; discriminate.
Defined.
